(** * flext.py: profile parsing, specification resolution and output assembly

    A shallow embedding of [Turso3D/ThirdParty/FlextGL/flext.py] together
    with the properties of its resolution pipeline.

    Text is [string]; a character is an 8-bit code point, read as the
    Latin-1 range of Python's [str]: text with a character above U+00FF is
    outside the model.  Python dictionaries are [gmap]s,
    sets are [gset]s, lists are lists.  A Python exception is a value of
    [exn] carried by the [res] monad; [print] followed by [exit(1)] is the
    [SystemExit] exception carrying the diagnostic that was printed. *)

From Stdlib Require Import ZArith Ascii String.
From stdpp Require Import base option list gmap strings.

Set Warnings "-register-all,-clear-no-such-hyp".

Local Open Scope Z_scope.
Local Open Scope list_scope.

(** ** Exceptions *)

Inductive diagnostic :=
| DuplicateVersion (filename : string) (line_no : Z)
| DuplicateExtension (filename : string) (line_no : Z)
| SyntaxError (filename : string) (line_no : Z) (line : string).

(** [OSError] and [ParseError] are what [etree.parse] raises for a file
    that cannot be opened and for one that is not well-formed. *)
Inductive exn :=
| KeyError (key : string)
| AttributeError
| SystemExit (printed : diagnostic) (status : Z)
| OSError
| ParseError.

Inductive res (A : Type) :=
| Ok (a : A)
| Raise (e : exn).
Arguments Ok {A} a.
Arguments Raise {A} e.

Global Instance res_ret : MRet res := λ A a, Ok a.
Global Instance res_bind : MBind res := λ A B f m,
  match m with
  | Ok a => f a
  | Raise e => Raise e
  end.

Definition is_ok {A} (m : res A) : Prop :=
  match m with Ok _ => True | Raise _ => False end.

Global Instance is_ok_dec {A} (m : res A) : Decision (is_ok m).
Proof. destruct m; simpl; apply _. Defined.

(** [for x in l: acc = body(acc, x)] where the body may raise. *)
Fixpoint for_each {A S} (body : S → A → res S) (acc : S) (l : list A) : res S :=
  match l with
  | [] => Ok acc
  | x :: l' => acc' ← body acc x; for_each body acc' l'
  end.

(** [d[key]] on a dictionary. *)
Definition getitem {V} (d : gmap string V) (key : string) : res V :=
  match d !! key with
  | Some v => Ok v
  | None => Raise (KeyError key)
  end.

(** ** Characters and strings *)

Definition code (c : ascii) : N := N_of_ascii c.

Definition in_range (lo hi : N) (c : ascii) : bool :=
  ((lo <=? code c) && (code c <=? hi))%N.

(** [\d] up to U+00FF, where the decimal digits are [0] to [9]; Python's
    [\d] and [int] also take the decimal digits of other scripts, which lie
    above that range. *)
Definition is_digit (c : ascii) : bool := in_range 48 57 c.

(** [\s] and [str.isspace] *)
Definition is_space (c : ascii) : bool :=
  in_range 9 13 c || in_range 28 32 c || (code c =? 133)%N || (code c =? 160)%N.

(** [\w] *)
Definition is_word (c : ascii) : bool :=
  in_range 48 57 c || in_range 65 90 c || in_range 97 122 c || (code c =? 95)%N
  || (code c =? 170)%N || (code c =? 178)%N || (code c =? 179)%N
  || (code c =? 181)%N || (code c =? 185)%N || (code c =? 186)%N
  || in_range 188 190 c || in_range 192 214 c || in_range 216 246 c
  || in_range 248 255 c.

Definition newline : ascii := "010"%char.

(** [.] *)
Definition is_not_newline (c : ascii) : bool := negb (code c =? 10)%N.

Definition str_eqb (a b : string) : bool := bool_decide (a = b).

(** [s[n:]] *)
Fixpoint str_drop (n : nat) (s : string) : string :=
  match n, s with
  | O, _ => s
  | S n', String _ s' => str_drop n' s'
  | S _, EmptyString => EmptyString
  end.

(** [s[:n]] *)
Fixpoint str_take (n : nat) (s : string) : string :=
  match n, s with
  | O, _ => EmptyString
  | S n', String c s' => String c (str_take n' s')
  | S _, EmptyString => EmptyString
  end.

(** [s.startswith(p)], with the rest of [s] when it does. *)
Fixpoint strip_prefix (p s : string) : option string :=
  match p, s with
  | EmptyString, _ => Some s
  | String a p', String b s' => if bool_decide (a = b) then strip_prefix p' s' else None
  | String _ _, EmptyString => None
  end.

Fixpoint lstrip (s : string) : string :=
  match s with
  | String c s' => if is_space c then lstrip s' else s
  | EmptyString => EmptyString
  end.

(** [s.strip()] *)
Definition strip (s : string) : string :=
  String.rev (lstrip (String.rev (lstrip s))).

(** [''.join(l)] *)
Definition join (l : list string) : string := foldr String.append "" l.

(** Truth value of [None], [''] and other strings. *)
Definition truthy (o : option string) : bool :=
  match o with
  | Some s => negb (str_eqb s "")
  | None => false
  end.

(** [int(s)] on a string of decimal digits, the only strings it is applied
    to ([(\d)] groups). *)
Definition digit_value (c : ascii) : Z := Z.of_N (code c) - 48.

Fixpoint int_acc (acc : Z) (s : string) : Z :=
  match s with
  | EmptyString => acc
  | String c s' => int_acc (10 * acc + digit_value c) s'
  end.

Definition int (s : string) : Z := int_acc 0 s.

(** ** ElementTree *)

Inductive Element := mkElement {
  tag : string;
  attrib : gmap string string;
  text : option string;
  tail : option string;
  children : list Element
}.

(** Children selected by a path step [tag]. *)
Definition step (t : string) (e : Element) : list Element :=
  filter (λ c, tag c = t) (children e).

(** [[@key]] *)
Definition has_attr (key : string) (e : Element) : bool :=
  bool_decide (is_Some (attrib e !! key)).

(** [[@key='value']] *)
Definition attr_is (key value : string) (e : Element) : bool :=
  bool_decide (attrib e !! key = Some value).

(** [node.find(tag)]: the first child with that tag, or [None]. *)
Definition find (t : string) (e : Element) : option Element :=
  head (step t e).

(** [e.attrib[key]] *)
Definition attr (key : string) (e : Element) : res string := getitem (attrib e) key.

(** Attribute access on a value that may be [None]. *)
Definition deref {A} (o : option A) : res A :=
  match o with
  | Some a => Ok a
  | None => Raise AttributeError
  end.

(** ** Regular expressions ([re])

    The patterns of the program use literals, character classes, greedy
    repetition of a character class, alternation, capture groups and [$].
    [rmatch] is the backtracking search of [re]: an alternation tries its
    branches from left to right, a repetition takes as many characters as
    it can and gives them back one at a time. *)

Inductive regex :=
| Lit (l : string)
| Class (p : ascii → bool)
| Star (p : ascii → bool)
| Plus (p : ascii → bool)
| Alt (r1 r2 : regex)
| Seq (r1 r2 : regex)
| Group (n : nat) (r : regex)
| Dollar
| Empty.

Declare Scope regex_scope.
Delimit Scope regex_scope with re.
Bind Scope regex_scope with regex.
Infix "⋅" := Seq (at level 40, left associativity) : regex_scope.
Infix "|||" := Alt (at level 50, left associativity) : regex_scope.

Definition captures := gmap nat string.

(** [$]: the end of the string, or just before a newline that ends it. *)
Definition at_end (s : string) : bool :=
  match s with
  | EmptyString => true
  | String c EmptyString => bool_decide (c = newline)
  | _ => false
  end.

(** The text between two positions, each given by what is left to read. *)
Definition consumed (s s' : string) : string :=
  str_take (String.length s - String.length s') s.

Fixpoint star {M} (p : ascii → bool) (k : string → option M) (s : string) : option M :=
  match s with
  | String c s' =>
      if p c then
        match star p k s' with
        | Some m => Some m
        | None => k s
        end
      else k s
  | EmptyString => k s
  end.

Fixpoint rmatch (r : regex) (s : string) (caps : captures)
    (k : string → captures → option captures) : option captures :=
  match r with
  | Lit l =>
      match strip_prefix l s with
      | Some s' => k s' caps
      | None => None
      end
  | Class p =>
      match s with
      | String c s' => if p c then k s' caps else None
      | EmptyString => None
      end
  | Star p => star p (λ s', k s' caps) s
  | Plus p =>
      match s with
      | String c s' => if p c then star p (λ s'', k s'' caps) s' else None
      | EmptyString => None
      end
  | Alt r1 r2 =>
      match rmatch r1 s caps k with
      | Some m => Some m
      | None => rmatch r2 s caps k
      end
  | Seq r1 r2 => rmatch r1 s caps (λ s' caps', rmatch r2 s' caps' k)
  | Group n r => rmatch r s caps (λ s' caps', k s' (<[n := consumed s s']> caps'))
  | Dollar => if at_end s then k s caps else None
  | Empty => k s caps
  end.

(** [pattern.match(line)]: anchored at the start only. *)
Definition re_match (r : regex) (line : string) : option captures :=
  rmatch r line ∅ (λ _ caps, Some caps).

(** [match.group(n)]; every group of the patterns below takes part in
    every match. *)
Definition group (m : captures) (n : nat) : string := default "" (m !! n).

(** ** Profile file parsing *)

Record Version := mkVersion {
  api : string;
  major : Z;
  minor : Z;
  profile : string
}.

Definition Version_init (major minor profile_or_api : string) : Version :=
  let api :=
    if bool_decide (profile_or_api ∈ ["es1"; "es2"])
    then "gl" +:+ profile_or_api else "gl" in
  {| api := api;
     major := int major;
     minor := int minor;
     profile := if str_eqb api "gl" then profile_or_api else "" |}.

Definition int_value (v : Version) : Z := 10 * major v + minor v.

(** ['#.*$|\s+$'] *)
Definition comment_pattern : regex :=
  (Lit "#" ⋅ Star is_not_newline ⋅ Dollar ||| Plus is_space ⋅ Dollar)%re.

(** ['version\s+(\d)\.(\d)\s*(core|compatibility|es|)\s*$'] *)
Definition version_pattern : regex :=
  (Lit "version" ⋅ Plus is_space ⋅ Group 1 (Class is_digit) ⋅ Lit "."
   ⋅ Group 2 (Class is_digit) ⋅ Star is_space
   ⋅ Group 3 (Lit "core" ||| Lit "compatibility" ||| Lit "es" ||| Empty)
   ⋅ Star is_space ⋅ Dollar)%re.

(** ['extension\s+(\w+)\s+(required|optional)\s*$'] *)
Definition extension_pattern : regex :=
  (Lit "extension" ⋅ Plus is_space ⋅ Group 1 (Plus is_word) ⋅ Plus is_space
   ⋅ Group 2 (Lit "required" ||| Lit "optional") ⋅ Star is_space ⋅ Dollar)%re.

(** The variables of the loop of [parse_profile]. *)
Record profile_state := mkProfileState {
  version : option Version;
  extensions : list (string * bool);
  extension_set : gset string
}.

Definition profile_line (filename : string) (st : profile_state)
    (entry : Z * string) : res profile_state :=
  let '(line_no, line) := entry in
  match re_match version_pattern line with
  | Some m =>
      if bool_decide (version st ≠ None) then
        Raise (SystemExit (DuplicateVersion filename line_no) 1)
      else
        let v :=
          if str_eqb (group m 3) "es" then
            Version_init (group m 1) (group m 2)
              (if str_eqb (group m 1) "1" then "es1" else "es2")
          else Version_init (group m 1) (group m 2) (group m 3) in
        Ok (mkProfileState (Some v) (extensions st) (extension_set st))
  | None =>
      match re_match extension_pattern line with
      | Some m =>
          if bool_decide (group m 1 ∈ extension_set st) then
            Raise (SystemExit (DuplicateExtension filename line_no) 1)
          else
            Ok (mkProfileState (version st)
                  (extensions st ++ [(group m 1, str_eqb (group m 2) "required")])
                  ({[group m 1]} ∪ extension_set st))
      | None =>
          match re_match comment_pattern line with
          | Some _ => Ok st
          | None => Raise (SystemExit (SyntaxError filename line_no line) 1)
          end
      end
  end.

(** [version = None], [extensions = []], [extension_set = set()] *)
Definition profile_start : profile_state := mkProfileState None [] ∅.

(** [enumerate(file, start)] *)
Fixpoint enumerate {A} (start : Z) (l : list A) : list (Z * A) :=
  match l with
  | [] => []
  | x :: l' => (start, x) :: enumerate (start + 1) l'
  end.

(** The file is the list of its lines, each with its line end. *)
Definition parse_profile (filename : string) (file : list string)
    : res (option Version * list (string * bool)) :=
  st ← for_each (profile_line filename) profile_start (enumerate 1 file);
  Ok (version st, extensions st).

Definition nl : string := String newline "".

Example parse_profile_sample :
  parse_profile "p.txt"
    ["# profile" +:+ nl; nl; "version 3.3 core" +:+ nl;
     "extension EXT_foo required" +:+ nl; "extension ARB_bar optional"]
  = Ok (Some (mkVersion "gl" 3 3 "core"), [("EXT_foo", true); ("ARB_bar", false)]).
Proof. vm_compute. reflexivity. Qed.

Example parse_profile_es :
  parse_profile "p.txt" ["version 1.1 es" +:+ nl] = Ok (Some (mkVersion "gles1" 1 1 ""), [])
  ∧ parse_profile "p.txt" ["version 2.0   es  " +:+ nl] = Ok (Some (mkVersion "gles2" 2 0 ""), [])
  ∧ parse_profile "p.txt" ["version 2.1"] = Ok (Some (mkVersion "gl" 2 1 ""), [])
  ∧ parse_profile "p.txt" ["version 10.1" +:+ nl]
    = Raise (SystemExit (SyntaxError "p.txt" 1 ("version 10.1" +:+ nl)) 1).
Proof. vm_compute. repeat split; reflexivity. Qed.

(** ** XML spec file parsing *)

Record Function := mkFunction {
  fn_returntype : string;
  fn_name : string;
  fn_params : list (string * string)
}.

Record APISubset := mkAPISubset {
  subset_name : string;
  subset_types : list string;
  subset_enums : list string;
  subset_commands : list string
}.

(** [Type.name] is [None] when it is read from a [<name>] element without
    text. *)
Record Type_ := mkType {
  type_api : option string;
  type_name : option string;
  type_definition : string;
  type_dependent : option string
}.

Record Command := mkCommand {
  cmd_returntype : string;
  cmd_name : string;
  cmd_params : list (string * string);
  cmd_requiredTypes : gset string
}.

Definition safe_text (text : option string) : string := default "" text.

Definition xml_extract_all_text (node : Element) (substitutes : gmap string string) : string :=
  join (safe_text (text node)
        :: flat_map (λ item,
             [ match substitutes !! tag item with
               | Some sub => sub
               | None => safe_text (text item)
               end;
               safe_text (tail item) ]) (children node)).

(** [xml_parse_type_name_pair(node)]; [node] is the result of a [find]. *)
Definition xml_parse_type_name_pair (node : option Element)
    : res (string * string * option string) :=
  node ← deref node;
  name_node ← deref (find "name" node);
  name_text ← deref (text name_node);
  let name := strip name_text in
  let type := strip (xml_extract_all_text node {["name" := ""]}) in
  match find "ptype" node with
  | Some ptype =>
      ptype_text ← deref (text ptype);
      Ok (name, type, Some (strip ptype_text))
  | None => Ok (name, type, None)
  end.

(** [node.findall(path)] for a path of tag steps below [node], in document
    order. *)
Fixpoint findall (path : list string) (node : Element) : list Element :=
  match path with
  | [] => [node]
  | t :: path' => flat_map (findall path') (step t node)
  end.

(** The selector is the list of its tag steps; the [[@name]] predicate keeps
    the elements that have the attribute that is read. *)
Definition extract_names (feature : Element) (selector : list string) : list string :=
  omap (λ element, attrib element !! "name") (findall selector feature).

(** ['(\\d)\\.(\\d)'] *)
Definition int_version_pattern : regex :=
  (Group 1 (Class is_digit) ⋅ Lit "." ⋅ Group 2 (Class is_digit))%re.

Definition parse_int_version (version_str : string) : res Z :=
  m ← deref (re_match int_version_pattern version_str);
  Ok (int (group m 1) * 10 + int (group m 2)).

(** An [api] attribute that differs from the requested one. *)
Definition other_api (e : Element) (api : string) : bool :=
  match attrib e !! "api" with
  | Some a => negb (str_eqb a api)
  | None => false
  end.

Definition parse_xml_enums (root : Element) (api : string) : res (gmap string string) :=
  for_each (λ (enums : gmap string string) enum,
      if other_api enum api then Ok enums
      else
        name ← attr "name" enum;
        value ← attr "value" enum;
        let value :=
          match attrib enum !! "type" with
          | Some type => value +:+ type
          | None => value
          end in
        Ok (<[name := value]> enums))
    ∅ (findall ["enums"; "enum"] root).

(** The second loop of [parse_xml_types] with the final reversal. *)
Definition unique_step (st : gmap (option string) (option string) * list Type_)
    (type : Type_) : gmap (option string) (option string) * list Type_ :=
  let '(unique_type_names, unique_types) := st in
  let skip :=
    match unique_type_names !! type_name type with
    | Some seen_api => negb (truthy (type_api type)) && truthy seen_api
    | None => false
    end in
  if skip then st
  else (<[type_name type := type_api type]> unique_type_names, unique_types ++ [type]).

Definition unique_types (types : list Type_) : list Type_ :=
  reverse (foldl unique_step (∅, []) (reverse types)).2.

(** The first loop of [parse_xml_types]. *)
Definition collect_type_step (api : string) (types : list Type_) (type : Element)
    : res (list Type_) :=
  if other_api type api then Ok types
  else
    name ← match attrib type !! "name" with
           | Some name => Ok (Some name)
           | None => name_node ← deref (find "name" type); Ok (text name_node)
           end;
    let definition := xml_extract_all_text type {["apientry" := "APIENTRY"]} in
    Ok (types ++ [mkType (attrib type !! "api") name definition
                    (attrib type !! "requires")]).

Definition collect_types (root : Element) (api : string) : res (list Type_) :=
  for_each (collect_type_step api) [] (findall ["types"; "type"] root).

Definition parse_xml_types (root : Element) (api : string) : res (list Type_) :=
  types ← collect_types root api;
  Ok (unique_types types).

Definition add_required (requiredType : option string) (requiredTypes : gset string)
    : gset string :=
  match requiredType with
  | Some t => {[t]} ∪ requiredTypes
  | None => requiredTypes
  end.

Definition parse_xml_commands (root : Element) : res (gmap string Command) :=
  for_each (λ (commands : gmap string Command) cmd,
      '(name, rettype, requiredType) ← xml_parse_type_name_pair (find "proto" cmd);
      let requiredTypes := add_required requiredType ∅ in
      '(params, requiredTypes) ←
        for_each (λ '(params, requiredTypes) item,
            '(pname, ptype, requiredType) ← xml_parse_type_name_pair (Some item);
            Ok (params ++ [(pname, ptype)], add_required requiredType requiredTypes))
          ([], requiredTypes) (step "param" cmd);
      Ok (<[name := mkCommand rettype name params requiredTypes]> commands))
    ∅ (findall ["commands"; "command"] root).

(** [[entry for entry in entries if entry not in set(names)]] *)
Definition without (names : list string) (entries : list string) : list string :=
  filter (λ entry, entry ∉ (list_to_set names : gset string)) entries.

(** [remove]: the three assignments made to one subset. *)
Definition remove_from (actionSet : Element) (subset : APISubset) : APISubset :=
  mkAPISubset (subset_name subset)
    (without (extract_names actionSet ["type"]) (subset_types subset))
    (without (extract_names actionSet ["enum"]) (subset_enums subset))
    (without (extract_names actionSet ["command"]) (subset_commands subset)).

(** A section whose [profile] attribute differs, for the desktop API. *)
Definition other_profile (api profile : string) (actionSet : Element) : bool :=
  str_eqb api "gl" &&
  match attrib actionSet !! "profile" with
  | Some p => negb (str_eqb p profile)
  | None => false
  end.

(** The variables of the loop over the sections of one feature, with the
    list [subsets] it updates in place. *)
Record feature_state := mkFeatureState {
  typeList : list string;
  enumList : list string;
  commandList : list string;
  subsets_so_far : list APISubset
}.

Definition action_step (api profile : string) (st : feature_state)
    (actionSet : Element) : feature_state :=
  if other_profile api profile actionSet then st
  else
    let st :=
      if str_eqb (tag actionSet) "require" then
        mkFeatureState
          (typeList st ++ extract_names actionSet ["type"])
          (enumList st ++ extract_names actionSet ["enum"])
          (commandList st ++ extract_names actionSet ["command"])
          (subsets_so_far st)
      else st in
    if str_eqb (tag actionSet) "remove" then
      mkFeatureState (typeList st) (enumList st) (commandList st)
        (map (remove_from actionSet) (subsets_so_far st))
    else st.

(** ["./feature[@api='%s'][@name][@number]" % api] *)
Definition features_of (root : Element) (api : string) : list Element :=
  filter (λ f, attr_is "api" api f && has_attr "name" f && has_attr "number" f)
    (step "feature" root).

(** [parse_int_version(feature.attrib['number'])] *)
Definition feature_level (feature : Element) : res Z :=
  number ← attr "number" feature;
  parse_int_version number.

Definition feature_step (int_version : Z) (api profile : string)
    (subsets : list APISubset) (feature : Element) : res (list APISubset) :=
  level ← feature_level feature;
  if bool_decide (level > int_version) then Ok subsets
  else
    featureName ← attr "name" feature;
    let st := foldl (action_step api profile) (mkFeatureState [] [] [] subsets)
                (children feature) in
    Ok (subsets_so_far st
        ++ [mkAPISubset (str_drop 3 featureName) (typeList st) (enumList st)
              (commandList st)]).

Definition parse_xml_features (root : Element) (int_version : Z) (api profile : string)
    : res (list APISubset) :=
  for_each (feature_step int_version api profile) [] (features_of root api).

(** ["./extensions/extension[@name='GL_%s']" % name]; the names are the
    [(\\w+)] groups of the profile. *)
Definition find_extension (root : Element) (name : string) : option Element :=
  head (filter (λ e, attr_is "name" ("GL_" +:+ name) e)
          (findall ["extensions"; "extension"] root)).

(** What [parse_xml_extensions] prints, and the subsets it returns. *)
Definition extension_step (root : Element) (st : list string * list APISubset)
    (request : string * bool) : list string * list APISubset :=
  let '(printed, subsets) := st in
  let '(name, _) := request in
  match find_extension root name with
  | None => (printed ++ [name +:+ " is not an extension"], subsets)
  | Some extension =>
      (printed,
       subsets ++ [mkAPISubset name
                     (extract_names extension ["require"; "type"])
                     (extract_names extension ["require"; "enum"])
                     (extract_names extension ["require"; "command"])])
  end.

Definition parse_xml_extensions (root : Element) (extensions : list (string * bool))
    : list string * list APISubset :=
  foldl (extension_step root) ([], []) extensions.

Definition name_in (name : option string) (names : gset string) : bool :=
  match name with
  | Some n => bool_decide (n ∈ names)
  | None => false
  end.

Definition generate_passthru (dependencies : gset string) (types : list Type_) : string :=
  foldl (λ passthru type,
      if name_in (type_name type) dependencies then
        let passthru := if str_eqb passthru "" then passthru else passthru +:+ nl in
        passthru +:+ type_definition type
      else passthru)
    "" types.

(** The body of the loop over the enums of a subset. *)
Definition enum_step (enums : gmap string string) (enumsDecl : string) (enumName : string)
    : res string :=
  value ← getitem enums enumName;
  Ok (enumsDecl +:+ nl +:+ "#define " +:+ enumName +:+ " " +:+ value).

(** The body of the loop over the subsets. *)
Definition subset_enum_step (enums : gmap string string) (enumsDecl : string)
    (subset : APISubset) : res string :=
  if bool_decide (subset_enums subset ≠ []) then
    let enumsDecl :=
      if str_eqb enumsDecl "" then enumsDecl else enumsDecl +:+ nl +:+ nl in
    let enumsDecl := enumsDecl +:+ "/* GL_" +:+ subset_name subset +:+ " */" +:+ nl in
    for_each (enum_step enums) enumsDecl (subset_enums subset)
  else Ok enumsDecl.

Definition generate_enums (subsets : list APISubset) (enums : gmap string string)
    : res string :=
  for_each (subset_enum_step enums) "" subsets.

Definition function_step (commands : gmap string Command)
    (st : list Function * gset string) (name : string)
    : res (list Function * gset string) :=
  let '(subset_functions, function_set) := st in
  if bool_decide (name ∈ function_set) then Ok st
  else
    command ← getitem commands name;
    Ok (subset_functions
          ++ [mkFunction (cmd_returntype command) (str_drop 2 (cmd_name command))
                (cmd_params command)],
        {[name]} ∪ function_set).

(** The body of the loop over the subsets. *)
Definition subset_function_step (commands : gmap string Command)
    (st : list (string * list Function) * gset string) (subset : APISubset)
    : res (list (string * list Function) * gset string) :=
  let '(functions, function_set) := st in
  '(subset_functions, function_set) ←
    for_each (function_step commands) ([], function_set) (subset_commands subset);
  Ok (functions ++ [(subset_name subset, subset_functions)], function_set).

Definition generate_functions (subsets : list APISubset) (commands : gmap string Command)
    : res (list (string * list Function)) :=
  '(functions, _) ← for_each (subset_function_step commands) ([], ∅) subsets;
  Ok functions.

Definition dependent_step (requiredTypes : gset string) (type : Type_) : gset string :=
  if name_in (type_name type) requiredTypes && truthy (type_dependent type) then
    match type_dependent type with
    | Some dependent => {[dependent]} ∪ requiredTypes
    | None => requiredTypes
    end
  else requiredTypes.

(** The body of the loop over the commands of a subset. *)
Definition required_command_step (commands : gmap string Command)
    (requiredTypes : gset string) (cmd : string) : res (gset string) :=
  command ← getitem commands cmd;
  Ok (requiredTypes ∪ cmd_requiredTypes command).

(** The body of the loop over the subsets. *)
Definition required_subset_step (commands : gmap string Command)
    (requiredTypes : gset string) (subset : APISubset) : res (gset string) :=
  for_each (required_command_step commands)
    (requiredTypes ∪ list_to_set (subset_types subset)) (subset_commands subset).

Definition resolve_type_dependencies (subsets : list APISubset) (types : list Type_)
    (commands : gmap string Command) : res (gset string) :=
  requiredTypes ← for_each (required_subset_step commands) ∅ subsets;
  Ok (foldl dependent_step requiredTypes types).

(** [parse_xml] from [types = parse_xml_types(root, version.api)] on, on
    the root that [etree.parse(gl_xml_file).getroot()] has returned: what is
    printed and what is returned. *)
Definition parse_xml (root : Element) (version : Version)
    (extensions : list (string * bool))
    : list string * res (string * string * list (string * list Function)) :=
  match
    types ← parse_xml_types root (api version);
    enums ← parse_xml_enums root (api version);
    commands ← parse_xml_commands root;
    subsetsGL ← parse_xml_features root (int_value version) (api version) (profile version);
    Ok (types, enums, commands, subsetsGL)
  with
  | Raise e => ([], Raise e)
  | Ok (types, enums, commands, subsetsGL) =>
      let '(printed, subsetsEXT) := parse_xml_extensions root extensions in
      let subsets := subsetsGL ++ subsetsEXT in
      (printed,
       requiredTypes ← resolve_type_dependencies subsets types commands;
       let passthru := generate_passthru requiredTypes types in
       enums ← generate_enums subsets enums;
       functions ← generate_functions subsets commands;
       Ok (passthru, enums, functions))
  end.

(** The whole of [parse_xml]: [parsed] is the outcome of
    [etree.parse(gl_xml_file).getroot()], the root of the document or the
    exception that [etree.parse] raised. *)
Definition parse_xml_file (parsed : res Element) (version : Version)
    (extensions : list (string * bool))
    : list string * res (string * string * list (string * list Function)) :=
  match parsed with
  | Raise e => ([], Raise e)
  | Ok root => parse_xml root version extensions
  end.

(** * Properties *)

(** ** Strings *)

Lemma app_cons (x : ascii) (a b : string) : String x a +:+ b = String x (a +:+ b).
Proof. reflexivity. Qed.

Lemma app_empty_l (a : string) : "" +:+ a = a.
Proof. reflexivity. Qed.

Lemma app_assoc_str (a b c : string) : (a +:+ b) +:+ c = a +:+ (b +:+ c).
Proof. induction a as [|x a IH]; [done|]. by rewrite !app_cons, IH. Qed.

Lemma app_empty_r (a : string) : a +:+ "" = a.
Proof. induction a as [|x a IH]; [done|]. by rewrite app_cons, IH. Qed.

Lemma app_eq_empty (a b : string) : a +:+ b = "" → a = "" ∧ b = "".
Proof. destruct a; [done|]. rewrite app_cons. discriminate. Qed.

Lemma str_eqb_true (a b : string) : str_eqb a b = true ↔ a = b.
Proof. unfold str_eqb. by rewrite bool_decide_eq_true. Qed.

Lemma str_eqb_false (a b : string) : str_eqb a b = false ↔ a ≠ b.
Proof. unfold str_eqb. by rewrite bool_decide_eq_false. Qed.

(** ** Loops *)

Lemma for_each_cons {A S} (body : S → A → res S) (acc : S) (x : A) (l : list A) :
  for_each body acc (x :: l) = body acc x ≫= λ acc', for_each body acc' l.
Proof. reflexivity. Qed.

Lemma for_each_app {A S} (body : S → A → res S) (acc : S) (l1 l2 : list A) :
  for_each body acc (l1 ++ l2) = for_each body acc l1 ≫= λ acc', for_each body acc' l2.
Proof.
  revert acc. induction l1 as [|x l1 IH]; intros acc; [done|].
  rewrite <- app_comm_cons, !for_each_cons. destruct (body acc x); [apply IH|done].
Qed.

Lemma bind_Ok {A B} (a : A) (f : A → res B) : Ok a ≫= f = f a.
Proof. reflexivity. Qed.

(** ** Elements for examples *)

Definition node (t : string) (attrs : list (string * string)) (c : list Element) : Element :=
  mkElement t (list_to_map attrs) None None c.

Definition named (t name : string) : Element := node t [("name", name)] [].

(** ** Passthrough text *)

Section Passthru.
Variable dependencies : gset string.

Definition required (type : Type_) : bool := name_in (type_name type) dependencies.

(** The definitions that are emitted, in the order of the type list. *)
Definition required_definitions (types : list Type_) : list string :=
  map type_definition (filter (λ type, required type) types).

(** Empty definitions at the front leave the text empty, so that no
    separator is written for them. *)
Fixpoint skip_empty (l : list string) : list string :=
  match l with
  | d :: l' => if str_eqb d "" then skip_empty l' else l
  | [] => []
  end.

Definition passthru_step (passthru : string) (type : Type_) : string :=
  if name_in (type_name type) dependencies then
    let passthru := if str_eqb passthru "" then passthru else passthru +:+ nl in
    passthru +:+ type_definition type
  else passthru.

Lemma generate_passthru_fold types :
  generate_passthru dependencies types = foldl passthru_step "" types.
Proof. reflexivity. Qed.

Lemma required_definitions_cons (t : Type_) types :
  required_definitions (t :: types)
  = if required t then type_definition t :: required_definitions types
    else required_definitions types.
Proof.
  unfold required_definitions. rewrite filter_cons.
  destruct (required t); by rewrite ?decide_True, ?decide_False by done.
Qed.

Lemma passthru_started (acc : string) types :
  acc ≠ "" →
  foldl passthru_step acc types
  = acc +:+ join (map (λ d, nl +:+ d) (required_definitions types)).
Proof.
  revert acc. induction types as [|t types IH]; intros acc Hacc.
  { simpl. by rewrite app_empty_r. }
  rewrite required_definitions_cons. simpl foldl.
  unfold passthru_step at 2. fold (required t).
  destruct (required t).
  - apply str_eqb_false in Hacc as Hacc'. rewrite Hacc'.
    rewrite IH.
    + simpl. by rewrite !app_assoc_str.
    + intros [H _]%app_eq_empty. by apply app_eq_empty in H as [? _].
  - by apply IH.
Qed.

Lemma concat_cons_nl (d : string) (l : list string) :
  String.concat nl (d :: l) = d +:+ join (map (λ d, nl +:+ d) l).
Proof.
  revert d. induction l as [|e l IH]; intros d.
  { simpl. by rewrite app_empty_r. }
  change (String.concat nl (d :: e :: l)) with (d +:+ nl +:+ String.concat nl (e :: l)).
  rewrite (IH e). simpl. by rewrite !app_assoc_str.
Qed.

Lemma passthru_from_empty types :
  foldl passthru_step "" types
  = String.concat nl (skip_empty (required_definitions types)).
Proof.
  induction types as [|t types IH]; [done|].
  rewrite required_definitions_cons. simpl foldl.
  unfold passthru_step at 2. fold (required t).
  destruct (required t); [|exact IH].
  simpl. destruct (str_eqb (type_definition t) "") eqn:Hd.
  - apply str_eqb_true in Hd. rewrite Hd. exact IH.
  - apply str_eqb_false in Hd. rewrite passthru_started by done.
    by rewrite concat_cons_nl.
Qed.
End Passthru.

(** The reading of the specification: the definitions joined by a blank
    line. *)
Definition passthru_blank_line_joined (dependencies : gset string) (types : list Type_)
    : string :=
  String.concat (nl +:+ nl) (required_definitions dependencies types).

Definition two_types : list Type_ :=
  [mkType None (Some "A") "typedef int A;" None;
   mkType None (Some "B") "typedef int B;" None].

(** C4, as stated, fails: two required definitions are separated by one
    line end, with no blank line between them. *)
Lemma generate_passthru_no_blank_line :
  generate_passthru {["A"; "B"]} two_types = "typedef int A;" +:+ nl +:+ "typedef int B;"
  ∧ generate_passthru {["A"; "B"]} two_types ≠ passthru_blank_line_joined {["A"; "B"]} two_types.
Proof. split; [by vm_compute|]. vm_compute. discriminate. Qed.

(** C4, amended: [generate_passthru] returns the definitions of the types
    whose name is in the required set, in the order of the type list, joined
    by a single line end; required definitions that are empty and come before
    the first non-empty one contribute nothing, not even a separator. *)
Theorem generate_passthru_joined (dependencies : gset string) (types : list Type_) :
  generate_passthru dependencies types
  = String.concat nl (skip_empty (required_definitions dependencies types)).
Proof. rewrite generate_passthru_fold. apply passthru_from_empty. Qed.

(** ** Function groups *)

Global Instance Command_inhabited : Inhabited Command :=
  populate (mkCommand "" "" [] ∅).

(** The [Function] made from a command. *)
Definition function_of (command : Command) : Function :=
  mkFunction (cmd_returntype command) (str_drop 2 (cmd_name command)) (cmd_params command).

Definition function_for (commands : gmap string Command) (name : string) : Function :=
  function_of (commands !!! name).

(** Every entry of a list at its first occurrence only. *)
Fixpoint first_occurrences (l : list string) : list string :=
  match l with
  | [] => []
  | x :: l' => x :: filter (λ y, y ≠ x) (first_occurrences l')
  end.

(** The reading of the specification: the commands of a subset that no
    earlier subset has, each once, at its first place. *)
Definition listed_commands (earlier : list APISubset) (subset : APISubset) : list string :=
  first_occurrences
    (filter (λ X, X ∉ flat_map subset_commands earlier) (subset_commands subset)).

Fixpoint function_groups (earlier subsets : list APISubset)
    (commands : gmap string Command) : list (string * list Function) :=
  match subsets with
  | [] => []
  | subset :: rest =>
      (subset_name subset, map (function_for commands) (listed_commands earlier subset))
      :: function_groups (earlier ++ [subset]) rest commands
  end.

(** Every command that a subset lists is a key of the command table. *)
Definition commands_known (subsets : list APISubset) (commands : gmap string Command) : Prop :=
  Forall (λ subset, Forall (λ X, is_Some (commands !! X)) (subset_commands subset)) subsets.

Lemma filter_first_occurrences (P : string → Prop) `{∀ x, Decision (P x)} (l : list string) :
  filter P (first_occurrences l) = first_occurrences (filter P l).
Proof.
  induction l as [|x l IH]; [done|]. simpl. rewrite !filter_cons.
  destruct (decide (P x)) as [HP|HP]; simpl.
  - f_equal. rewrite <- IH. rewrite !list_filter_filter.
    apply list_filter_iff. naive_solver.
  - rewrite <- IH. rewrite list_filter_filter. apply list_filter_iff.
    intros y. split; [naive_solver|]. intros Hy. split; [done|]. by intros ->.
Qed.

Lemma elem_of_first_occurrences (l : list string) (x : string) :
  x ∈ first_occurrences l ↔ x ∈ l.
Proof.
  induction l as [|y l IH]; [done|]. simpl.
  rewrite !elem_of_cons, list_elem_of_filter, IH.
  destruct (decide (x = y)); naive_solver.
Qed.

Lemma NoDup_first_occurrences (l : list string) : NoDup (first_occurrences l).
Proof.
  induction l as [|y l IH]; simpl; [constructor|].
  constructor; [|by apply NoDup_filter].
  rewrite list_elem_of_filter. naive_solver.
Qed.

Lemma sublist_first_occurrences (l : list string) : first_occurrences l `sublist_of` l.
Proof.
  induction l as [|y l IH]; simpl; [done|].
  apply sublist_skip. etrans; [apply sublist_filter|done].
Qed.

Section Functions.
Variable commands : gmap string Command.

Lemma function_step_seen (acc : list Function) (seen : gset string) (n : string) :
  n ∈ seen → function_step commands (acc, seen) n = Ok (acc, seen).
Proof. intros Hin. unfold function_step. by rewrite bool_decide_eq_true_2. Qed.

Lemma function_step_new (acc : list Function) (seen : gset string) (n : string) c :
  n ∉ seen → commands !! n = Some c →
  function_step commands (acc, seen) n = Ok (acc ++ [function_of c], {[n]} ∪ seen).
Proof.
  intros Hin Hc. unfold function_step, getitem.
  rewrite bool_decide_eq_false_2 by done. by rewrite Hc.
Qed.

Lemma function_step_fresh (acc : list Function) (seen : gset string) (names : list string) :
  (∀ X, X ∈ names → is_Some (commands !! X)) →
  for_each (function_step commands) (acc, seen) names
  = Ok (acc ++ map (function_for commands)
                 (first_occurrences (filter (λ X, X ∉ seen) names)),
        list_to_set names ∪ seen).
Proof.
  revert acc seen. induction names as [|n names IH]; intros acc seen Hknown.
  { simpl. rewrite app_nil_r. f_equal. f_equal. set_solver. }
  assert (∀ X, X ∈ names → is_Some (commands !! X)) as Hrest
    by (intros X HX; apply Hknown; by right).
  rewrite for_each_cons, filter_cons.
  destruct (decide (n ∈ seen)) as [Hin|Hin].
  - rewrite function_step_seen, bind_Ok by done. rewrite decide_False by tauto.
    rewrite IH by done. f_equal. f_equal. set_solver.
  - destruct (Hknown n) as [c Hc]; [by left|].
    rewrite (function_step_new _ _ _ c), bind_Ok by done. rewrite decide_True by done.
    rewrite IH by done. rewrite <- app_assoc.
    f_equal. f_equal; [|set_solver].
    f_equal. simpl. f_equal.
    + unfold function_for. by rewrite (lookup_total_correct _ _ _ Hc).
    + f_equal. rewrite filter_first_occurrences. f_equal.
      rewrite list_filter_filter. apply list_filter_iff. set_solver.
Qed.

Definition seen_of (earlier : list APISubset) : gset string :=
  list_to_set (flat_map subset_commands earlier).

Lemma subset_function_step_ok (acc : list (string * list Function))
    (earlier : list APISubset) (s : APISubset) :
  (∀ X, X ∈ subset_commands s → is_Some (commands !! X)) →
  subset_function_step commands (acc, seen_of earlier) s
  = Ok (acc ++ [(subset_name s,
                 map (function_for commands) (listed_commands earlier s))],
        seen_of (earlier ++ [s])).
Proof.
  intros Hknown. unfold subset_function_step.
  rewrite function_step_fresh, bind_Ok by done.
  f_equal. f_equal.
  - rewrite app_nil_l. unfold listed_commands. do 5 f_equal.
    apply list_filter_iff. intros X. unfold seen_of. by rewrite elem_of_list_to_set.
  - unfold seen_of. rewrite flat_map_app. simpl. rewrite app_nil_r.
    rewrite list_to_set_app_L. set_solver.
Qed.

Lemma subset_function_steps (acc : list (string * list Function))
    (earlier subsets : list APISubset) :
  commands_known subsets commands →
  for_each (subset_function_step commands) (acc, seen_of earlier) subsets
  = Ok (acc ++ function_groups earlier subsets commands, seen_of (earlier ++ subsets)).
Proof.
  revert acc earlier. induction subsets as [|s subsets IH]; intros acc earlier Hknown.
  { simpl. by rewrite !app_nil_r. }
  apply Forall_cons in Hknown as [Hs Hknown]. rewrite Forall_forall in Hs.
  rewrite for_each_cons, subset_function_step_ok, bind_Ok by done.
  rewrite IH by done.
  rewrite <- !app_assoc. done.
Qed.

Lemma generate_functions_loop (subsets : list APISubset) :
  generate_functions subsets commands
  = '(functions, _) ← for_each (subset_function_step commands) ([], seen_of []) subsets;
    Ok functions.
Proof. reflexivity. Qed.

Lemma generate_functions_groups (subsets : list APISubset) :
  commands_known subsets commands →
  generate_functions subsets commands = Ok (function_groups [] subsets commands).
Proof.
  intros Hknown. rewrite generate_functions_loop.
  by rewrite subset_function_steps.
Qed.

Lemma function_groups_lookup (earlier subsets : list APISubset) (j : nat) (sj : APISubset) :
  subsets !! j = Some sj →
  function_groups earlier subsets commands !! j
  = Some (subset_name sj,
          map (function_for commands) (listed_commands (earlier ++ take j subsets) sj)).
Proof.
  revert earlier j. induction subsets as [|s subsets IH]; intros earlier j Hj; [done|].
  destruct j as [|j]; simpl in *.
  - simplify_eq. by rewrite app_nil_r.
  - rewrite (IH _ _ Hj). by rewrite <- app_assoc.
Qed.
End Functions.

Lemma elem_of_listed_commands (earlier : list APISubset) (subset : APISubset) (X : string) :
  X ∈ listed_commands earlier subset
  ↔ X ∈ subset_commands subset ∧ ∀ e, e ∈ earlier → X ∉ subset_commands e.
Proof.
  unfold listed_commands.
  rewrite elem_of_first_occurrences, list_elem_of_filter, list_elem_of_In, in_flat_map.
  setoid_rewrite <- list_elem_of_In. naive_solver.
Qed.

Lemma elem_of_take_lookup {A} (l : list A) (j : nat) (x : A) :
  x ∈ take j l ↔ ∃ i, (i < j)%nat ∧ l !! i = Some x.
Proof.
  rewrite list_elem_of_lookup. split.
  - intros [i Hi]. exists i. apply lookup_take_Some in Hi. naive_solver.
  - intros (i & Hlt & Hi). exists i. by rewrite lookup_take_lt.
Qed.

Definition sample_commands : gmap string Command :=
  list_to_map
    [("glA", mkCommand "void" "glA" [] ∅);
     ("glB", mkCommand "void" "glB" [("x", "GLint")] {["GLint"]});
     ("glC", mkCommand "GLenum" "glC" [] {["GLenum"]})].

Definition sample_subsets : list APISubset :=
  [mkAPISubset "VERSION_1_0" [] [] ["glA"; "glB"; "glA"];
   mkAPISubset "EXT_foo" [] [] ["glB"; "glC"]].

Example generate_functions_sample :
  generate_functions sample_subsets sample_commands
  = Ok [("VERSION_1_0", [mkFunction "void" "A" []; mkFunction "void" "B" [("x", "GLint")]]);
        ("EXT_foo", [mkFunction "GLenum" "C" []])].
Proof. by vm_compute. Qed.

(** C6: when every listed command is in the command table,
    [generate_functions] returns one pair per subset, in the order of the
    subsets; the functions of the pair at place [j] are those of the commands
    of subset [j] that no earlier subset lists, each once, in the order of
    the subset's command list.  So a command of an earlier subset that comes
    again in a later one is listed under the first subset that has it and
    left out of the later one. *)
Theorem generate_functions_first_occurrence
    (subsets : list APISubset) (commands : gmap string Command) :
  commands_known subsets commands →
  generate_functions subsets commands = Ok (function_groups [] subsets commands)
  ∧ map fst (function_groups [] subsets commands) = map subset_name subsets
  ∧ ∀ (j : nat) (sj : APISubset),
      subsets !! j = Some sj →
      function_groups [] subsets commands !! j
      = Some (subset_name sj,
              map (function_for commands) (listed_commands (take j subsets) sj))
      ∧ listed_commands (take j subsets) sj `sublist_of` subset_commands sj
      ∧ NoDup (listed_commands (take j subsets) sj)
      ∧ (∀ X, X ∈ listed_commands (take j subsets) sj
              ↔ X ∈ subset_commands sj
                ∧ ∀ (i : nat) (si : APISubset),
                    (i < j)%nat → subsets !! i = Some si → X ∉ subset_commands si)
      ∧ (∀ (i : nat) (si : APISubset) (X : string),
            (i < j)%nat → subsets !! i = Some si →
            X ∈ subset_commands si → X ∈ subset_commands sj →
            X ∉ listed_commands (take j subsets) sj).
Proof.
  intros Hknown. split; [by apply generate_functions_groups|]. split.
  { generalize (@nil APISubset). induction subsets as [|s subsets IH]; intros earlier; [done|].
    apply Forall_cons in Hknown as [_ Hknown]. simpl. f_equal. by apply IH. }
  intros j sj Hj.
  assert (∀ X, X ∈ listed_commands (take j subsets) sj
              ↔ X ∈ subset_commands sj
                ∧ ∀ (i : nat) (si : APISubset),
                    (i < j)%nat → subsets !! i = Some si → X ∉ subset_commands si) as Hiff.
  { intros X. rewrite elem_of_listed_commands. split; intros [HX Hearlier]; (split; [done|]).
    - intros i si Hlt Hi. apply Hearlier. apply elem_of_take_lookup. eauto.
    - intros e (i & Hlt & Hi)%elem_of_take_lookup. eauto. }
  split; [by rewrite (function_groups_lookup _ _ _ _ _ Hj)|].
  split; [etrans; [apply sublist_first_occurrences|apply sublist_filter]|].
  split; [apply NoDup_first_occurrences|].
  split; [done|].
  intros i si X Hlt Hi HXi HXj [_ Hno]%Hiff. by eapply Hno.
Qed.

Lemma generate_functions_first_occurrence_witness :
  generate_functions sample_subsets sample_commands
  = Ok (function_groups [] sample_subsets sample_commands).
Proof.
  apply (generate_functions_first_occurrence sample_subsets sample_commands).
  unfold commands_known. apply (bool_decide_unpack _). vm_compute. exact I.
Defined.


(** ** Required types *)

(** The reading of the specification, first part: the types that the
    subsets declare and the types that their commands require. *)
Definition direct_types (subsets : list APISubset) (commands : gmap string Command)
    : gset string :=
  ⋃ map (λ subset,
      list_to_set (subset_types subset)
      ∪ ⋃ map (λ cmd, cmd_requiredTypes (commands !!! cmd)) (subset_commands subset))
    subsets.

(** [type] has the non-empty dependent [d]. *)
Definition depends_on (type : Type_) (d : string) : Prop :=
  type_dependent type = Some d ∧ d ≠ "".

(** The reading of the specification, second part: one level of dependent
    expansion of a set. *)
Definition one_hop (direct : gset string) (types : list Type_) : gset string :=
  direct ∪ list_to_set (omap (λ type,
      if name_in (type_name type) direct && truthy (type_dependent type)
      then type_dependent type else None) types).

Lemma truthy_depends_on (type : Type_) :
  truthy (type_dependent type) = true ↔ ∃ d, depends_on type d.
Proof.
  unfold depends_on, truthy. destruct (type_dependent type) as [d|].
  - rewrite negb_true_iff, str_eqb_false. naive_solver.
  - naive_solver.
Qed.

Lemma name_in_spec (name : option string) (names : gset string) :
  name_in name names = true ↔ ∃ n, name = Some n ∧ n ∈ names.
Proof.
  unfold name_in. destruct name as [n|]; [|naive_solver].
  rewrite bool_decide_eq_true. naive_solver.
Qed.

Lemma name_in_mono (name : option string) (A B : gset string) :
  A ⊆ B → name_in name A = true → name_in name B = true.
Proof. rewrite !name_in_spec. set_solver. Qed.

Lemma elem_of_one_hop (direct : gset string) (types : list Type_) (x : string) :
  x ∈ one_hop direct types
  ↔ x ∈ direct
    ∨ ∃ type, type ∈ types ∧ name_in (type_name type) direct = true ∧ depends_on type x.
Proof.
  unfold one_hop. rewrite elem_of_union, elem_of_list_to_set, list_elem_of_omap.
  apply or_iff_compat_l. split.
  - intros (t & Ht & Hx).
    destruct (name_in (type_name t) direct) eqn:Hn; [|done]. simpl in Hx.
    destruct (truthy (type_dependent t)) eqn:Hd; [|done].
    apply truthy_depends_on in Hd as [d [Hd Hne]].
    exists t. split; [done|]. split; [done|]. split; [done|]. congruence.
  - intros (t & Ht & Hn & Hd & Hne). exists t. split; [done|].
    rewrite Hn. simpl. rewrite Hd. simpl.
    apply str_eqb_false in Hne. by rewrite Hne.
Qed.

Lemma dependent_step_spec (R : gset string) (type : Type_) (x : string) :
  x ∈ dependent_step R type
  ↔ x ∈ R ∨ (name_in (type_name type) R = true ∧ depends_on type x).
Proof.
  unfold dependent_step, depends_on.
  destruct (name_in (type_name type) R) eqn:Hn; simpl; [|naive_solver].
  unfold truthy. destruct (type_dependent type) as [d|]; [|naive_solver].
  destruct (str_eqb d "") eqn:Hd; simpl.
  - apply str_eqb_true in Hd. naive_solver.
  - apply str_eqb_false in Hd. set_solver.
Qed.

Lemma dependent_step_mono (R : gset string) (type : Type_) : R ⊆ dependent_step R type.
Proof. intros x Hx. apply dependent_step_spec. by left. Qed.

Lemma dependent_steps_mono (R : gset string) (types : list Type_) :
  R ⊆ foldl dependent_step R types.
Proof.
  revert R. induction types as [|t types IH]; intros R; simpl; [done|].
  etrans; [apply dependent_step_mono|apply IH].
Qed.

Lemma dependent_steps_app (R : gset string) (l1 l2 : list Type_) :
  foldl dependent_step R (l1 ++ l2) = foldl dependent_step (foldl dependent_step R l1) l2.
Proof. apply foldl_app. Qed.

(** What [j] steps of the loop over the types have built. *)
Definition built (direct : gset string) (types : list Type_) (j : nat) : gset string :=
  foldl dependent_step direct (take j types).

Lemma built_subseteq (direct : gset string) (types : list Type_) (j : nat) :
  built direct types j ⊆ foldl dependent_step direct types.
Proof.
  unfold built. rewrite <- (take_drop j types) at 2.
  rewrite dependent_steps_app. apply dependent_steps_mono.
Qed.

Lemma built_S (direct : gset string) (types : list Type_) (j : nat) (u : Type_) :
  types !! j = Some u →
  built direct types (S j) = dependent_step (built direct types j) u.
Proof.
  intros Hj. unfold built. rewrite (take_S_r _ _ _ Hj). by rewrite foldl_app.
Qed.

Lemma built_all (direct : gset string) (types : list Type_) :
  built direct types (length types) = foldl dependent_step direct types.
Proof. unfold built. by rewrite firstn_all. Qed.

Lemma built_step_mono (direct : gset string) (types : list Type_) (j : nat) :
  built direct types j ⊆ built direct types (S j).
Proof.
  destruct (types !! j) as [u|] eqn:Hj.
  - rewrite (built_S _ _ _ _ Hj). apply dependent_step_mono.
  - unfold built. apply lookup_ge_None in Hj. by rewrite !take_ge by lia.
Qed.

Lemma built_mono (direct : gset string) (types : list Type_) (i j : nat) :
  (i ≤ j)%nat → built direct types i ⊆ built direct types j.
Proof.
  induction 1 as [|j _ IH]; [done|]. etrans; [exact IH|apply built_step_mono].
Qed.

(** Every type visited with its name in the set built so far adds its
    dependent. *)
Lemma built_adds (direct : gset string) (types : list Type_) (j : nat) (u : Type_) (d : string) :
  types !! j = Some u →
  name_in (type_name u) (built direct types j) = true →
  depends_on u d →
  d ∈ foldl dependent_step direct types.
Proof.
  intros Hj Hn Hd. apply (built_subseteq direct types (S j)).
  rewrite (built_S _ _ _ _ Hj). apply dependent_step_spec. by right.
Qed.

(** Whatever is in the set was required directly or is the dependent of a
    type visited earlier. *)
Lemma built_origin (direct : gset string) (types : list Type_) (j : nat) (x : string) :
  x ∈ built direct types j →
  x ∈ direct
  ∨ ∃ (i : nat) (t : Type_),
      (i < j)%nat ∧ types !! i = Some t
      ∧ name_in (type_name t) (built direct types i) = true ∧ depends_on t x.
Proof.
  induction j as [|j IH]; intros Hx.
  { left. by unfold built in Hx; rewrite take_0 in Hx. }
  destruct (types !! j) as [u|] eqn:Hj.
  - rewrite (built_S _ _ _ _ Hj) in Hx. apply dependent_step_spec in Hx as [Hx|[Hn Hd]].
    + destruct (IH Hx) as [?|(i & t & ? & ?)]; [by left|].
      right. exists i, t. split; [lia|done].
    + right. exists j, u. split; [lia|done].
  - assert (built direct types (S j) = built direct types j) as Heq.
    { unfold built. apply lookup_ge_None in Hj. by rewrite !take_ge by lia. }
    rewrite Heq in Hx.
    destruct (IH Hx) as [?|(i & t & ? & ?)]; [by left|].
    right. exists i, t. split; [lia|done].
Qed.

Lemma required_command_step_known (commands : gmap string Command) (R : gset string)
    (cmd : string) (c : Command) :
  commands !! cmd = Some c →
  required_command_step commands R cmd = Ok (R ∪ cmd_requiredTypes c).
Proof. intros Hc. unfold required_command_step, getitem. by rewrite Hc. Qed.

Lemma required_command_step_unknown (commands : gmap string Command) (R : gset string)
    (cmd : string) :
  commands !! cmd = None →
  required_command_step commands R cmd = Raise (KeyError cmd).
Proof. intros Hc. unfold required_command_step, getitem. by rewrite Hc. Qed.

Lemma required_command_steps (commands : gmap string Command) (R : gset string)
    (cmds : list string) :
  Forall (λ X, is_Some (commands !! X)) cmds →
  for_each (required_command_step commands) R cmds
  = Ok (R ∪ ⋃ map (λ cmd, cmd_requiredTypes (commands !!! cmd)) cmds).
Proof.
  revert R. induction cmds as [|cmd cmds IH]; intros R Hknown.
  { simpl. f_equal. set_solver. }
  apply Forall_cons in Hknown as [[c Hc] Hknown].
  rewrite for_each_cons, (required_command_step_known _ _ _ c), bind_Ok, IH by done.
  simpl. rewrite (lookup_total_correct _ _ _ Hc). f_equal. set_solver.
Qed.

Lemma required_subset_steps (commands : gmap string Command) (R : gset string)
    (subsets : list APISubset) :
  commands_known subsets commands →
  for_each (required_subset_step commands) R subsets
  = Ok (R ∪ direct_types subsets commands).
Proof.
  revert R. induction subsets as [|s subsets IH]; intros R Hknown.
  { simpl. f_equal. unfold direct_types. set_solver. }
  apply Forall_cons in Hknown as [Hs Hknown].
  rewrite for_each_cons.
  replace (required_subset_step commands R s)
    with (for_each (required_command_step commands)
            (R ∪ list_to_set (subset_types s)) (subset_commands s)) by done.
  rewrite required_command_steps, bind_Ok, IH by done.
  f_equal. unfold direct_types. simpl. set_solver.
Qed.

Lemma required_command_steps_known (commands : gmap string Command) (R : gset string)
    (cmds : list string) :
  is_ok (for_each (required_command_step commands) R cmds) →
  Forall (λ X, is_Some (commands !! X)) cmds.
Proof.
  revert R. induction cmds as [|cmd cmds IH]; intros R Hok; [constructor|].
  rewrite for_each_cons in Hok.
  destruct (commands !! cmd) as [c|] eqn:Hc.
  - rewrite (required_command_step_known _ _ _ c), bind_Ok in Hok by done.
    constructor; [by rewrite Hc|by eapply IH].
  - by rewrite required_command_step_unknown in Hok.
Qed.

Lemma required_subset_steps_known (commands : gmap string Command) (R : gset string)
    (subsets : list APISubset) :
  is_ok (for_each (required_subset_step commands) R subsets) →
  commands_known subsets commands.
Proof.
  revert R. induction subsets as [|s subsets IH]; intros R Hok; [constructor|].
  rewrite for_each_cons in Hok.
  destruct (required_subset_step commands R s) as [R'|] eqn:Hs; [|done].
  rewrite bind_Ok in Hok. constructor; [|by eapply IH].
  eapply required_command_steps_known. unfold required_subset_step in Hs. by rewrite Hs.
Qed.

Lemma resolve_type_dependencies_fold (subsets : list APISubset) (types : list Type_)
    (commands : gmap string Command) :
  commands_known subsets commands →
  resolve_type_dependencies subsets types commands
  = Ok (foldl dependent_step (direct_types subsets commands) types).
Proof.
  intros Hknown. unfold resolve_type_dependencies.
  rewrite required_subset_steps, bind_Ok by done. by rewrite (left_id_L ∅ (∪)).
Qed.

(** [resolve_type_dependencies] returns exactly when every listed command
    is in the command table. *)
Lemma resolve_type_dependencies_ok (subsets : list APISubset) (types : list Type_)
    (commands : gmap string Command) :
  is_ok (resolve_type_dependencies subsets types commands)
  ↔ commands_known subsets commands.
Proof.
  split.
  - unfold resolve_type_dependencies. intros Hok.
    apply (required_subset_steps_known commands ∅).
    by destruct (for_each (required_subset_step commands) ∅ subsets).
  - intros Hknown. by rewrite resolve_type_dependencies_fold.
Qed.

Definition chain_types : list Type_ :=
  [mkType None (Some "A") "typedef B A;" (Some "B");
   mkType None (Some "B") "typedef C B;" (Some "C");
   mkType None (Some "C") "typedef int C;" None].

Definition chain_subsets : list APISubset := [mkAPISubset "VERSION_1_0" ["A"] [] []].

(** C3, as stated, fails: [A] is required and depends on [B], which is
    declared after it and depends on [C]; the dependent of the dependent is
    added. *)
Lemma resolve_type_dependencies_follows_chain :
  resolve_type_dependencies chain_subsets chain_types ∅ = Ok {["A"; "B"; "C"]}
  ∧ direct_types chain_subsets ∅ = {["A"]}
  ∧ one_hop (direct_types chain_subsets ∅) chain_types = {["A"; "B"]}
  ∧ resolve_type_dependencies chain_subsets chain_types ∅
    ≠ Ok (one_hop (direct_types chain_subsets ∅) chain_types).
Proof.
  split; [by vm_compute|]. split; [by vm_compute|]. split; [by vm_compute|].
  vm_compute. discriminate.
Qed.

(** C3, amended: when every listed command is in the command table,
    [resolve_type_dependencies] returns the union of the subsets' declared
    types and of their commands' required types, extended by one pass over
    the type list in its order, in which a type whose name is in the set built
    so far and whose dependent is non-empty adds that dependent.  The result
    holds the dependent of every directly required type, and nothing but
    directly required types and dependents of types whose name it holds.  The
    dependent of a dependent is added as well when the dependent is declared
    later in the type list than the type that requires it; when no dependent
    that is not directly required is declared, with a dependent of its own,
    later than a type that requires it, the result is the one-level expansion. *)
Theorem resolve_type_dependencies_in_order
    (subsets : list APISubset) (types : list Type_) (commands : gmap string Command) :
  commands_known subsets commands →
  ∃ R : gset string,
    resolve_type_dependencies subsets types commands = Ok R
    ∧ R = foldl dependent_step (direct_types subsets commands) types
    ∧ direct_types subsets commands ⊆ R
    ∧ one_hop (direct_types subsets commands) types ⊆ R
    ∧ (∀ x, x ∈ R →
         x ∈ direct_types subsets commands
         ∨ ∃ t, t ∈ types ∧ name_in (type_name t) R = true ∧ depends_on t x)
    ∧ (∀ (i j : nat) (t u : Type_) (d d' : string),
         (i < j)%nat → types !! i = Some t → types !! j = Some u →
         name_in (type_name t) (direct_types subsets commands) = true →
         depends_on t d → type_name u = Some d → depends_on u d' →
         d' ∈ R)
    ∧ ((∀ (i j : nat) (t u : Type_) (d : string),
          (i < j)%nat → types !! i = Some t → types !! j = Some u →
          depends_on t d → type_name u = Some d →
          d ∉ direct_types subsets commands →
          truthy (type_dependent u) = false) →
       R = one_hop (direct_types subsets commands) types).
Proof.
  intros Hknown. set (direct := direct_types subsets commands).
  exists (foldl dependent_step direct types).
  split; [by apply resolve_type_dependencies_fold|]. split; [done|].
  split; [apply dependent_steps_mono|].
  assert (one_hop direct types ⊆ foldl dependent_step direct types) as Hhop.
  { intros x [Hx|(t & Ht & Hn & Hd)]%elem_of_one_hop; [by apply dependent_steps_mono|].
    apply list_elem_of_lookup in Ht as [j Hj].
    eapply built_adds; [done| |done].
    eapply name_in_mono; [|done]. apply dependent_steps_mono. }
  split; [done|]. split; [|split].
  - intros x Hx. rewrite <- built_all in Hx.
    apply built_origin in Hx as [Hx|(i & t & Hlt & Hi & Hn & Hd)]; [by left|].
    right. exists t. split; [by eapply list_elem_of_lookup_2|]. split; [|done].
    eapply name_in_mono; [apply built_subseteq|done].
  - intros i j t u d d' Hlt Hi Hj Hn Hd Hu Hd'.
    eapply built_adds; [exact Hj| |exact Hd'].
    apply name_in_spec. exists d. split; [done|].
    apply (built_mono direct types (S i) j); [lia|].
    rewrite (built_S _ _ _ _ Hi). apply dependent_step_spec. right. split; [|done].
    eapply name_in_mono; [|exact Hn]. apply (built_mono direct types 0 i). lia.
  - intros Hback. apply (anti_symm (⊆)); [|done].
    rewrite <- built_all. generalize (length types). intros j.
    induction j as [|j IH]; [by intros x Hx; apply elem_of_one_hop; left|].
    destruct (types !! j) as [u|] eqn:Hj.
    2:{ etrans; [|exact IH]. unfold built. apply lookup_ge_None in Hj.
        by rewrite !take_ge by lia. }
    rewrite (built_S _ _ _ _ Hj). intros x [Hx|[Hn Hd]]%dependent_step_spec; [by apply IH|].
    apply elem_of_one_hop. right. exists u. split; [by eapply list_elem_of_lookup_2|].
    split; [|done].
    apply name_in_spec in Hn as (n & Hu & Hin). apply name_in_spec. exists n. split; [done|].
    destruct (decide (n ∈ direct)) as [|Hnot]; [done|].
    apply built_origin in Hin as [?|(i & t & Hlt & Hi & _ & Ht)]; [done|].
    pose proof (Hback i j t u n Hlt Hi Hj Ht Hu Hnot) as Hfalse.
    assert (truthy (type_dependent u) = true) by (apply truthy_depends_on; eauto).
    congruence.
Qed.

Lemma resolve_type_dependencies_in_order_witness :
  ∃ R : gset string,
    resolve_type_dependencies sample_subsets chain_types sample_commands = Ok R
    ∧ R = foldl dependent_step (direct_types sample_subsets sample_commands) chain_types.
Proof.
  destruct (resolve_type_dependencies_in_order sample_subsets chain_types sample_commands)
    as (R & HR & Hfold & _).
  - unfold commands_known. apply (bool_decide_unpack _). vm_compute. exact I.
  - exists R. by split.
Defined.

(** ** Type specialization *)

(** A later entry of the list has the name [name] and a non-empty [api]. *)
Definition specialized_later (name : option string) (rest : list Type_) : bool :=
  existsb (λ s, bool_decide (type_name s = name) && truthy (type_api s)) rest.

(** The reading of the specification: an entry is kept unless it has no
    [api] of its own and a more specific entry of its name is declared after
    it. *)
Fixpoint keep_most_specific (types : list Type_) : list Type_ :=
  match types with
  | [] => []
  | t :: rest =>
      if negb (truthy (type_api t)) && specialized_later (type_name t) rest
      then keep_most_specific rest
      else t :: keep_most_specific rest
  end.

(** The dictionary [unique_type_names] holds a non-empty [api] for a name. *)
Definition seen_specialized (names : gmap (option string) (option string))
    (name : option string) : bool :=
  match names !! name with
  | Some seen_api => truthy seen_api
  | None => false
  end.

Lemma unique_step_skip names kept (t : Type_) :
  negb (truthy (type_api t)) && seen_specialized names (type_name t) = true →
  unique_step (names, kept) t = (names, kept).
Proof.
  intros Hskip. unfold unique_step, seen_specialized in *.
  destruct (names !! type_name t); [by rewrite Hskip|].
  by rewrite andb_false_r in Hskip.
Qed.

Lemma unique_step_keep names kept (t : Type_) :
  negb (truthy (type_api t)) && seen_specialized names (type_name t) = false →
  unique_step (names, kept) t = (<[type_name t := type_api t]> names, kept ++ [t]).
Proof.
  intros Hkeep. unfold unique_step, seen_specialized in *.
  destruct (names !! type_name t); [by rewrite Hkeep|done].
Qed.

Lemma unique_steps (types : list Type_) :
  ∃ names,
    foldl unique_step (∅, []) (reverse types) = (names, reverse (keep_most_specific types))
    ∧ ∀ name, seen_specialized names name = specialized_later name types.
Proof.
  induction types as [|t rest (names & Hfold & Hseen)].
  { exists ∅. split; [done|]. intros name. unfold seen_specialized. by rewrite lookup_empty. }
  rewrite reverse_cons, foldl_app, Hfold.
  change (foldl unique_step ?st [t]) with (unique_step st t). simpl keep_most_specific.
  rewrite <- Hseen.
  destruct (negb (truthy (type_api t)) && seen_specialized names (type_name t)) eqn:Hskip.
  - rewrite unique_step_skip by done. exists names. split; [done|].
    intros name. simpl. rewrite <- Hseen.
    apply andb_true_iff in Hskip as [Hapi%negb_true_iff _]. rewrite Hapi.
    by rewrite andb_false_r.
  - rewrite unique_step_keep by done. eexists. split; [by rewrite reverse_cons|].
    intros name. simpl. rewrite <- Hseen. unfold seen_specialized at 1.
    destruct (decide (type_name t = name)) as [<-|Hne].
    + rewrite lookup_insert_eq, bool_decide_eq_true_2 by done. simpl.
      destruct (truthy (type_api t)); [done|]. simpl in *. by rewrite Hskip.
    + rewrite lookup_insert_ne, bool_decide_eq_false_2 by done. done.
Qed.

Lemma unique_types_keep (types : list Type_) :
  unique_types types = keep_most_specific types.
Proof.
  unfold unique_types. destruct (unique_steps types) as (names & -> & _).
  simpl. apply reverse_involutive.
Qed.

Lemma keep_most_specific_sublist (types : list Type_) :
  keep_most_specific types `sublist_of` types.
Proof.
  induction types as [|t rest IH]; simpl; [done|].
  destruct (_ && _); [by apply sublist_cons|by apply sublist_skip].
Qed.

Lemma specialized_later_filter (name : option string) (rest : list Type_) :
  specialized_later name (filter (λ t, type_name t = name) rest)
  = specialized_later name rest.
Proof.
  induction rest as [|t rest IH]; [done|]. rewrite filter_cons.
  destruct (decide (type_name t = name)) as [Ht|Ht]; simpl.
  - by rewrite IH.
  - rewrite bool_decide_eq_false_2 by done. simpl. exact IH.
Qed.

Lemma keep_most_specific_filter (name : option string) (types : list Type_) :
  filter (λ t, type_name t = name) (keep_most_specific types)
  = keep_most_specific (filter (λ t, type_name t = name) types).
Proof.
  induction types as [|t rest IH]; [done|]. simpl. rewrite (filter_cons _ t rest).
  destruct (decide (type_name t = name)) as [Ht|Ht].
  - simpl. rewrite Ht, specialized_later_filter.
    destruct (_ && _); [done|]. rewrite filter_cons, decide_True by done. by f_equal.
  - destruct (_ && _); [done|]. by rewrite filter_cons, decide_False.
Qed.

Lemma keep_most_specific_specialized (types : list Type_) (t : Type_) :
  t ∈ types → truthy (type_api t) = true → t ∈ keep_most_specific types.
Proof.
  intros Ht Hapi. induction types as [|u rest IH]; [by apply elem_of_nil in Ht|].
  simpl. apply elem_of_cons in Ht as [<-|Ht].
  - rewrite Hapi. simpl. by left.
  - destruct (_ && _); [by apply IH|]. right. by apply IH.
Qed.

Lemma filter_none_named (name : option string) (l : list Type_) :
  Forall (λ t, type_name t ≠ name) l → filter (λ t, type_name t = name) l = [].
Proof.
  induction 1 as [|t l Ht _ IH]; [done|]. by rewrite filter_cons, decide_False.
Qed.

Lemma collect_type_step_api (api : string) (types types' : list Type_) (type : Element) :
  collect_type_step api types type = Ok types' →
  Forall (λ t, type_api t = None ∨ type_api t = Some api) types →
  Forall (λ t, type_api t = None ∨ type_api t = Some api) types'.
Proof.
  unfold collect_type_step, other_api. intros Hstep Htypes.
  destruct (attrib type !! "api") as [a|] eqn:Hapi.
  - destruct (str_eqb a api) eqn:Ha; simpl in Hstep; [|by simplify_eq].
    apply str_eqb_true in Ha as ->.
    destruct (attrib type !! "name"); simpl in Hstep.
    + simplify_eq. apply Forall_app. split; [done|]. apply Forall_singleton. by right.
    + destruct (find "name" type); simpl in Hstep; [|done].
      simplify_eq. apply Forall_app. split; [done|]. apply Forall_singleton. by right.
  - destruct (attrib type !! "name"); simpl in Hstep.
    + simplify_eq. apply Forall_app. split; [done|]. apply Forall_singleton. by left.
    + destruct (find "name" type); simpl in Hstep; [|done].
      simplify_eq. apply Forall_app. split; [done|]. apply Forall_singleton. by left.
Qed.

Lemma collect_types_api (root : Element) (api : string) (types : list Type_) :
  collect_types root api = Ok types →
  Forall (λ t, type_api t = None ∨ type_api t = Some api) types.
Proof.
  unfold collect_types. generalize (findall ["types"; "type"] root).
  assert (Forall (λ t, type_api t = None ∨ type_api t = Some api) []) as Hacc
    by constructor.
  revert Hacc. generalize (@nil Type_). intros acc Hacc l. revert acc Hacc.
  induction l as [|e l IH]; intros acc Hacc Hrun; [by simplify_eq/=|].
  rewrite for_each_cons in Hrun.
  destruct (collect_type_step api acc e) as [acc'|] eqn:Hstep; [|done].
  rewrite bind_Ok in Hrun. eapply IH; [|done]. by eapply collect_type_step_api.
Qed.

Definition type_element (attrs : list (string * string)) (definition : string) : Element :=
  mkElement "type" (list_to_map attrs) (Some definition) None [].

Definition registry (c : list Element) : Element := node "registry" [] c.

(** An api-agnostic [T] followed by a [T] for another api than the one
    requested. *)
Definition other_api_root : Element :=
  registry [node "types" []
    [type_element [("name", "T")] "typedef int T;";
     type_element [("name", "T"); ("api", "gles2")] "typedef long T;"]].

(** An api-agnostic [T] followed by two [T] for the requested api. *)
Definition twice_specialized_root : Element :=
  registry [node "types" []
    [type_element [("name", "T")] "typedef int T;";
     type_element [("name", "T"); ("api", "gl")] "typedef long T;";
     type_element [("name", "T"); ("api", "gl")] "typedef short T;"]].

(** C5, as stated, fails: a specialization for another api than the
    requested one is not read, and the api-agnostic definition stays. *)
Lemma parse_xml_types_not_one_specific :
  parse_xml_types other_api_root "gl"
  = Ok [mkType None (Some "T") "typedef int T;" None]
  ∧ parse_xml_types other_api_root "gl"
    ≠ Ok [mkType (Some "gles2") (Some "T") "typedef long T;" None].
Proof. split; [by vm_compute|]. vm_compute. discriminate. Qed.

(** Two specializations of one name for the requested api both stay,
    although the comment of the second loop speaks of unique names. *)
Example parse_xml_types_two_specializations :
  parse_xml_types twice_specialized_root "gl"
  = Ok [mkType (Some "gl") (Some "T") "typedef long T;" None;
        mkType (Some "gl") (Some "T") "typedef short T;" None].
Proof. by vm_compute. Qed.

Lemma keep_most_specific_only (types : list Type_) (t : Type_) :
  filter (λ u, type_name u = type_name t) types = [t] → t ∈ keep_most_specific types.
Proof.
  intros Honly.
  assert (t ∈ filter (λ u, type_name u = type_name t) (keep_most_specific types)) as Ht.
  { rewrite keep_most_specific_filter, Honly. simpl. rewrite andb_false_r. by left. }
  by apply list_elem_of_filter in Ht as [_ Ht].
Qed.

(** C5, amended: [parse_xml_types] reads the types without an [api]
    attribute and those whose [api] is the requested one, and returns some of
    them in their declaration order.  An entry whose name no other entry has
    stays.  When a name [T] is declared exactly twice among the types read,
    first api-agnostic and later for the requested api, the result has
    exactly one entry named [T], the api-specific one. *)
Theorem parse_xml_types_specialization
    (root : Element) (api : string) (types : list Type_) :
  collect_types root api = Ok types →
  ∃ resolved : list Type_,
    parse_xml_types root api = Ok resolved
    ∧ Forall (λ t, type_api t = None ∨ type_api t = Some api) types
    ∧ resolved `sublist_of` types
    ∧ (∀ t, filter (λ u, type_name u = type_name t) types = [t] → t ∈ resolved)
    ∧ (∀ (l1 l2 l3 : list Type_) (a s : Type_),
         types = l1 ++ a :: l2 ++ s :: l3 →
         type_name a = type_name s →
         truthy (type_api a) = false → truthy (type_api s) = true →
         Forall (λ t, type_name t ≠ type_name s) (l1 ++ l2 ++ l3) →
         filter (λ t, type_name t = type_name s) resolved = [s]).
Proof.
  intros Hcollect. exists (keep_most_specific types). split.
  { unfold parse_xml_types. by rewrite Hcollect, bind_Ok, unique_types_keep. }
  split; [by eapply collect_types_api|].
  split; [apply keep_most_specific_sublist|].
  split; [apply keep_most_specific_only|].
  intros l1 l2 l3 a s -> Hname Ha Hs Hothers.
  apply Forall_app in Hothers as [H1 [H2 H3]%Forall_app].
  rewrite keep_most_specific_filter.
  rewrite filter_app, filter_cons, decide_True by done.
  rewrite filter_app, filter_cons, decide_True by done.
  rewrite !filter_none_named by done. simpl.
  rewrite Ha, Hs, Hname. simpl. by rewrite bool_decide_eq_true_2.
Qed.

(** An api-agnostic [T] followed by a [T] for the requested api. *)
Definition specialized_root : Element :=
  registry [node "types" []
    [type_element [("name", "T")] "typedef int T;";
     type_element [("name", "U")] "typedef char U;";
     type_element [("name", "T"); ("api", "gl")] "typedef long T;"]].

Lemma parse_xml_types_specialization_witness :
  ∃ resolved : list Type_,
    parse_xml_types specialized_root "gl" = Ok resolved
    ∧ filter (λ t, type_name t = Some "T") resolved
      = [mkType (Some "gl") (Some "T") "typedef long T;" None]
    ∧ mkType None (Some "U") "typedef char U;" None ∈ resolved.
Proof.
  destruct (parse_xml_types_specialization specialized_root "gl"
    [mkType None (Some "T") "typedef int T;" None;
     mkType None (Some "U") "typedef char U;" None;
     mkType (Some "gl") (Some "T") "typedef long T;" None])
    as (resolved & Hresolved & _ & _ & Honly & Htwice); [by vm_compute|].
  exists resolved. split; [done|]. split.
  - apply (Htwice [] [mkType None (Some "U") "typedef char U;" None] []
             (mkType None (Some "T") "typedef int T;" None)
             (mkType (Some "gl") (Some "T") "typedef long T;" None)); try done.
    apply Forall_singleton. done.
  - apply Honly. by vm_compute.
Defined.

(** ** Feature subsets *)

Section Features.
Variables (api profile : string).

(** The sections of a feature that are not left out for their profile. *)
Definition active (feature : Element) : list Element :=
  filter (λ a, other_profile api profile a = false) (children feature).

(** The names of one kind that the [require] sections of a feature list. *)
Definition required_names (kind : string) (feature : Element) : list string :=
  flat_map (λ a, extract_names a [kind])
    (filter (λ a, tag a = "require") (active feature)).

(** The [remove] sections of a feature. *)
Definition removals (feature : Element) : list Element :=
  filter (λ a, tag a = "remove") (active feature).

(** The subset that a feature appends. *)
Definition own_subset (feature : Element) : APISubset :=
  mkAPISubset (str_drop 3 (default "" (attrib feature !! "name")))
    (required_names "type" feature) (required_names "enum" feature)
    (required_names "command" feature).

(** [remove] sections applied, in their order, to a list of subsets. *)
Definition apply_removals (sections : list Element) (subsets : list APISubset)
    : list APISubset :=
  foldl (λ subsets a, map (remove_from a) subsets) subsets sections.

(** The reading of the specification: each feature gives the subset of its
    own [require] sections, from which the [remove] sections of the features
    that follow it are subtracted. *)
Fixpoint feature_subsets (features : list Element) : list APISubset :=
  match features with
  | [] => []
  | f :: rest =>
      apply_removals (flat_map removals rest) [own_subset f] ++ feature_subsets rest
  end.

(** The features that the version test lets through. *)
Definition selected (int_version : Z) (feature : Element) : bool :=
  match feature_level feature with
  | Ok level => negb (bool_decide (level > int_version))
  | Raise _ => false
  end.

Lemma apply_removals_app_l (r1 r2 : list Element) (subsets : list APISubset) :
  apply_removals (r1 ++ r2) subsets = apply_removals r2 (apply_removals r1 subsets).
Proof. apply foldl_app. Qed.

Lemma apply_removals_app_r (rs : list Element) (s1 s2 : list APISubset) :
  apply_removals rs (s1 ++ s2) = apply_removals rs s1 ++ apply_removals rs s2.
Proof.
  revert s1 s2. induction rs as [|a rs IH]; intros s1 s2; [done|].
  simpl. by rewrite map_app, IH.
Qed.

Lemma action_step_other (st : feature_state) (a : Element) :
  other_profile api profile a = true → action_step api profile st a = st.
Proof. intros H. unfold action_step. by rewrite H. Qed.

Lemma action_step_require (st : feature_state) (a : Element) :
  other_profile api profile a = false → tag a = "require" →
  action_step api profile st a
  = mkFeatureState (typeList st ++ extract_names a ["type"])
      (enumList st ++ extract_names a ["enum"])
      (commandList st ++ extract_names a ["command"]) (subsets_so_far st).
Proof. intros H Ht. unfold action_step. by rewrite H, Ht. Qed.

Lemma action_step_remove (st : feature_state) (a : Element) :
  other_profile api profile a = false → tag a = "remove" →
  action_step api profile st a
  = mkFeatureState (typeList st) (enumList st) (commandList st)
      (map (remove_from a) (subsets_so_far st)).
Proof. intros H Ht. unfold action_step. by rewrite H, Ht. Qed.

Lemma action_step_neither (st : feature_state) (a : Element) :
  tag a ≠ "require" → tag a ≠ "remove" → action_step api profile st a = st.
Proof.
  intros H1%str_eqb_false H2%str_eqb_false. unfold action_step. rewrite H1, H2.
  by destruct (other_profile api profile a).
Qed.

Lemma action_steps (st : feature_state) (feature : Element) :
  foldl (action_step api profile) st (children feature)
  = mkFeatureState (typeList st ++ required_names "type" feature)
      (enumList st ++ required_names "enum" feature)
      (commandList st ++ required_names "command" feature)
      (apply_removals (removals feature) (subsets_so_far st)).
Proof.
  unfold required_names, removals, active. revert st.
  induction (children feature) as [|a sections IH]; intros st.
  { simpl. rewrite !app_nil_r. by destruct st. }
  simpl foldl. rewrite IH. rewrite (filter_cons _ a sections).
  destruct (other_profile api profile a) eqn:Hother.
  { rewrite action_step_other, decide_False by done. done. }
  rewrite decide_True by done. rewrite !(filter_cons _ a).
  destruct (decide (tag a = "require")) as [Hreq|Hreq].
  - rewrite action_step_require by done. rewrite decide_False by (rewrite Hreq; done).
    simpl. by rewrite !app_assoc.
  - destruct (decide (tag a = "remove")) as [Hrem|Hrem].
    + by rewrite action_step_remove.
    + by rewrite action_step_neither.
Qed.

Lemma feature_step_skipped (int_version : Z) (subsets : list APISubset) (f : Element) :
  is_ok (feature_level f) → selected int_version f = false →
  feature_step int_version api profile subsets f = Ok subsets.
Proof.
  unfold selected, feature_step. intros Hok Hsel.
  destruct (feature_level f) as [level|]; [|done]. rewrite bind_Ok.
  apply negb_false_iff in Hsel. by rewrite Hsel.
Qed.

Lemma feature_step_selected (int_version : Z) (subsets : list APISubset) (f : Element) :
  is_Some (attrib f !! "name") → selected int_version f = true →
  feature_step int_version api profile subsets f
  = Ok (apply_removals (removals f) subsets ++ [own_subset f]).
Proof.
  unfold selected, feature_step. intros [name Hname] Hsel.
  destruct (feature_level f) as [level|]; [|done]. rewrite bind_Ok.
  apply negb_true_iff in Hsel. rewrite Hsel.
  unfold attr, getitem. rewrite Hname, bind_Ok, action_steps. simpl.
  unfold own_subset. by rewrite Hname.
Qed.

Lemma feature_steps (int_version : Z) (subsets : list APISubset) (features : list Element) :
  Forall (λ f, is_Some (attrib f !! "name") ∧ is_ok (feature_level f)) features →
  for_each (feature_step int_version api profile) subsets features
  = Ok (apply_removals (flat_map removals (filter (λ f, selected int_version f) features))
          subsets
        ++ feature_subsets (filter (λ f, selected int_version f) features)).
Proof.
  intros Hall. revert subsets.
  induction Hall as [|f features [Hname Hlevel] _ IH]; intros subsets.
  { simpl. by rewrite app_nil_r. }
  rewrite for_each_cons, filter_cons.
  destruct (selected int_version f) eqn:Hsel.
  - rewrite feature_step_selected, bind_Ok, IH by done. simpl.
    by rewrite apply_removals_app_l, apply_removals_app_r, <- app_assoc.
  - by rewrite feature_step_skipped, bind_Ok, IH by done.
Qed.
End Features.

(** [remove] sections applied, in their order, to one subset. *)
Definition remove_all (sections : list Element) (subset : APISubset) : APISubset :=
  foldl (λ subset a, remove_from a subset) subset sections.

(** The names of one kind that a list of [remove] sections lists. *)
Definition removed_names (kind : string) (sections : list Element) : list string :=
  flat_map (λ a, extract_names a [kind]) sections.

Lemma without_nil (entries : list string) : without [] entries = entries.
Proof.
  unfold without. induction entries as [|x l IH]; [done|].
  rewrite filter_cons, decide_True by set_solver. by rewrite IH.
Qed.

Lemma without_without (n1 n2 entries : list string) :
  without n2 (without n1 entries) = without (n1 ++ n2) entries.
Proof.
  unfold without. rewrite list_filter_filter. apply list_filter_iff.
  intros x. rewrite list_to_set_app. set_solver.
Qed.

Lemma elem_of_without (names entries : list string) (x : string) :
  x ∈ without names entries ↔ x ∈ entries ∧ x ∉ names.
Proof. unfold without. rewrite list_elem_of_filter. set_solver. Qed.

Lemma remove_all_eq (sections : list Element) (subset : APISubset) :
  remove_all sections subset
  = mkAPISubset (subset_name subset)
      (without (removed_names "type" sections) (subset_types subset))
      (without (removed_names "enum" sections) (subset_enums subset))
      (without (removed_names "command" sections) (subset_commands subset)).
Proof.
  revert subset. induction sections as [|a rs IH]; intros subset.
  { unfold removed_names. simpl. rewrite !without_nil. by destruct subset. }
  change (remove_all (a :: rs) subset) with (remove_all rs (remove_from a subset)).
  rewrite IH. unfold remove_from, removed_names. simpl. by rewrite !without_without.
Qed.

Lemma apply_removals_nil (sections : list Element) :
  apply_removals sections [] = [].
Proof. induction sections as [|a rs IH]; [done|]. exact IH. Qed.

Lemma apply_removals_singleton (sections : list Element) (subset : APISubset) :
  apply_removals sections [subset] = [remove_all sections subset].
Proof.
  revert subset. induction sections as [|a rs IH]; intros subset; [done|].
  exact (IH (remove_from a subset)).
Qed.

Lemma feature_subsets_lookup (api profile : string) (fs : list Element) (i : nat)
    (f : Element) :
  fs !! i = Some f →
  feature_subsets api profile fs !! i
  = Some (remove_all (flat_map (removals api profile) (drop (S i) fs))
            (own_subset api profile f)).
Proof.
  revert i. induction fs as [|g fs IH]; intros i Hi; [done|].
  simpl feature_subsets. rewrite apply_removals_singleton.
  destruct i as [|i]; simpl in *.
  - simplify_eq. by rewrite drop_0.
  - by apply IH.
Qed.

Lemma features_of_named (root : Element) (api : string) :
  Forall (λ f, is_Some (attrib f !! "name")) (features_of root api).
Proof.
  apply Forall_forall. intros f Hf. unfold features_of in Hf.
  apply list_elem_of_filter in Hf as [Hf _].
  apply Is_true_true in Hf. apply andb_true_iff in Hf as [Hf _].
  apply andb_true_iff in Hf as [_ Hf]. unfold has_attr in Hf.
  by apply bool_decide_eq_true in Hf.
Qed.

Lemma parse_xml_features_subsets (root : Element) (int_version : Z) (api profile : string) :
  Forall (λ f, is_ok (feature_level f)) (features_of root api) →
  parse_xml_features root int_version api profile
  = Ok (feature_subsets api profile
          (filter (λ f, selected int_version f) (features_of root api))).
Proof.
  intros Hlevels. unfold parse_xml_features. rewrite feature_steps.
  - by rewrite apply_removals_nil.
  - pose proof (features_of_named root api) as Hnamed.
    rewrite Forall_forall in *. naive_solver.
Qed.

Definition feature (name number : string) (sections : list Element) : Element :=
  node "feature" [("api", "gl"); ("name", name); ("number", number)] sections.

(** One feature that requires [A], [B], [C] and then removes [B]. *)
Definition require_remove_root : Element :=
  registry
    [feature "GL_VERSION_1_0" "1.0"
       [node "require" [] [named "type" "A"; named "type" "B"; named "type" "C"];
        node "remove" [] [named "type" "B"]]].

(** C1, as stated, fails: the [remove] section of a feature does not touch
    the names that the feature itself requires. *)
Lemma parse_xml_features_keeps_own :
  parse_xml_features require_remove_root 33 "gl" "core"
  = Ok [mkAPISubset "VERSION_1_0" ["A"; "B"; "C"] [] []]
  ∧ parse_xml_features require_remove_root 33 "gl" "core"
    ≠ Ok [mkAPISubset "VERSION_1_0" ["A"; "C"] [] []].
Proof. split; [by vm_compute|]. vm_compute. discriminate. Qed.

(** C1, amended: when the number of every feature of the api can be read,
    the subset of a feature that passes the version test lists all the names
    of the feature's own [require] sections, in their order, whatever the
    feature's own [remove] sections list; only the [remove] sections of the
    features that come after it take names away from it.  A feature that
    requires [A], [B], [C] and then removes [B] gives, when no later feature
    removes from it, the type list [A], [B], [C]. *)
Theorem parse_xml_features_own_requires
    (root : Element) (int_version : Z) (api profile : string) :
  Forall (λ f, is_ok (feature_level f)) (features_of root api) →
  ∃ produced : list APISubset,
    parse_xml_features root int_version api profile = Ok produced
    ∧ ∀ (i : nat) (f : Element),
        filter (λ f, selected int_version f) (features_of root api) !! i = Some f →
        ∃ later : list Element,
          later = flat_map (removals api profile)
                    (drop (S i) (filter (λ f, selected int_version f) (features_of root api)))
          ∧ produced !! i
            = Some (mkAPISubset (subset_name (own_subset api profile f))
                      (without (removed_names "type" later)
                         (required_names api profile "type" f))
                      (without (removed_names "enum" later)
                         (required_names api profile "enum" f))
                      (without (removed_names "command" later)
                         (required_names api profile "command" f)))
          ∧ (later = [] → produced !! i = Some (own_subset api profile f))
          ∧ ∀ req rem : Element,
              children f = [req; rem] →
              tag req = "require" → other_profile api profile req = false →
              tag rem = "remove" →
              subset_types (own_subset api profile f) = extract_names req ["type"].
Proof.
  intros Hlevels. eexists. split; [by apply parse_xml_features_subsets|].
  intros i f Hi. eexists. split; [done|].
  rewrite (feature_subsets_lookup _ _ _ _ _ Hi), remove_all_eq.
  split; [done|]. split.
  - intros ->. f_equal. unfold removed_names. simpl. rewrite !without_nil.
    reflexivity.
  - intros req rem Hch Hreq Hactive Hrem. simpl.
    unfold required_names, active. rewrite Hch.
    rewrite filter_cons, decide_True by done.
    rewrite (filter_cons _ req), decide_True by done. simpl.
    destruct (decide (other_profile api profile rem = false)).
    + rewrite filter_cons, decide_True by done.
      rewrite (filter_cons _ rem), decide_False by (rewrite Hrem; done).
      simpl. by rewrite app_nil_r.
    + rewrite filter_cons, decide_False by done. simpl. by rewrite app_nil_r.
Qed.

Lemma parse_xml_features_own_requires_witness :
  ∃ produced : list APISubset,
    parse_xml_features require_remove_root 33 "gl" "core" = Ok produced.
Proof.
  destruct (parse_xml_features_own_requires require_remove_root 33 "gl" "core")
    as (produced & Hproduced & _).
  - apply (bool_decide_unpack _). vm_compute. exact I.
  - by exists produced.
Defined.

Definition requires_A : Element :=
  feature "GL_VERSION_1_0" "1.0" [node "require" [] [named "type" "A"]].

Definition removes_A : Element :=
  feature "GL_VERSION_1_1" "1.1" [node "remove" [] [named "type" "A"]].

Definition requires_A_then_B : Element :=
  feature "GL_VERSION_1_0" "1.0"
    [node "require" [] [named "type" "A"]; node "require" [] [named "type" "B"]].

Definition requires_B_then_A : Element :=
  feature "GL_VERSION_1_0" "1.0"
    [node "require" [] [named "type" "B"]; node "require" [] [named "type" "A"]].

Example parse_xml_features_across :
  parse_xml_features (registry [requires_A; removes_A]) 33 "gl" "core"
  = Ok [mkAPISubset "VERSION_1_0" [] [] []; mkAPISubset "VERSION_1_1" [] [] []]
  ∧ parse_xml_features (registry [removes_A; requires_A]) 33 "gl" "core"
    = Ok [mkAPISubset "VERSION_1_1" [] [] []; mkAPISubset "VERSION_1_0" ["A"] [] []].
Proof. split; by vm_compute. Qed.

Example parse_xml_features_within :
  parse_xml_features (registry [requires_A_then_B]) 33 "gl" "core"
  = Ok [mkAPISubset "VERSION_1_0" ["A"; "B"] [] []]
  ∧ parse_xml_features (registry [requires_B_then_A]) 33 "gl" "core"
    = Ok [mkAPISubset "VERSION_1_0" ["B"; "A"] [] []].
Proof. split; by vm_compute. Qed.

(** The place of a [remove] section among the sections of its own feature
    makes no difference. *)
Example parse_xml_features_remove_first :
  parse_xml_features
    (registry
       [feature "GL_VERSION_1_0" "1.0"
          [node "remove" [] [named "type" "B"];
           node "require" [] [named "type" "A"; named "type" "B"; named "type" "C"]]])
    33 "gl" "core"
  = parse_xml_features require_remove_root 33 "gl" "core".
Proof. by vm_compute. Qed.

Lemma other_profile_matching (api profile : string) (a : Element) :
  attrib a !! "profile" = None ∨ attrib a !! "profile" = Some profile →
  other_profile api profile a = false.
Proof.
  unfold other_profile. intros [->| ->]; [by rewrite andb_false_r|].
  assert (str_eqb profile profile = true) as -> by by apply str_eqb_true.
  by rewrite andb_false_r.
Qed.

Lemma filter_swap {A} (P Q : A → Prop) `{!∀ x, Decision (P x)} `{!∀ x, Decision (Q x)}
    (l : list A) :
  filter P (filter Q l) = filter Q (filter P l).
Proof. rewrite !list_filter_filter. apply list_filter_iff. naive_solver. Qed.

Lemma for_each_Forall2 {A S} (R : A → A → Prop) (body : S → A → res S)
    (l1 l2 : list A) :
  (∀ acc x y, R x y → body acc x = body acc y) →
  Forall2 R l1 l2 → ∀ acc, for_each body acc l1 = for_each body acc l2.
Proof.
  intros Hbody. induction 1 as [|x y l1 l2 Hxy _ IH]; intros acc; [done|].
  rewrite !for_each_cons, (Hbody acc x y Hxy).
  destruct (body acc y) as [acc'|]; [|done]. rewrite !bind_Ok. apply IH.
Qed.

(** Two features with the same attributes, the same [require] sections in
    the same order and the same [remove] sections in the same order; how the
    two kinds are interleaved, and sections of other kinds, are left open. *)
Definition same_sections (f g : Element) : Prop :=
  attrib f = attrib g
  ∧ filter (λ a, tag a = "require") (children f)
    = filter (λ a, tag a = "require") (children g)
  ∧ filter (λ a, tag a = "remove") (children f)
    = filter (λ a, tag a = "remove") (children g).

Lemma feature_step_same_sections (int_version : Z) (api profile : string)
    (subsets : list APISubset) (f g : Element) :
  same_sections f g →
  feature_step int_version api profile subsets f
  = feature_step int_version api profile subsets g.
Proof.
  intros (Hattr & Hreq & Hrem). unfold feature_step, feature_level, attr.
  rewrite !action_steps. unfold required_names, removals, active.
  rewrite !(filter_swap (λ a, tag a = "require")), !(filter_swap (λ a, tag a = "remove")).
  by rewrite Hattr, Hreq, Hrem.
Qed.

(** A feature that requires [A] and [Z], and a later feature that requires
    [A] and removes [A] and [Z], with its two sections in either order. *)
Definition requires_A_Z : Element :=
  feature "GL_VERSION_1_0" "1.0" [node "require" [] [named "type" "A"; named "type" "Z"]].

Definition require_then_remove : Element :=
  feature "GL_VERSION_1_1" "1.1"
    [node "require" [] [named "type" "A"];
     node "remove" [] [named "type" "A"; named "type" "Z"]].

Definition remove_then_require : Element :=
  feature "GL_VERSION_1_1" "1.1"
    [node "remove" [] [named "type" "A"; named "type" "Z"];
     node "require" [] [named "type" "A"]].

(** C2, as stated, fails: where a [remove] section stands among the
    sections of its feature makes no difference to the result. *)
Lemma parse_xml_features_remove_place :
  parse_xml_features (registry [requires_A_Z; require_then_remove]) 33 "gl" "core"
  = Ok [mkAPISubset "VERSION_1_0" [] [] []; mkAPISubset "VERSION_1_1" ["A"] [] []]
  ∧ parse_xml_features (registry [requires_A_Z; remove_then_require]) 33 "gl" "core"
    = Ok [mkAPISubset "VERSION_1_0" [] [] []; mkAPISubset "VERSION_1_1" ["A"] [] []].
Proof. split; by vm_compute. Qed.

(** C2, amended: a [remove] section without a [profile] attribute, or with
    the requested profile, turns every subset accumulated so far, that is
    the subsets of the features read before its own, into the subset without
    the type, enum and command names that the section lists, and leaves the
    lists of the feature being read as they are.  When the number of every
    feature of the api can be read, the subset that [parse_xml_features]
    returns for a feature holds exactly the names that the feature requires
    and that no [remove] section of a later feature lists.  So the order of
    the features counts: a feature that removes [A] empties an earlier
    subset of [A] and leaves a later one alone.  Within a feature the place of
    a [remove] section does not count: two documents whose features have
    the same [require] sections and the same [remove] sections, each kind in
    the same order, give the same result. *)
Theorem parse_xml_features_retroactive_removals :
  (∀ (api profile : string) (st : feature_state) (a : Element),
     tag a = "remove" →
     attrib a !! "profile" = None ∨ attrib a !! "profile" = Some profile →
     action_step api profile st a
     = mkFeatureState (typeList st) (enumList st) (commandList st)
         (map (remove_from a) (subsets_so_far st))
     ∧ ∀ subset, subset ∈ subsets_so_far st →
         subset_types (remove_from a subset)
         = without (extract_names a ["type"]) (subset_types subset)
         ∧ subset_enums (remove_from a subset)
           = without (extract_names a ["enum"]) (subset_enums subset)
         ∧ subset_commands (remove_from a subset)
           = without (extract_names a ["command"]) (subset_commands subset))
  ∧ (∀ (root : Element) (int_version : Z) (api profile : string),
       Forall (λ f, is_ok (feature_level f)) (features_of root api) →
       ∃ produced : list APISubset,
         parse_xml_features root int_version api profile = Ok produced
         ∧ ∀ (i j : nat) (f g a : Element),
             (i < j)%nat →
             filter (λ f, selected int_version f) (features_of root api) !! i = Some f →
             filter (λ f, selected int_version f) (features_of root api) !! j = Some g →
             a ∈ children g → tag a = "remove" →
             attrib a !! "profile" = None ∨ attrib a !! "profile" = Some profile →
             ∃ subset : APISubset,
               produced !! i = Some subset
               ∧ (∀ x, x ∈ extract_names a ["type"] → x ∉ subset_types subset)
               ∧ (∀ x, x ∈ extract_names a ["enum"] → x ∉ subset_enums subset)
               ∧ (∀ x, x ∈ extract_names a ["command"] → x ∉ subset_commands subset))
  ∧ (∀ (root : Element) (int_version : Z) (api profile : string),
       Forall (λ f, is_ok (feature_level f)) (features_of root api) →
       ∃ produced : list APISubset,
         parse_xml_features root int_version api profile = Ok produced
         ∧ ∀ (i : nat) (f : Element),
             filter (λ f, selected int_version f) (features_of root api) !! i = Some f →
             ∃ (subset : APISubset) (later : list Element),
               produced !! i = Some subset
               ∧ later = flat_map (removals api profile)
                           (drop (S i)
                              (filter (λ f, selected int_version f) (features_of root api)))
               ∧ (∀ x, x ∈ subset_types subset
                       ↔ x ∈ required_names api profile "type" f
                         ∧ x ∉ removed_names "type" later)
               ∧ (∀ x, x ∈ subset_enums subset
                       ↔ x ∈ required_names api profile "enum" f
                         ∧ x ∉ removed_names "enum" later)
               ∧ (∀ x, x ∈ subset_commands subset
                       ↔ x ∈ required_names api profile "command" f
                         ∧ x ∉ removed_names "command" later))
  ∧ (parse_xml_features (registry [requires_A; removes_A]) 33 "gl" "core"
     = Ok [mkAPISubset "VERSION_1_0" [] [] []; mkAPISubset "VERSION_1_1" [] [] []]
     ∧ parse_xml_features (registry [removes_A; requires_A]) 33 "gl" "core"
       = Ok [mkAPISubset "VERSION_1_1" [] [] []; mkAPISubset "VERSION_1_0" ["A"] [] []])
  ∧ (∀ (root1 root2 : Element) (int_version : Z) (api profile : string),
       Forall2 same_sections (features_of root1 api) (features_of root2 api) →
       parse_xml_features root1 int_version api profile
       = parse_xml_features root2 int_version api profile).
Proof.
  split; [|split; [|split; [|split]]].
  - intros api profile st a Hrem Hprofile. split; [|done].
    apply action_step_remove; [|done]. by apply other_profile_matching.
  - intros root int_version api profile Hlevels.
    eexists. split; [by apply parse_xml_features_subsets|].
    intros i j f g a Hlt Hi Hj Ha Hrem Hprofile.
    eexists. split; [by apply feature_subsets_lookup|].
    rewrite remove_all_eq. simpl.
    assert (a ∈ flat_map (removals api profile)
                  (drop (S i) (filter (λ f, selected int_version f) (features_of root api))))
      as Hlater.
    { apply list_elem_of_In, in_flat_map. exists g. split.
      - apply list_elem_of_In, list_elem_of_lookup. exists (j - S i)%nat.
        rewrite lookup_drop. by replace (S i + (j - S i))%nat with j by lia.
      - apply list_elem_of_In. unfold removals, active.
        rewrite !list_elem_of_filter. split; [done|]. split; [|done].
        by apply other_profile_matching. }
    assert (∀ kind x, x ∈ extract_names a [kind] →
              x ∈ removed_names kind
                    (flat_map (removals api profile)
                       (drop (S i)
                          (filter (λ f, selected int_version f) (features_of root api)))))
      as Hremoved.
    { intros kind x Hx. apply list_elem_of_In, in_flat_map. exists a.
      split; by apply list_elem_of_In. }
    repeat split; intros x Hx [_ Hnot]%elem_of_without; apply Hnot; by apply Hremoved.
  - intros root int_version api profile Hlevels.
    eexists. split; [by apply parse_xml_features_subsets|].
    intros i f Hi. eexists _, _. split; [by apply feature_subsets_lookup|].
    split; [done|]. rewrite remove_all_eq. simpl.
    split; [|split]; intros x; apply elem_of_without.
  - split; by vm_compute.
  - intros root1 root2 int_version api profile Hsame. unfold parse_xml_features.
    apply (for_each_Forall2 same_sections); [|done].
    intros acc f g. apply feature_step_same_sections.
Qed.

Lemma parse_xml_features_retroactive_removals_witness :
  (∃ produced : list APISubset,
     parse_xml_features (registry [requires_A; removes_A]) 33 "gl" "core" = Ok produced
     ∧ ∃ subset : APISubset, produced !! 0%nat = Some subset ∧ "A" ∉ subset_types subset)
  ∧ parse_xml_features (registry [requires_A_Z; require_then_remove]) 33 "gl" "core"
    = parse_xml_features (registry [requires_A_Z; remove_then_require]) 33 "gl" "core".
Proof.
  destruct parse_xml_features_retroactive_removals as (_ & Hretro & _ & _ & Hplace).
  split.
  - destruct (Hretro (registry [requires_A; removes_A]) 33 "gl" "core")
      as (produced & Hproduced & Hremoved).
    { apply (bool_decide_unpack _). vm_compute. exact I. }
    exists produced. split; [done|].
    destruct (Hremoved 0%nat 1%nat requires_A removes_A
                (node "remove" [] [named "type" "A"]))
      as (subset & Hsubset & Htypes & _).
    + lia.
    + by vm_compute.
    + by vm_compute.
    + by left.
    + done.
    + by left.
    + exists subset. split; [done|]. apply Htypes. by left.
  - apply Hplace.
    change (features_of (registry [requires_A_Z; require_then_remove]) "gl")
      with [requires_A_Z; require_then_remove].
    change (features_of (registry [requires_A_Z; remove_then_require]) "gl")
      with [requires_A_Z; remove_then_require].
    repeat constructor.
Defined.

(** ** Extension subsets *)

(** The subset of a requested extension, when the specification has it. *)
Definition extension_subset (root : Element) (name : string) : option APISubset :=
  extension ← find_extension root name;
  Some (mkAPISubset name
          (extract_names extension ["require"; "type"])
          (extract_names extension ["require"; "enum"])
          (extract_names extension ["require"; "command"])).

(** The requests that the specification has, and those it has not. *)
Definition known_extensions (root : Element) (extensions : list (string * bool))
    : list (string * bool) :=
  filter (λ request, is_Some (find_extension root request.1)) extensions.

Definition unknown_extensions (root : Element) (extensions : list (string * bool))
    : list (string * bool) :=
  filter (λ request, find_extension root request.1 = None) extensions.

Lemma extension_subset_known (root : Element) (name : string) (extension : Element) :
  find_extension root name = Some extension →
  extension_subset root name
  = Some (mkAPISubset name
            (extract_names extension ["require"; "type"])
            (extract_names extension ["require"; "enum"])
            (extract_names extension ["require"; "command"])).
Proof. intros H. unfold extension_subset. by rewrite H. Qed.

Lemma extension_subset_unknown (root : Element) (name : string) :
  find_extension root name = None → extension_subset root name = None.
Proof. intros H. unfold extension_subset. by rewrite H. Qed.

Lemma extension_step_known (root : Element) (printed : list string)
    (subsets : list APISubset) (name : string) (required : bool) (subset : APISubset) :
  extension_subset root name = Some subset →
  extension_step root (printed, subsets) (name, required) = (printed, subsets ++ [subset]).
Proof.
  unfold extension_subset, extension_step.
  destruct (find_extension root name); simpl; [|done]. by intros [= <-].
Qed.

Lemma extension_step_unknown (root : Element) (printed : list string)
    (subsets : list APISubset) (name : string) (required : bool) :
  extension_subset root name = None →
  extension_step root (printed, subsets) (name, required)
  = (printed ++ [name +:+ " is not an extension"], subsets).
Proof.
  unfold extension_subset, extension_step.
  by destruct (find_extension root name).
Qed.

Lemma extension_subset_is_Some (root : Element) (name : string) :
  is_Some (extension_subset root name) ↔ is_Some (find_extension root name).
Proof. unfold extension_subset. destruct (find_extension root name); by rewrite ?is_Some_alt. Qed.

Lemma extension_steps (root : Element) (printed : list string) (subsets : list APISubset)
    (extensions : list (string * bool)) :
  foldl (extension_step root) (printed, subsets) extensions
  = (printed ++ map (λ request, request.1 +:+ " is not an extension")
                  (unknown_extensions root extensions),
     subsets ++ omap (λ request, extension_subset root request.1) extensions).
Proof.
  revert printed subsets.
  induction extensions as [|[name required] extensions IH]; intros printed subsets.
  { simpl. by rewrite !app_nil_r. }
  change (foldl (extension_step root) (printed, subsets) ((name, required) :: extensions))
    with (foldl (extension_step root)
            (extension_step root (printed, subsets) (name, required)) extensions).
  destruct (extension_subset root name) as [subset|] eqn:Hsubset.
  - rewrite (extension_step_known _ _ _ _ _ _ Hsubset), IH.
    assert (is_Some (find_extension root name)) as [e He]
      by (apply extension_subset_is_Some; eauto).
    unfold unknown_extensions. rewrite filter_cons. simpl.
    rewrite decide_False by congruence. by rewrite Hsubset, <- app_assoc.
  - rewrite (extension_step_unknown _ _ _ _ _ Hsubset), IH.
    assert (find_extension root name = None) as Hnone.
    { apply eq_None_not_Some. rewrite <- extension_subset_is_Some, Hsubset.
      by intros [? ?]. }
    unfold unknown_extensions. rewrite filter_cons. simpl.
    rewrite decide_True by done. simpl. by rewrite Hsubset, <- app_assoc.
Qed.

Lemma omap_extension_subset_known (root : Element) (extensions : list (string * bool)) :
  omap (λ request, extension_subset root request.1) (known_extensions root extensions)
  = omap (λ request, extension_subset root request.1) extensions.
Proof.
  unfold known_extensions.
  induction extensions as [|[name required] extensions IH]; [done|].
  rewrite filter_cons. simpl.
  destruct (extension_subset root name) as [subset|] eqn:Hsubset.
  - rewrite decide_True by (apply extension_subset_is_Some; eauto). simpl.
    rewrite Hsubset. f_equal. exact IH.
  - rewrite decide_False; [exact IH|].
    rewrite <- extension_subset_is_Some, Hsubset. by intros [? ?].
Qed.

Lemma unknown_of_known (root : Element) (extensions : list (string * bool)) :
  unknown_extensions root (known_extensions root extensions) = [].
Proof.
  unfold unknown_extensions, known_extensions. rewrite list_filter_filter.
  induction extensions as [|r extensions IH]; [done|].
  rewrite filter_cons. destruct (decide _) as [[Hnone [x Hx]]|_]; [congruence|done].
Qed.

Lemma map_subset_name_extensions (root : Element) (extensions : list (string * bool)) :
  map subset_name (omap (λ request, extension_subset root request.1) extensions)
  = map fst (known_extensions root extensions).
Proof.
  unfold known_extensions.
  induction extensions as [|[name required] extensions IH]; [done|].
  rewrite filter_cons. simpl.
  destruct (find_extension root name) as [extension|] eqn:Hfind.
  - rewrite (extension_subset_known _ _ _ Hfind). rewrite decide_True by done.
    simpl. f_equal. exact IH.
  - rewrite (extension_subset_unknown _ _ Hfind).
    rewrite decide_False by (by intros [? ?]). exact IH.
Qed.

Lemma parse_xml_same_subsets (root : Element) (version : Version)
    (e1 e2 : list (string * bool)) :
  (parse_xml_extensions root e1).2 = (parse_xml_extensions root e2).2 →
  (parse_xml root version e1).2 = (parse_xml root version e2).2.
Proof.
  intros Hsame. unfold parse_xml.
  destruct (_ ≫= _) as [[[[types enums] commands] subsetsGL]|]; [|done].
  destruct (parse_xml_extensions root e1) as [p1 s1].
  destruct (parse_xml_extensions root e2) as [p2 s2].
  simpl in *. by subst.
Qed.

(** C8: [parse_xml_extensions] always returns.  It prints one line, naming
    the extension, for each request that has no [GL_]-prefixed entry in the
    specification, in the order of the requests, and nothing else; it returns
    one subset for each other request, in the order of the requests, and none
    for a request without entry.  What [parse_xml] returns (passthru text,
    enum block, function groups) is what it returns when the requests without
    entry are not made at all. *)
Theorem parse_xml_extensions_unknown (root : Element) (extensions : list (string * bool)) :
  (parse_xml_extensions root extensions).1
  = map (λ request, request.1 +:+ " is not an extension")
      (unknown_extensions root extensions)
  ∧ (parse_xml_extensions root extensions).2
    = omap (λ request, extension_subset root request.1) extensions
  ∧ map subset_name (parse_xml_extensions root extensions).2
    = map fst (known_extensions root extensions)
  ∧ parse_xml_extensions root (known_extensions root extensions)
    = ([], (parse_xml_extensions root extensions).2)
  ∧ ∀ version : Version,
      (parse_xml root version extensions).2
      = (parse_xml root version (known_extensions root extensions)).2.
Proof.
  assert (parse_xml_extensions root extensions
          = (map (λ request, request.1 +:+ " is not an extension")
               (unknown_extensions root extensions),
             omap (λ request, extension_subset root request.1) extensions)) as Hall.
  { unfold parse_xml_extensions. by rewrite extension_steps. }
  assert (parse_xml_extensions root (known_extensions root extensions)
          = ([], omap (λ request, extension_subset root request.1) extensions)) as Hknown.
  { unfold parse_xml_extensions. rewrite extension_steps, unknown_of_known. simpl.
    by rewrite omap_extension_subset_known. }
  rewrite Hknown, Hall. simpl.
  split; [done|]. split; [done|].
  split; [apply map_subset_name_extensions|].
  split; [done|].
  intros version. apply parse_xml_same_subsets. by rewrite Hknown, Hall.
Qed.

(** ** Lookups of the output assembly *)

(** Every enum that a subset lists is a key of the enum mapping. *)
Definition enums_known (subsets : list APISubset) (enums : gmap string string) : Prop :=
  Forall (λ subset, Forall (λ X, is_Some (enums !! X)) (subset_enums subset)) subsets.

Lemma for_each_is_ok {A S} (body : S → A → res S) (P : A → Prop) (acc : S) (l : list A) :
  (∀ acc x, is_ok (body acc x) ↔ P x) →
  is_ok (for_each body acc l) ↔ Forall P l.
Proof.
  intros Hbody. revert acc. induction l as [|x l IH]; intros acc.
  { simpl. split; [constructor|done]. }
  rewrite for_each_cons, Forall_cons, <- (Hbody acc x).
  destruct (body acc x) as [acc'|e].
  - rewrite bind_Ok, IH. simpl. tauto.
  - simpl. tauto.
Qed.

Lemma enum_step_ok (enums : gmap string string) (enumsDecl enumName : string) :
  is_ok (enum_step enums enumsDecl enumName) ↔ is_Some (enums !! enumName).
Proof.
  unfold enum_step, getitem. destruct (enums !! enumName); simpl; [|by rewrite is_Some_alt].
  split; [eauto|done].
Qed.

Lemma subset_enum_step_ok (enums : gmap string string) (enumsDecl : string)
    (subset : APISubset) :
  is_ok (subset_enum_step enums enumsDecl subset)
  ↔ Forall (λ X, is_Some (enums !! X)) (subset_enums subset).
Proof.
  unfold subset_enum_step. case_bool_decide as Hne.
  - apply for_each_is_ok. intros. apply enum_step_ok.
  - rewrite Hne. split; [constructor|done].
Qed.

Lemma generate_enums_ok (subsets : list APISubset) (enums : gmap string string) :
  is_ok (generate_enums subsets enums) ↔ enums_known subsets enums.
Proof. apply for_each_is_ok. intros. apply subset_enum_step_ok. Qed.

Lemma function_steps_known (commands : gmap string Command) (names : list string)
    (acc acc' : list Function) (seen seen' : gset string) :
  for_each (function_step commands) (acc, seen) names = Ok (acc', seen') →
  (∀ X, X ∈ seen → is_Some (commands !! X)) →
  Forall (λ X, is_Some (commands !! X)) names
  ∧ ∀ X, X ∈ seen' → is_Some (commands !! X).
Proof.
  revert acc seen. induction names as [|n names IH]; intros acc seen Hrun Hseen.
  { simpl in Hrun. simplify_eq. split; [constructor|done]. }
  rewrite for_each_cons in Hrun.
  destruct (decide (n ∈ seen)) as [Hin|Hin].
  - rewrite function_step_seen, bind_Ok in Hrun by done.
    destruct (IH _ _ Hrun Hseen) as [Hnames Hseen']. split; [|done].
    constructor; [by apply Hseen|done].
  - destruct (commands !! n) as [c|] eqn:Hc.
    + rewrite (function_step_new _ _ _ _ c), bind_Ok in Hrun by done.
      destruct (IH _ _ Hrun) as [Hnames Hseen'].
      { intros X [->%elem_of_singleton|HX]%elem_of_union; [by rewrite Hc|by apply Hseen]. }
      split; [|done]. constructor; [by rewrite Hc|done].
    + unfold function_step, getitem in Hrun.
      rewrite bool_decide_eq_false_2, Hc in Hrun by done. done.
Qed.

Lemma subset_function_step_inv (commands : gmap string Command) (s : APISubset)
    (acc acc' : list (string * list Function)) (seen seen' : gset string) :
  subset_function_step commands (acc, seen) s = Ok (acc', seen') →
  ∃ fs, for_each (function_step commands) ([], seen) (subset_commands s) = Ok (fs, seen').
Proof.
  unfold subset_function_step.
  destruct (for_each (function_step commands) ([], seen) (subset_commands s))
    as [[fs seen'']|]; [|done].
  rewrite bind_Ok. intros [= _ <-]. by exists fs.
Qed.

Lemma subset_function_steps_known (commands : gmap string Command)
    (subsets : list APISubset) (acc : list (string * list Function)) (seen : gset string) :
  is_ok (for_each (subset_function_step commands) (acc, seen) subsets) →
  (∀ X, X ∈ seen → is_Some (commands !! X)) →
  commands_known subsets commands.
Proof.
  revert acc seen. induction subsets as [|s subsets IH]; intros acc seen Hok Hseen;
    [constructor|].
  rewrite for_each_cons in Hok.
  destruct (subset_function_step commands (acc, seen) s) as [[acc' seen']|] eqn:Hs;
    [|done].
  rewrite bind_Ok in Hok. apply subset_function_step_inv in Hs as [fs Hs].
  destruct (function_steps_known _ _ _ _ _ _ Hs Hseen) as [Hnames Hseen'].
  constructor; [done|]. by eapply IH.
Qed.

Lemma generate_functions_ok (subsets : list APISubset) (commands : gmap string Command) :
  is_ok (generate_functions subsets commands) ↔ commands_known subsets commands.
Proof.
  split.
  - intros Hok. apply (subset_function_steps_known commands subsets [] ∅); [|set_solver].
    unfold generate_functions in Hok.
    by destruct (for_each (subset_function_step commands) ([], ∅) subsets).
  - intros Hknown. by rewrite generate_functions_groups.
Qed.

Lemma for_each_raise {A S} (body : S → A → res S) (acc : S) (l : list A) (e : exn) :
  for_each body acc l = Raise e → ∃ acc' x, x ∈ l ∧ body acc' x = Raise e.
Proof.
  revert acc. induction l as [|x l IH]; intros acc Hrun; [done|].
  rewrite for_each_cons in Hrun. destruct (body acc x) as [acc'|e'] eqn:Hx.
  - rewrite bind_Ok in Hrun. destruct (IH _ Hrun) as (a & y & Hy & Hbody).
    exists a, y. split; [by right|done].
  - simpl in Hrun. simplify_eq. exists acc, x. split; [by left|done].
Qed.

Lemma generate_enums_raise (subsets : list APISubset) (enums : gmap string string)
    (e : exn) :
  generate_enums subsets enums = Raise e →
  ∃ subset key,
    subset ∈ subsets ∧ key ∈ subset_enums subset
    ∧ enums !! key = None ∧ e = KeyError key.
Proof.
  intros (decl & subset & Hsubset & Hstep)%for_each_raise.
  unfold subset_enum_step in Hstep. case_bool_decide; [|done].
  apply for_each_raise in Hstep as (decl' & key & Hkey & Hstep).
  exists subset, key. split; [done|]. split; [done|].
  unfold enum_step, getitem in Hstep.
  destruct (enums !! key); simpl in Hstep; [done|]. by simplify_eq.
Qed.

(** A feature that requires an enum for which the specification has no
    value. *)
Definition missing_enum_root : Element :=
  registry
    [feature "GL_VERSION_1_0" "1.0" [node "require" [] [named "enum" "GL_FOO"]]].

(** C9, as stated, fails: nothing upstream looks the enums of the subsets
    up, and [generate_enums] raises [KeyError] on a subset that
    [parse_xml_features] returns. *)
Lemma generate_enums_missing_enum :
  parse_xml_features missing_enum_root 33 "gl" "core"
  = Ok [mkAPISubset "VERSION_1_0" [] ["GL_FOO"] []]
  ∧ parse_xml_enums missing_enum_root "gl" = Ok ∅
  ∧ resolve_type_dependencies [mkAPISubset "VERSION_1_0" [] ["GL_FOO"] []] [] ∅ = Ok ∅
  ∧ generate_enums [mkAPISubset "VERSION_1_0" [] ["GL_FOO"] []] ∅
    = Raise (KeyError "GL_FOO")
  ∧ parse_xml missing_enum_root (mkVersion "gl" 3 3 "core") []
    = ([], Raise (KeyError "GL_FOO")).
Proof. repeat split; by vm_compute. Qed.

(** C9, amended: [generate_enums] returns exactly when every enum name that
    a subset lists is a key of the enum mapping, and [generate_functions]
    exactly when every command name that a subset lists is a key of the
    command table; otherwise they raise [KeyError].  The command lookups
    cannot be the first to fail in [parse_xml]: when
    [resolve_type_dependencies] has returned, [generate_functions] returns.
    [generate_passthru] has no lookup that can fail. *)
Theorem output_assembly_lookups
    (subsets : list APISubset) (types : list Type_)
    (enums : gmap string string) (commands : gmap string Command) :
  (is_ok (generate_enums subsets enums) ↔ enums_known subsets enums)
  ∧ (is_ok (generate_functions subsets commands) ↔ commands_known subsets commands)
  ∧ (is_ok (resolve_type_dependencies subsets types commands) →
     is_ok (generate_functions subsets commands))
  ∧ (∀ e : exn,
       generate_enums subsets enums = Raise e →
       ∃ subset key,
         subset ∈ subsets ∧ key ∈ subset_enums subset
         ∧ enums !! key = None ∧ e = KeyError key).
Proof.
  split; [apply generate_enums_ok|]. split; [apply generate_functions_ok|]. split.
  { rewrite resolve_type_dependencies_ok. apply generate_functions_ok. }
  apply generate_enums_raise.
Qed.

Lemma output_assembly_lookups_witness :
  is_ok (generate_functions sample_subsets sample_commands).
Proof.
  apply (output_assembly_lookups sample_subsets chain_types ∅ sample_commands).
  rewrite resolve_type_dependencies_ok.
  unfold commands_known. apply (bool_decide_unpack _). vm_compute. exact I.
Defined.

(** ** What a match tells about the text *)

Fixpoint all_chars (p : ascii → bool) (w : string) : bool :=
  match w with
  | EmptyString => true
  | String c w' => p c && all_chars p w'
  end.

(** [matches r s caps s' caps']: [r] matches the text between the positions
    [s] and [s'] and turns the groups [caps] into [caps']. *)
Inductive matches : regex → string → captures → string → captures → Prop :=
| matches_Lit l s caps : matches (Lit l) (l +:+ s) caps s caps
| matches_Class (p : ascii → bool) c s caps :
    p c = true → matches (Class p) (String c s) caps s caps
| matches_Star p w s caps :
    all_chars p w = true → matches (Star p) (w +:+ s) caps s caps
| matches_Plus (p : ascii → bool) c w s caps :
    p c = true → all_chars p w = true → matches (Plus p) (String c (w +:+ s)) caps s caps
| matches_Alt_l r1 r2 s caps s' caps' :
    matches r1 s caps s' caps' → matches (Alt r1 r2) s caps s' caps'
| matches_Alt_r r1 r2 s caps s' caps' :
    matches r2 s caps s' caps' → matches (Alt r1 r2) s caps s' caps'
| matches_Seq r1 r2 s caps s1 caps1 s2 caps2 :
    matches r1 s caps s1 caps1 → matches r2 s1 caps1 s2 caps2 →
    matches (Seq r1 r2) s caps s2 caps2
| matches_Group n r s caps s' caps' :
    matches r s caps s' caps' →
    matches (Group n r) s caps s' (<[n := consumed s s']> caps')
| matches_Dollar s caps : at_end s = true → matches Dollar s caps s caps
| matches_Empty s caps : matches Empty s caps s caps.

Lemma strip_prefix_Some (l s s' : string) : strip_prefix l s = Some s' → s = l +:+ s'.
Proof.
  revert s. induction l as [|a l IH]; intros s H; simpl in H.
  - by simplify_eq.
  - destruct s as [|b s]; [done|]. case_bool_decide; [|done].
    subst. rewrite app_cons. f_equal. by apply IH.
Qed.

Lemma strip_prefix_app (l s : string) : strip_prefix l (l +:+ s) = Some s.
Proof.
  induction l as [|a l IH]; [done|]. rewrite app_cons. simpl.
  by rewrite bool_decide_eq_true_2.
Qed.

Lemma star_sound {M} (p : ascii → bool) (k : string → option M) (s : string) (res : M) :
  star p k s = Some res →
  ∃ w s', s = w +:+ s' ∧ all_chars p w = true ∧ k s' = Some res.
Proof.
  induction s as [|c s IH]; simpl; intros H.
  { by exists "", "". }
  destruct (p c) eqn:Hc; [|by exists "", (String c s)].
  destruct (star p k s) as [m|] eqn:Hstar.
  - simplify_eq. destruct (IH eq_refl) as (w & s' & -> & Hw & Hk).
    exists (String c w), s'. rewrite app_cons. simpl. by rewrite Hc, Hw.
  - by exists "", (String c s).
Qed.

Lemma rmatch_sound (r : regex) (s : string) (caps : captures)
    (k : string → captures → option captures) (res : captures) :
  rmatch r s caps k = Some res →
  ∃ s' caps', matches r s caps s' caps' ∧ k s' caps' = Some res.
Proof.
  revert s caps k. induction r as [l|p|p|p|r1 IH1 r2 IH2|r1 IH1 r2 IH2|n r IH| |];
    intros s caps k H; simpl in H.
  - destruct (strip_prefix l s) as [s'|] eqn:Hl; [|done].
    apply strip_prefix_Some in Hl as ->. exists s', caps. split; [constructor|done].
  - destruct s as [|c s]; [done|]. destruct (p c) eqn:Hc; [|done].
    exists s, caps. split; [by constructor|done].
  - apply star_sound in H as (w & s' & -> & Hw & Hk).
    exists s', caps. split; [by constructor|done].
  - destruct s as [|c s]; [done|]. destruct (p c) eqn:Hc; [|done].
    apply star_sound in H as (w & s' & -> & Hw & Hk).
    exists s', caps. split; [by constructor|done].
  - destruct (rmatch r1 s caps k) as [m|] eqn:H1.
    + simplify_eq. destruct (IH1 _ _ _ H1) as (s' & caps' & Hm & Hk).
      exists s', caps'. split; [by apply matches_Alt_l|done].
    + destruct (IH2 _ _ _ H) as (s' & caps' & Hm & Hk).
      exists s', caps'. split; [by apply matches_Alt_r|done].
  - destruct (IH1 _ _ _ H) as (s1 & caps1 & Hm1 & H2).
    destruct (IH2 _ _ _ H2) as (s2 & caps2 & Hm2 & Hk).
    exists s2, caps2. split; [by econstructor|done].
  - destruct (IH _ _ _ H) as (s' & caps' & Hm & Hk).
    eexists s', _. split; [by constructor|done].
  - destruct (at_end s) eqn:Hend; [|done].
    exists s, caps. split; [by constructor|done].
  - exists s, caps. split; [constructor|done].
Qed.

Lemma re_match_sound (r : regex) (line : string) (m : captures) :
  re_match r line = Some m → ∃ s', matches r line ∅ s' m.
Proof.
  intros (s' & caps' & Hm & Hk)%rmatch_sound. simplify_eq. by exists s'.
Qed.

Lemma str_take_length_app (a b : string) :
  str_take (String.length (a +:+ b) - String.length b) (a +:+ b) = a.
Proof.
  induction a as [|c a IH]; simpl.
  - rewrite app_empty_l, Nat.sub_diag. by destruct b.
  - rewrite app_cons. simpl.
    assert (String.length b ≤ String.length (a +:+ b))%nat as Hle.
    { clear. induction a as [|c a IH]; [done|]. rewrite app_cons. simpl. lia. }
    rewrite Nat.sub_succ_l by done. simpl. by rewrite IH.
Qed.

Lemma consumed_app (a b : string) : consumed (a +:+ b) b = a.
Proof. apply str_take_length_app. Qed.

Lemma consumed_cons (c : ascii) (s : string) : consumed (String c s) s = String c "".
Proof. apply (consumed_app (String c "") s). Qed.

Ltac invert_matches :=
  repeat match goal with
  | H : matches (Seq _ _) _ _ _ _ |- _ => inversion H; subst; clear H
  | H : matches (Group _ _) _ _ _ _ |- _ => inversion H; subst; clear H
  | H : matches (Lit _) _ _ _ _ |- _ => inversion H; subst; clear H
  | H : matches (Class _) _ _ _ _ |- _ => inversion H; subst; clear H
  | H : matches (Star _) _ _ _ _ |- _ => inversion H; subst; clear H
  | H : matches (Plus _) _ _ _ _ |- _ => inversion H; subst; clear H
  | H : matches Dollar _ _ _ _ |- _ => inversion H; subst; clear H
  | H : matches Empty _ _ _ _ |- _ => inversion H; subst; clear H
  | H : matches (Alt _ _) _ _ _ _ |- _ => inversion H; subst; clear H
  end.

(** The qualifiers that the version pattern takes. *)
Definition qualifiers : list string := ["core"; "compatibility"; "es"; ""].

Lemma version_match_shape (line : string) (m : captures) :
  re_match version_pattern line = Some m →
  ∃ (c d1 d2 : ascii) (w w2 w3 kw tail : string),
    line = "version" +:+ String c (w +:+ String d1 ("." +:+ String d2
             (w2 +:+ kw +:+ w3 +:+ tail)))
    ∧ is_space c = true ∧ all_chars is_space w = true
    ∧ is_digit d1 = true ∧ is_digit d2 = true
    ∧ all_chars is_space w2 = true ∧ kw ∈ qualifiers
    ∧ all_chars is_space w3 = true ∧ at_end tail = true
    ∧ group m 1 = String d1 "" ∧ group m 2 = String d2 "" ∧ group m 3 = kw.
Proof.
  intros [s' Hm]%re_match_sound. unfold version_pattern in Hm.
  invert_matches.
  all: match goal with
       | |- context [consumed (?kw +:+ ?w3 +:+ ?tail) (?w3 +:+ ?tail)] =>
           exists c1, c0, c, w1, w, w3, kw, tail
       | |- context [consumed (?w3 +:+ ?tail) (?w3 +:+ ?tail)] =>
           exists c1, c0, c, w1, w, w3, "", tail
       end.
  all: split; [reflexivity|].
  all: repeat (split; [done || (unfold qualifiers; set_solver)|]).
  all: unfold group; simplify_map_eq.
  all: rewrite ?consumed_cons, ?consumed_app; try done.
  repeat split. apply (consumed_app "" (w0 +:+ s')).
Qed.

Lemma digit_not_space (c : ascii) : is_digit c = true → is_space c = false.
Proof. destruct c as [[] [] [] [] [] [] [] []]; by vm_compute. Qed.

Lemma int_digit (d : ascii) : is_digit d = true → 0 ≤ int (String d "") ≤ 9.
Proof. destruct d as [[] [] [] [] [] [] [] []]; vm_compute; intros; split; congruence. Qed.

Lemma all_chars_span (p : ascii → bool) (w1 w2 x y : string) (c1 c2 : ascii) :
  all_chars p w1 = true → all_chars p w2 = true →
  p c1 = false → p c2 = false →
  w1 +:+ String c1 x = w2 +:+ String c2 y →
  w1 = w2 ∧ c1 = c2 ∧ x = y.
Proof.
  revert w2. induction w1 as [|a w1 IH]; intros [|b w2] H1 H2 Hc1 Hc2 Heq;
    rewrite ?app_cons, ?app_empty_l in Heq; simpl in *.
  - by simplify_eq.
  - simplify_eq. apply andb_true_iff in H2 as [? _]. congruence.
  - simplify_eq. apply andb_true_iff in H1 as [? _]. congruence.
  - apply andb_true_iff in H1 as [_ H1]. apply andb_true_iff in H2 as [_ H2].
    simplify_eq. destruct (IH w2) as (-> & -> & ->); done.
Qed.

(** The first character after white space, a qualifier and white space at
    the end of a line is not a digit. *)
Lemma no_digit_after_version (w2 kw w3 tail z : string) (n : ascii) :
  all_chars is_space w2 = true → kw ∈ qualifiers →
  all_chars is_space w3 = true → at_end tail = true →
  is_digit n = true →
  w2 +:+ kw +:+ w3 +:+ tail ≠ String n z.
Proof.
  intros H2 Hkw H3 Hend Hn Heq. apply digit_not_space in Hn as Hns.
  destruct w2 as [|a w2].
  2:{ rewrite app_cons in Heq. simpl in H2. apply andb_true_iff in H2 as [? _].
      simplify_eq. congruence. }
  rewrite app_empty_l in Heq. unfold qualifiers in Hkw.
  repeat (apply elem_of_cons in Hkw as [->|Hkw]); [..|by apply elem_of_nil in Hkw];
    try (rewrite app_cons in Heq; simplify_eq; by vm_compute in Hn).
  rewrite app_empty_l in Heq. destruct w3 as [|a w3].
  - rewrite app_empty_l in Heq. subst.
    simpl in Hend. destruct z; [|done]. apply bool_decide_eq_true in Hend. subst.
    by vm_compute in Hn.
  - rewrite app_cons in Heq. simpl in H3. apply andb_true_iff in H3 as [? _].
    simplify_eq. congruence.
Qed.

(** A string of at least two characters. *)
Definition two_or_more (s : string) : Prop := (2 ≤ String.length s)%nat.

Lemma version_pattern_single_digits (ws major minor rest : string) :
  ws ≠ "" → all_chars is_space ws = true →
  major ≠ "" → all_chars is_digit major = true →
  minor ≠ "" → all_chars is_digit minor = true →
  two_or_more major ∨ two_or_more minor →
  re_match version_pattern ("version" +:+ ws +:+ major +:+ "." +:+ minor +:+ rest) = None.
Proof.
  intros Hws Hspace Hmajor Hdmajor Hminor Hdminor Htwo.
  destruct (re_match version_pattern _) as [m|] eqn:Hm; [|done]. exfalso.
  apply version_match_shape in Hm
    as (c & d1 & d2 & w & w2 & w3 & kw & tail & Heq & Hc & Hw & Hd1 & Hd2 & Hw2 & Hkw
        & Hw3 & Hend & _).
  apply (inj (String.app "version")) in Heq.
  destruct major as [|m1 ms]; [done|]. destruct minor as [|n1 ns]; [done|].
  simpl in Hdmajor, Hdminor.
  apply andb_true_iff in Hdmajor as [Hm1 Hms]. apply andb_true_iff in Hdminor as [Hn1 Hns].
  rewrite app_cons in Heq. symmetry in Heq.
  apply (all_chars_span is_space (String c w) ws) in Heq as (_ & <- & Heq);
    [|by simpl; rewrite Hc|done|by apply digit_not_space..].
  change ("." +:+ ?x) with (String "." x) in Heq.
  destruct ms as [|m2 ms].
  2:{ rewrite (app_cons m2) in Heq. simpl in Hms. apply andb_true_iff in Hms as [Hm2 _].
      by simplify_eq. }
  rewrite app_empty_l, (app_cons n1) in Heq. injection Heq as -> Heq.
  destruct ns as [|n2 ns].
  { unfold two_or_more in Htwo. simpl in Htwo. lia. }
  rewrite app_cons in Heq. simpl in Hns. apply andb_true_iff in Hns as [Hn2 _].
  exact (no_digit_after_version w2 kw w3 tail _ n2 Hw2 Hkw Hw3 Hend Hn2 Heq).
Qed.

Lemma other_patterns_version (x : string) :
  re_match extension_pattern ("version" +:+ x) = None
  ∧ re_match comment_pattern ("version" +:+ x) = None.
Proof. split; by vm_compute. Qed.

(** ** The loop of [parse_profile] *)

Definition single_digits (version : option Version) : Prop :=
  ∀ v, version = Some v → 0 ≤ major v ≤ 9 ∧ 0 ≤ minor v ≤ 9.

Lemma profile_line_exit (filename : string) (st : profile_state) (entry : Z * string)
    (x : exn) :
  profile_line filename st entry = Raise x → ∃ d, x = SystemExit d 1.
Proof.
  destruct entry as [line_no line]. unfold profile_line.
  repeat (case_match || case_bool_decide); intros; simplify_eq; eauto.
Qed.

Lemma profile_line_duplicate (filename : string) (st : profile_state) (line_no : Z)
    (line : string) :
  is_Some (re_match version_pattern line) → version st ≠ None →
  profile_line filename st (line_no, line)
  = Raise (SystemExit (DuplicateVersion filename line_no) 1).
Proof.
  intros [m Hm] Hversion. unfold profile_line. rewrite Hm.
  by rewrite bool_decide_eq_true_2.
Qed.

Lemma profile_line_syntax_error (filename : string) (st : profile_state) (line_no : Z)
    (line : string) :
  re_match version_pattern line = None → re_match extension_pattern line = None →
  re_match comment_pattern line = None →
  profile_line filename st (line_no, line)
  = Raise (SystemExit (SyntaxError filename line_no line) 1).
Proof. intros Hv He Hc. unfold profile_line. by rewrite Hv, He, Hc. Qed.

Lemma profile_line_version (filename : string) (st st' : profile_state)
    (line_no : Z) (line : string) :
  profile_line filename st (line_no, line) = Ok st' →
  (version st ≠ None ∨ is_Some (re_match version_pattern line) → version st' ≠ None)
  ∧ (single_digits (version st) → single_digits (version st')).
Proof.
  unfold profile_line. destruct (re_match version_pattern line) as [m|] eqn:Hm.
  - case_bool_decide; [done|]. intros [= <-]. simpl. split; [done|].
    intros _ v [= <-].
    apply version_match_shape in Hm
      as (c & d1 & d2 & w & w2 & w3 & kw & tail & _ & _ & _ & Hd1 & Hd2 & _ & _ & _ & _
          & -> & -> & _).
    destruct (str_eqb _ "es"); simpl; split; by apply int_digit.
  - destruct (re_match extension_pattern line) as [m|].
    + case_bool_decide; [done|]. intros [= <-]. simpl. split; [|done].
      by intros [?|[? ?]].
    + destruct (re_match comment_pattern line); [|done]. intros [= <-].
      split; [|done]. by intros [?|[? ?]].
Qed.

Lemma profile_lines_exit (filename : string) (st : profile_state)
    (entries : list (Z * string)) (x : exn) :
  for_each (profile_line filename) st entries = Raise x → ∃ d, x = SystemExit d 1.
Proof.
  intros (st' & entry & _ & Hline)%for_each_raise. by eapply profile_line_exit.
Qed.

Lemma profile_lines_version (filename : string) (st st' : profile_state)
    (entries : list (Z * string)) :
  for_each (profile_line filename) st entries = Ok st' →
  (version st ≠ None ∨ Exists (λ entry, is_Some (re_match version_pattern entry.2)) entries →
   version st' ≠ None)
  ∧ (single_digits (version st) → single_digits (version st')).
Proof.
  revert st. induction entries as [|[line_no line] entries IH]; intros st Hrun.
  { simpl in Hrun. simplify_eq. split; [|done]. intros [?|H%Exists_nil]; done. }
  rewrite for_each_cons in Hrun.
  destruct (profile_line filename st (line_no, line)) as [st1|] eqn:Hline; [|done].
  rewrite bind_Ok in Hrun. apply profile_line_version in Hline as [Hset Hdigits].
  destruct (IH _ Hrun) as [Hset' Hdigits']. split; [|by auto].
  intros [?|[?|?]%Exists_cons]; apply Hset'; auto.
Qed.

Lemma enumerate_app {A} (start : Z) (l1 l2 : list A) :
  enumerate start (l1 ++ l2)
  = enumerate start l1 ++ enumerate (start + Z.of_nat (length l1)) l2.
Proof.
  revert start. induction l1 as [|x l1 IH]; intros start; simpl.
  - by rewrite Z.add_0_r.
  - rewrite IH. do 3 f_equal. lia.
Qed.

Lemma elem_of_enumerate {A} (start : Z) (l : list A) (i : nat) (x : A) :
  l !! i = Some x → (start + Z.of_nat i, x) ∈ enumerate start l.
Proof.
  revert start i. induction l as [|y l IH]; intros start i Hi; [done|].
  destruct i as [|i]; simpl in *.
  - simplify_eq. rewrite Z.add_0_r. by left.
  - right. replace (start + Z.of_nat (S i)) with (start + 1 + Z.of_nat i) by lia.
    by apply (IH (start + 1)).
Qed.

(** The result of the lines before line [j + 1], and then that line. *)
Lemma parse_profile_split (filename : string) (file : list string) (j : nat)
    (line : string) (st : profile_state) :
  file !! j = Some line →
  for_each (profile_line filename) profile_start (enumerate 1 (take j file)) = Ok st →
  parse_profile filename file
  = st' ← (st1 ← profile_line filename st (Z.of_nat j + 1, line);
           for_each (profile_line filename) st1
             (enumerate (Z.of_nat j + 1 + 1) (drop (S j) file)));
    Ok (version st', extensions st').
Proof.
  intros Hj Hpre. unfold parse_profile.
  rewrite <- (take_drop_middle file j line Hj) at 1.
  rewrite enumerate_app, for_each_app, Hpre, bind_Ok.
  rewrite length_take_le by (apply lookup_lt_Some in Hj; lia).
  simpl enumerate. rewrite for_each_cons.
  by replace (1 + Z.of_nat j) with (Z.of_nat j + 1) by lia.
Qed.

Lemma parse_profile_prefix_raise (filename : string) (file : list string) (j : nat)
    (x : exn) :
  for_each (profile_line filename) profile_start (enumerate 1 (take j file)) = Raise x →
  parse_profile filename file = Raise x.
Proof.
  intros Hpre. unfold parse_profile.
  rewrite <- (take_drop j file) at 1.
  by rewrite enumerate_app, for_each_app, Hpre.
Qed.

Definition bogus_between : list string :=
  ["version 3.3 core" +:+ nl; "bogus" +:+ nl; "version 3.3 core" +:+ nl].

(** C7, as stated, fails: a line in error before the second version line
    ends the run with its own report. *)
Lemma parse_profile_earlier_error :
  is_Some (re_match version_pattern ("version 3.3 core" +:+ nl))
  ∧ parse_profile "profile.txt" bogus_between
    = Raise (SystemExit (SyntaxError "profile.txt" 2 ("bogus" +:+ nl)) 1)
  ∧ ∀ line_no,
      parse_profile "profile.txt" bogus_between
      ≠ Raise (SystemExit (DuplicateVersion "profile.txt" line_no) 1).
Proof.
  split; [by vm_compute; eexists|]. split; [by vm_compute|].
  intros line_no. vm_compute. discriminate.
Qed.

(** C7, amended: a profile with two lines that match the version pattern
    never parses: [parse_profile] prints a report and exits with status 1.
    When no line before the second of them is itself in error (a line that
    matches no pattern, a repeated extension), the report is the
    duplicate-version one, with the number of that line; otherwise it is the
    report of the first line in error. *)
Theorem parse_profile_duplicate_version
    (filename : string) (file : list string) (i j : nat) (l1 l2 : string) :
  (i < j)%nat → file !! i = Some l1 → file !! j = Some l2 →
  is_Some (re_match version_pattern l1) → is_Some (re_match version_pattern l2) →
  (∃ d, parse_profile filename file = Raise (SystemExit d 1))
  ∧ (is_ok (for_each (profile_line filename) profile_start (enumerate 1 (take j file))) →
     parse_profile filename file
     = Raise (SystemExit (DuplicateVersion filename (Z.of_nat j + 1)) 1))
  ∧ (∀ x, for_each (profile_line filename) profile_start (enumerate 1 (take j file))
          = Raise x →
          parse_profile filename file = Raise x).
Proof.
  intros Hlt Hi Hj H1 H2.
  assert (∀ st,
    for_each (profile_line filename) profile_start (enumerate 1 (take j file)) = Ok st →
    parse_profile filename file
    = Raise (SystemExit (DuplicateVersion filename (Z.of_nat j + 1)) 1)) as Hdup.
  { intros st Hpre. rewrite (parse_profile_split _ _ _ _ _ Hj Hpre).
    rewrite profile_line_duplicate; [done|done|].
    apply (profile_lines_version _ _ _ _ Hpre). right.
    apply Exists_exists. exists (1 + Z.of_nat i, l1). split; [|done].
    apply elem_of_enumerate. by rewrite lookup_take_lt. }
  destruct (for_each (profile_line filename) profile_start (enumerate 1 (take j file)))
    as [st|x] eqn:Hpre.
  - split; [by eexists; apply (Hdup st)|]. split; [intros _; by apply (Hdup st)|done].
  - pose proof (parse_profile_prefix_raise _ _ _ _ Hpre) as Hraise.
    apply profile_lines_exit in Hpre as [d ->].
    split; [by exists d|]. split; [done|]. by intros ? [= <-].
Qed.

Definition version_twice : list string :=
  ["version 3.3 core" +:+ nl; "# comment" +:+ nl; "extension EXT_foo required" +:+ nl;
   "version 4.0" +:+ nl].

Lemma parse_profile_duplicate_version_witness :
  parse_profile "profile.txt" version_twice
  = Raise (SystemExit (DuplicateVersion "profile.txt" 4) 1).
Proof.
  destruct (parse_profile_duplicate_version "profile.txt" version_twice 0 3
              ("version 3.3 core" +:+ nl) ("version 4.0" +:+ nl))
    as (_ & Hdup & _); [lia|done|done|by vm_compute; eexists..|].
  apply Hdup. by vm_compute.
Defined.

(** C10: a line [version <major>.<minor> ...] in which the major or the
    minor component has two or more digits matches neither the version
    pattern nor the extension or comment pattern, and [parse_profile] ends on
    it with the syntax error report and status 1, whatever was read before it
    without error.  The version that [parse_profile] returns has a major and a
    minor component between 0 and 9, so that [int_value] is between 0 and
    99. *)
Theorem version_components_single_digit :
  (∀ (ws major minor rest : string),
     ws ≠ "" → all_chars is_space ws = true →
     major ≠ "" → all_chars is_digit major = true →
     minor ≠ "" → all_chars is_digit minor = true →
     two_or_more major ∨ two_or_more minor →
     re_match version_pattern ("version" +:+ ws +:+ major +:+ "." +:+ minor +:+ rest) = None
     ∧ re_match extension_pattern ("version" +:+ ws +:+ major +:+ "." +:+ minor +:+ rest)
       = None
     ∧ re_match comment_pattern ("version" +:+ ws +:+ major +:+ "." +:+ minor +:+ rest)
       = None
     ∧ (∀ (filename : string) (st : profile_state) (line_no : Z),
          profile_line filename st
            (line_no, "version" +:+ ws +:+ major +:+ "." +:+ minor +:+ rest)
          = Raise (SystemExit
                     (SyntaxError filename line_no
                        ("version" +:+ ws +:+ major +:+ "." +:+ minor +:+ rest)) 1))
     ∧ (∀ (filename : string) (before after : list string),
          is_ok (for_each (profile_line filename) profile_start (enumerate 1 before)) →
          parse_profile filename
            (before ++ ("version" +:+ ws +:+ major +:+ "." +:+ minor +:+ rest) :: after)
          = Raise (SystemExit
                     (SyntaxError filename (Z.of_nat (length before) + 1)
                        ("version" +:+ ws +:+ major +:+ "." +:+ minor +:+ rest)) 1)))
  ∧ (∀ (filename : string) (file : list string) (v : Version)
       (extensions : list (string * bool)),
       parse_profile filename file = Ok (Some v, extensions) →
       0 ≤ major v ≤ 9 ∧ 0 ≤ minor v ≤ 9 ∧ 0 ≤ int_value v ≤ 99).
Proof.
  split.
  - intros ws major minor rest Hws Hspace Hmajor Hdmajor Hminor Hdminor Htwo.
    pose proof (version_pattern_single_digits ws major minor rest
                  Hws Hspace Hmajor Hdmajor Hminor Hdminor Htwo) as Hv.
    destruct (other_patterns_version (ws +:+ major +:+ "." +:+ minor +:+ rest)) as [He Hc].
    split; [done|]. split; [done|]. split; [done|]. split.
    + intros. by apply profile_line_syntax_error.
    + intros filename before after Hok.
      destruct (for_each _ _ (enumerate 1 before)) as [st|] eqn:Hpre; [|done].
      erewrite (parse_profile_split filename _ (length before)).
      * by rewrite profile_line_syntax_error.
      * by rewrite list_lookup_middle.
      * by rewrite take_app_length.
  - intros filename file v exts Hparse. unfold parse_profile in Hparse.
    destruct (for_each _ _ _) as [st|] eqn:Hrun; [|done].
    rewrite bind_Ok in Hparse. injection Hparse as Hv _.
    destruct (profile_lines_version _ _ _ _ Hrun) as [_ Hdigits].
    destruct (Hdigits ltac:(by intros ? [=]) v Hv) as [Hmaj Hmin].
    unfold int_value. lia.
Qed.

Lemma version_components_single_digit_witness :
  parse_profile "profile.txt"
    (["# gl" +:+ nl]
     ++ ("version" +:+ " " +:+ "10" +:+ "." +:+ "1" +:+ " core" +:+ nl) :: [])
  = Raise (SystemExit
             (SyntaxError "profile.txt" (Z.of_nat (length ["# gl" +:+ nl]) + 1)
                ("version" +:+ " " +:+ "10" +:+ "." +:+ "1" +:+ " core" +:+ nl)) 1)
  ∧ (0 ≤ int_value (mkVersion "gl" 3 3 "core") ≤ 99).
Proof.
  destruct version_components_single_digit as [Hline Hbound]. split.
  - destruct (Hline " " "10" "1" (" core" +:+ nl)) as (_ & _ & _ & _ & Hparse);
      [done|done|done|done|done|done|left; unfold two_or_more; simpl; lia|].
    apply Hparse. by vm_compute.
  - apply (Hbound "profile.txt" ["version 3.3 core" +:+ nl] _ []). by vm_compute.
Defined.

(** ** Feature levels *)

Lemma int_single (d : ascii) : int (String d "") = digit_value d.
Proof. unfold int. simpl. lia. Qed.

Lemma digit_value_bounds (d : ascii) : is_digit d = true → 0 ≤ digit_value d ≤ 9.
Proof. intros Hd. rewrite <- int_single. by apply int_digit. Qed.

Lemma parse_int_version_digits (d1 d2 : ascii) (rest : string) :
  is_digit d1 = true → is_digit d2 = true →
  parse_int_version (String d1 (String "." (String d2 rest)))
  = Ok (digit_value d1 * 10 + digit_value d2).
Proof.
  intros H1 H2. unfold parse_int_version, re_match, int_version_pattern.
  cbn [rmatch strip_prefix]. rewrite H1. cbn [rmatch strip_prefix].
  rewrite bool_decide_eq_true_2 by done. rewrite H2.
  rewrite !consumed_cons. simpl. unfold group. simplify_map_eq.
  by rewrite !int_single.
Qed.

(** [parse_int_version] reads the first three characters of the number: a
    digit, a dot and a digit.  It returns ten times the first digit plus the
    second, a number from 0 to 99, whatever follows; on any other text the
    match is [None] and the call raises [AttributeError]. *)
Theorem parse_int_version_reads_two_digits (version_str : string) :
  (∀ n, parse_int_version version_str = Ok n →
        ∃ d1 d2 rest,
          version_str = String d1 (String "." (String d2 rest))
          ∧ is_digit d1 = true ∧ is_digit d2 = true
          ∧ n = digit_value d1 * 10 + digit_value d2 ∧ 0 ≤ n ≤ 99)
  ∧ (∀ e, parse_int_version version_str = Raise e → e = AttributeError)
  ∧ (is_ok (parse_int_version version_str)
     ↔ ∃ d1 d2 rest,
         version_str = String d1 (String "." (String d2 rest))
         ∧ is_digit d1 = true ∧ is_digit d2 = true).
Proof.
  assert (∀ n, parse_int_version version_str = Ok n →
        ∃ d1 d2 rest,
          version_str = String d1 (String "." (String d2 rest))
          ∧ is_digit d1 = true ∧ is_digit d2 = true
          ∧ n = digit_value d1 * 10 + digit_value d2 ∧ 0 ≤ n ≤ 99) as Hok.
  { intros n Hn.
    assert (∃ m, re_match int_version_pattern version_str = Some m) as [m Hm].
    { unfold parse_int_version in Hn.
      destruct (re_match int_version_pattern version_str); [eauto|done]. }
    apply re_match_sound in Hm as [s' Hm]. unfold int_version_pattern in Hm.
    invert_matches. change ("." +:+ ?x) with (String "." x) in *.
    exists c0, c, s'. split; [done|]. split; [done|]. split; [done|].
    rewrite parse_int_version_digits in Hn by done. simplify_eq.
    split; [done|].
    pose proof (digit_value_bounds c0 ltac:(done)).
    pose proof (digit_value_bounds c ltac:(done)). lia. }
  split; [done|]. split.
  - intros e He. unfold parse_int_version in He.
    destruct (re_match int_version_pattern version_str); simpl in He; by simplify_eq.
  - split.
    + destruct (parse_int_version version_str) as [n|] eqn:Hn; [|done]. intros _.
      destruct (Hok n eq_refl) as (d1 & d2 & rest & ? & ? & ? & _). eauto 6.
    + intros (d1 & d2 & rest & -> & H1 & H2). by rewrite parse_int_version_digits.
Qed.

Example parse_int_version_samples :
  parse_int_version "3.3" = Ok 33
  ∧ parse_int_version "4.60" = Ok 46
  ∧ parse_int_version "10.0" = Raise AttributeError
  ∧ parse_int_version "" = Raise AttributeError.
Proof. repeat split; by vm_compute. Qed.

(** ** What [parse_profile] returns *)

(** The version that a matched version line gives. *)
Definition version_of_match (m : captures) : Version :=
  if str_eqb (group m 3) "es" then
    Version_init (group m 1) (group m 2)
      (if str_eqb (group m 1) "1" then "es1" else "es2")
  else Version_init (group m 1) (group m 2) (group m 3).

Definition version_request (line : string) : option Version :=
  m ← re_match version_pattern line; Some (version_of_match m).

Definition extension_request (line : string) : option (string * bool) :=
  m ← re_match extension_pattern line;
  Some (group m 1, str_eqb (group m 2) "required").

(** A line that one of the three patterns matches. *)
Definition recognised (line : string) : Prop :=
  is_Some (re_match version_pattern line)
  ∨ is_Some (re_match extension_pattern line)
  ∨ is_Some (re_match comment_pattern line).

Lemma version_not_extension (line : string) :
  is_Some (re_match version_pattern line) → re_match extension_pattern line = None.
Proof.
  intros [m Hm]. apply version_match_shape in Hm as (c & d1 & d2 & w & w2 & w3 & kw
    & tail & -> & _). apply other_patterns_version.
Qed.

Lemma profile_line_on_version (filename : string) (st : profile_state) (line_no : Z)
    (line : string) (v : Version) :
  version_request line = Some v →
  extension_request line = None
  ∧ profile_line filename st (line_no, line)
    = if bool_decide (version st ≠ None)
      then Raise (SystemExit (DuplicateVersion filename line_no) 1)
      else Ok (mkProfileState (Some v) (extensions st) (extension_set st)).
Proof.
  unfold version_request, extension_request, profile_line. intros Hv.
  destruct (re_match version_pattern line) as [m|] eqn:Hm; [|done].
  rewrite version_not_extension by (by rewrite Hm). simpl in Hv. by simplify_eq.
Qed.

Lemma profile_line_on_extension (filename : string) (st : profile_state) (line_no : Z)
    (line : string) (name : string) (required : bool) :
  version_request line = None → extension_request line = Some (name, required) →
  profile_line filename st (line_no, line)
  = if bool_decide (name ∈ extension_set st)
    then Raise (SystemExit (DuplicateExtension filename line_no) 1)
    else Ok (mkProfileState (version st) (extensions st ++ [(name, required)])
               ({[name]} ∪ extension_set st)).
Proof.
  unfold version_request, extension_request, profile_line. intros Hv He.
  destruct (re_match version_pattern line) as [m|]; [done|].
  destruct (re_match extension_pattern line) as [m|]; [|done].
  simpl in He. by simplify_eq.
Qed.

Lemma profile_line_on_other (filename : string) (st : profile_state) (line_no : Z)
    (line : string) :
  version_request line = None → extension_request line = None →
  profile_line filename st (line_no, line)
  = if bool_decide (is_Some (re_match comment_pattern line))
    then Ok st
    else Raise (SystemExit (SyntaxError filename line_no line) 1).
Proof.
  unfold version_request, extension_request, profile_line. intros Hv He.
  destruct (re_match version_pattern line) as [m|]; [done|].
  destruct (re_match extension_pattern line) as [m|]; [done|].
  destruct (re_match comment_pattern line).
  - by rewrite bool_decide_eq_true_2.
  - by rewrite bool_decide_eq_false_2 by (by intros [? ?]).
Qed.

Lemma recognised_requests (line : string) :
  recognised line
  ↔ is_Some (version_request line) ∨ is_Some (extension_request line)
    ∨ is_Some (re_match comment_pattern line).
Proof.
  unfold recognised, version_request, extension_request.
  destruct (re_match version_pattern line), (re_match extension_pattern line);
    simpl; rewrite ?is_Some_alt; naive_solver.
Qed.

Lemma profile_lines_spec (filename : string) (lines : list string) :
  ∀ (st : profile_state) (n : Z),
    (is_ok (for_each (profile_line filename) st (enumerate n lines))
     ↔ Forall recognised lines
       ∧ (length (omap version_request lines)
          ≤ match version st with Some _ => 0 | None => 1 end)%nat
       ∧ NoDup (map fst (omap extension_request lines))
       ∧ ∀ x, x ∈ map fst (omap extension_request lines) → x ∉ extension_set st)
    ∧ ∀ st', for_each (profile_line filename) st (enumerate n lines) = Ok st' →
        version st' = match version st with
                      | Some v => Some v
                      | None => head (omap version_request lines)
                      end
        ∧ extensions st' = extensions st ++ omap extension_request lines
        ∧ extension_set st'
          = list_to_set (map fst (omap extension_request lines)) ∪ extension_set st.
Proof.
  induction lines as [|line lines IH]; intros st n.
  { simpl. split.
    - split; [intros _|done]. repeat split; [constructor|destruct (version st); lia
        |constructor|set_solver].
    - intros st' [= <-]. rewrite app_nil_r. split; [by destruct (version st)|].
      split; [done|set_solver]. }
  simpl enumerate. rewrite for_each_cons, Forall_cons, recognised_requests.
  change (omap ?f (line :: lines))
    with (match f line with Some y => y :: omap f lines | None => omap f lines end).
  destruct (version_request line) as [v|] eqn:Hv.
  - destruct (profile_line_on_version filename st n line v Hv) as [-> ->].
    case_bool_decide as Hversion.
    + split; [|done]. split; [done|]. intros (_ & Hlen & _).
      destruct (version st); [simpl in Hlen; lia|done].
    + assert (version st = None) as Hnone by (by destruct (version st)).
      rewrite bind_Ok, Hnone.
      destruct (IH (mkProfileState (Some v) (extensions st) (extension_set st)) (n + 1))
        as [IHok IHst]. simpl in IHok, IHst. split.
      * rewrite IHok. simpl. split.
        -- intros (? & ? & ? & ?). repeat split; eauto; lia.
        -- intros ((_ & ?) & ? & ? & ?). repeat split; eauto; lia.
      * intros st' Hst'. by destruct (IHst st' Hst') as (-> & -> & ->).
  - destruct (extension_request line) as [[name required]|] eqn:He.
    + rewrite (profile_line_on_extension _ _ _ _ name required) by done.
      case_bool_decide as Hname.
      * split; [|done]. split; [done|]. intros (_ & _ & _ & Hfresh).
        destruct (Hfresh name); [by left|done].
      * rewrite bind_Ok.
        destruct (IH (mkProfileState (version st) (extensions st ++ [(name, required)])
                        ({[name]} ∪ extension_set st)) (n + 1)) as [IHok IHst].
        simpl in IHok, IHst. split.
        -- rewrite IHok. simpl. rewrite NoDup_cons. split.
           ++ intros (? & ? & ? & Hfresh). repeat split; eauto.
              ** intros Hin. apply (Hfresh name Hin). set_solver.
              ** intros x [->|Hx]%elem_of_cons; [done|].
                 specialize (Hfresh x Hx). set_solver.
           ++ intros ((_ & ?) & ? & [Hnotin ?] & Hfresh). repeat split; eauto.
              intros x Hx [->%elem_of_singleton|Hset]%elem_of_union; [done|].
              apply (Hfresh x); [by right|done].
        -- intros st' Hst'. destruct (IHst st' Hst') as (-> & -> & ->).
           split; [done|]. split; [by rewrite <- app_assoc|]. simpl. set_solver.
    + rewrite profile_line_on_other by done. case_bool_decide as Hcomment.
      * rewrite bind_Ok. destruct (IH st (n + 1)) as [IHok IHst]. split; [|done].
        rewrite IHok. naive_solver.
      * split; [|done]. split; [done|]. intros (([[? ?]|[[? ?]|?]] & _) & _); done.
Qed.

(** [parse_profile] returns exactly when every line matches one of the
    three patterns, at most one line is a version line and no two extension
    lines name the same extension.  It then returns the version of the version
    line, or [None] when there is none, and the extension requests in the order
    of their lines. *)
Theorem parse_profile_returns (filename : string) (file : list string) :
  (is_ok (parse_profile filename file)
   ↔ Forall recognised file
     ∧ (length (omap version_request file) ≤ 1)%nat
     ∧ NoDup (map fst (omap extension_request file)))
  ∧ ∀ version extensions,
      parse_profile filename file = Ok (version, extensions) →
      version = head (omap version_request file)
      ∧ extensions = omap extension_request file
      ∧ NoDup (map fst extensions).
Proof.
  destruct (profile_lines_spec filename file profile_start 1) as [Hok Hst].
  unfold parse_profile.
  destruct (for_each (profile_line filename) profile_start (enumerate 1 file))
    as [st|e] eqn:Hrun.
  - rewrite bind_Ok. simpl in Hok. destruct Hok as [Hok _].
    destruct (Hok I) as (Hall & Hlen & Hdup & _). split; [by split|].
    intros version extensions [= <- <-]. by destruct (Hst st eq_refl) as (-> & -> & _).
  - simpl in Hok. split; [|done]. split; [done|]. intros (? & ? & ?).
    apply Hok. repeat split; try done.
Qed.

Example parse_profile_returns_sample :
  omap version_request version_twice
  = [mkVersion "gl" 3 3 "core"; mkVersion "gl" 4 0 ""]
  ∧ omap extension_request version_twice = [("EXT_foo", true)].
Proof. split; by vm_compute. Qed.

Lemma int_one (s : string) : str_eqb s "1" = true → int s = 1.
Proof. by intros ->%str_eqb_true. Qed.

Lemma version_request_kind (line : string) (v : Version) :
  version_request line = Some v →
  (api v = "gl" ∧ profile v ∈ ["core"; "compatibility"; ""])
  ∨ (api v = "gles1" ∧ major v = 1 ∧ profile v = "")
  ∨ (api v = "gles2" ∧ profile v = "").
Proof.
  unfold version_request. destruct (re_match version_pattern line) as [m|] eqn:Hm; [|done].
  intros [= <-].
  apply version_match_shape in Hm
    as (c & d1 & d2 & w & w2 & w3 & kw & tail & _ & _ & _ & Hd1 & _ & _ & Hkw & _ & _
        & H1 & H2 & H3).
  unfold version_of_match. rewrite H1, H2, H3. unfold qualifiers in Hkw.
  repeat (apply elem_of_cons in Hkw as [->|Hkw]); [..|by apply elem_of_nil in Hkw].
  - left. split; [done|]. set_solver.
  - left. split; [done|]. set_solver.
  - right. change (str_eqb "es" "es") with true. cbv iota.
    destruct (str_eqb (String d1 "") "1") eqn:Hone.
    + left. split; [done|]. split; [by apply int_one|done].
    + by right.
  - left. split; [done|]. set_solver.
Qed.

Lemma head_omap_Some {A B} (f : A → option B) (l : list A) (y : B) :
  head (omap f l) = Some y → ∃ x, x ∈ l ∧ f x = Some y.
Proof.
  induction l as [|x l IH]; [done|].
  change (omap f (x :: l))
    with (match f x with Some y => y :: omap f l | None => omap f l end).
  destruct (f x) as [y'|] eqn:Hx.
  - intros [= <-]. exists x. split; [by left|done].
  - intros (x' & ? & ?)%IH. exists x'. split; [by right|done].
Qed.

(** The version that [parse_profile] returns is for the desktop api with
    the profile "core", "compatibility" or "", or for [gles1] or [gles2] with
    an empty profile; a version for [gles1] has the major component 1. *)
Theorem parse_profile_version_kind
    (filename : string) (file : list string) (v : Version)
    (extensions : list (string * bool)) :
  parse_profile filename file = Ok (Some v, extensions) →
  (api v = "gl" ∧ profile v ∈ ["core"; "compatibility"; ""])
  ∨ (api v = "gles1" ∧ major v = 1 ∧ profile v = "")
  ∨ (api v = "gles2" ∧ profile v = "").
Proof.
  unfold parse_profile.
  destruct (for_each (profile_line filename) profile_start (enumerate 1 file))
    as [st|e] eqn:Hrun; [|done].
  rewrite bind_Ok. intros [= Hv _].
  destruct (profile_lines_spec filename file profile_start 1) as [_ Hst].
  destruct (Hst st Hrun) as (Hversion & _). simpl in Hversion. rewrite Hv in Hversion.
  symmetry in Hversion. apply head_omap_Some in Hversion as (line & _ & Hline).
  by eapply version_request_kind.
Qed.

Lemma parse_profile_version_kind_witness :
  (api (mkVersion "gles1" 1 1 "") = "gl"
   ∧ profile (mkVersion "gles1" 1 1 "") ∈ ["core"; "compatibility"; ""])
  ∨ (api (mkVersion "gles1" 1 1 "") = "gles1" ∧ major (mkVersion "gles1" 1 1 "") = 1
     ∧ profile (mkVersion "gles1" 1 1 "") = "")
  ∨ (api (mkVersion "gles1" 1 1 "") = "gles2" ∧ profile (mkVersion "gles1" 1 1 "") = "").
Proof.
  apply (parse_profile_version_kind "profile.txt"
           ["# es" +:+ nl; "version 1.1 es" +:+ nl] _ []).
  by vm_compute.
Defined.

(** ** Which features count *)

Lemma for_each_ext {A S} (body1 body2 : S → A → res S) (acc : S) (l : list A) :
  (∀ acc x, x ∈ l → body1 acc x = body2 acc x) →
  for_each body1 acc l = for_each body2 acc l.
Proof.
  revert acc. induction l as [|x l IH]; intros acc Hext; [done|].
  rewrite !for_each_cons, Hext by (by left).
  destruct (body2 acc x); [|done]. rewrite !bind_Ok. apply IH.
  intros acc' y Hy. apply Hext. by right.
Qed.

Lemma feature_steps_levels (int_version : Z) (api profile : string)
    (subsets : list APISubset) (features : list Element) :
  is_ok (for_each (feature_step int_version api profile) subsets features) →
  Forall (λ f, is_ok (feature_level f)) features.
Proof.
  revert subsets. induction features as [|f features IH]; intros subsets Hok; [constructor|].
  rewrite for_each_cons in Hok.
  destruct (feature_step int_version api profile subsets f) as [subsets'|] eqn:Hstep;
    [|done].
  rewrite bind_Ok in Hok. constructor; [|by eapply IH].
  unfold feature_step in Hstep. by destruct (feature_level f).
Qed.

Lemma feature_level_raise (root : Element) (api : string) (f : Element) (e : exn) :
  f ∈ features_of root api → feature_level f = Raise e → e = AttributeError.
Proof.
  intros Hf. unfold features_of in Hf. apply list_elem_of_filter in Hf as [Hf _].
  apply Is_true_true in Hf. apply andb_true_iff in Hf as [_ Hf].
  unfold has_attr in Hf. apply bool_decide_eq_true in Hf as [number Hnumber].
  unfold feature_level, attr, getitem. rewrite Hnumber, bind_Ok.
  unfold parse_int_version.
  destruct (re_match int_version_pattern number); simpl; intros; by simplify_eq.
Qed.

Lemma feature_step_raise (int_version : Z) (api profile : string)
    (subsets : list APISubset) (f : Element) (e : exn) :
  is_Some (attrib f !! "name") →
  feature_step int_version api profile subsets f = Raise e → feature_level f = Raise e.
Proof.
  intros [name Hname]. unfold feature_step.
  destruct (feature_level f) as [level|]; [|by intros [= ->]]. rewrite bind_Ok.
  case_bool_decide; [done|]. unfold attr, getitem. by rewrite Hname.
Qed.

Lemma subset_name_remove_all (sections : list Element) (subset : APISubset) :
  subset_name (remove_all sections subset) = subset_name subset.
Proof. by rewrite remove_all_eq. Qed.

Lemma feature_subsets_names (api profile : string) (features : list Element) :
  map subset_name (feature_subsets api profile features)
  = map (λ f, str_drop 3 (default "" (attrib f !! "name"))) features.
Proof.
  induction features as [|f features IH]; [done|].
  simpl feature_subsets. rewrite apply_removals_singleton. simpl.
  by rewrite subset_name_remove_all, IH.
Qed.

Lemma feature_subsets_types (api profile : string) (features : list Element)
    (subset : APISubset) (x : string) :
  subset ∈ feature_subsets api profile features → x ∈ subset_types subset →
  ∃ f, f ∈ features ∧ x ∈ required_names api profile "type" f.
Proof.
  induction features as [|f features IH]; [by intros ?%elem_of_nil|].
  simpl feature_subsets. rewrite apply_removals_singleton.
  intros [->|Hin]%elem_of_cons Hx.
  - exists f. split; [by left|]. rewrite remove_all_eq in Hx. simpl in Hx.
    by apply elem_of_without in Hx as [Hx _].
  - destruct (IH Hin Hx) as (g & Hg & Hxg). exists g. split; [by right|done].
Qed.

(** [parse_xml_features] returns exactly when the number of every feature of
    the api starts with a digit, a dot and a digit, and raises
    [AttributeError] otherwise, also for a feature above the requested
    version.  It returns one subset for each feature whose level is not above
    the requested version, in the order of the document, named by the
    feature's name without its first three characters; a feature above the
    requested version contributes no subset and no name. *)
Theorem parse_xml_features_selected
    (root : Element) (int_version : Z) (api profile : string) :
  (is_ok (parse_xml_features root int_version api profile)
   ↔ Forall (λ f, is_ok (feature_level f)) (features_of root api))
  ∧ (∀ e, parse_xml_features root int_version api profile = Raise e → e = AttributeError)
  ∧ ∀ produced,
      parse_xml_features root int_version api profile = Ok produced →
      map subset_name produced
      = map (λ f, str_drop 3 (default "" (attrib f !! "name")))
          (filter (λ f, selected int_version f) (features_of root api))
      ∧ ∀ subset x,
          subset ∈ produced → x ∈ subset_types subset →
          ∃ f, f ∈ features_of root api ∧ selected int_version f = true
               ∧ x ∈ required_names api profile "type" f.
Proof.
  split; [|split].
  - split; [apply feature_steps_levels|].
    intros Hlevels. by rewrite parse_xml_features_subsets.
  - intros e (subsets & f & Hf & Hstep)%for_each_raise.
    eapply feature_level_raise; [done|]. eapply feature_step_raise; [|done].
    pose proof (features_of_named root api) as Hnamed. rewrite Forall_forall in Hnamed.
    by apply Hnamed.
  - intros produced Hproduced.
    assert (Forall (λ f, is_ok (feature_level f)) (features_of root api)) as Hlevels.
    { apply (feature_steps_levels int_version api profile []).
      unfold parse_xml_features in Hproduced. by rewrite Hproduced. }
    rewrite parse_xml_features_subsets in Hproduced by done. simplify_eq.
    split; [apply feature_subsets_names|].
    intros subset x Hsubset Hx.
    destruct (feature_subsets_types _ _ _ _ _ Hsubset Hx) as (f & Hf & Hxf).
    apply list_elem_of_filter in Hf as [Hsel Hf]. exists f.
    split; [done|]. split; [by apply Is_true_true|done].
Qed.

Definition two_levels_root : Element :=
  registry
    [feature "GL_VERSION_1_0" "1.0" [node "require" [] [named "type" "A"]];
     feature "GL_VERSION_4_0" "4.0"
       [node "require" [] [named "type" "B"]; node "remove" [] [named "type" "A"]]].

Example parse_xml_features_above :
  parse_xml_features two_levels_root 33 "gl" "core"
  = Ok [mkAPISubset "VERSION_1_0" ["A"] [] []]
  ∧ parse_xml_features two_levels_root 40 "gl" "core"
    = Ok [mkAPISubset "VERSION_1_0" [] [] []; mkAPISubset "VERSION_4_0" ["B"] [] []]
  ∧ parse_xml_features
      (registry [feature "GL_VERSION_10_0" "10.0" []]) 33 "gl" "core"
    = Raise AttributeError.
Proof. repeat split; by vm_compute. Qed.

Lemma other_profile_not_desktop (api profile : string) (a : Element) :
  api ≠ "gl" → other_profile api profile a = false.
Proof. intros Hapi%str_eqb_false. unfold other_profile. by rewrite Hapi. Qed.

Lemma action_step_same (api p1 p2 : string) (st : feature_state) (a : Element) :
  other_profile api p1 a = other_profile api p2 a →
  action_step api p1 st a = action_step api p2 st a.
Proof. intros H. unfold action_step. by rewrite H. Qed.

Lemma action_steps_same (api p1 p2 : string) (st : feature_state) (sections : list Element) :
  Forall (λ a, other_profile api p1 a = other_profile api p2 a) sections →
  foldl (action_step api p1) st sections = foldl (action_step api p2) st sections.
Proof.
  intros Hall. revert st. induction Hall as [|a sections Ha _ IH]; intros st; [done|].
  simpl. by rewrite (action_step_same _ _ _ _ _ Ha), IH.
Qed.

(** The profile only counts for the desktop api and for sections that carry
    a [profile] attribute: for another api, or when no section of a feature of
    the api has the attribute, [parse_xml_features] gives the same result for
    every profile. *)
Theorem parse_xml_features_profile_free
    (root : Element) (int_version : Z) (api p1 p2 : string) :
  api ≠ "gl"
  ∨ Forall (λ f, Forall (λ a, attrib a !! "profile" = None) (children f))
      (features_of root api) →
  parse_xml_features root int_version api p1
  = parse_xml_features root int_version api p2.
Proof.
  intros Hfree. unfold parse_xml_features. apply for_each_ext.
  intros subsets f Hf. unfold feature_step.
  destruct (feature_level f) as [level|]; [|done]. rewrite !bind_Ok.
  case_bool_decide; [done|]. destruct (attr "name" f) as [name|]; [|done].
  rewrite !bind_Ok. rewrite (action_steps_same api p1 p2); [done|].
  apply Forall_forall. intros a Ha. destruct Hfree as [Hapi|Hnone].
  - by rewrite !other_profile_not_desktop.
  - rewrite Forall_forall in Hnone. specialize (Hnone f Hf).
    rewrite Forall_forall in Hnone. unfold other_profile. by rewrite (Hnone a Ha).
Qed.

Lemma parse_xml_features_profile_free_witness :
  parse_xml_features two_levels_root 40 "gl" "core"
  = parse_xml_features two_levels_root 40 "gl" "compatibility".
Proof.
  apply parse_xml_features_profile_free. right.
  apply (bool_decide_unpack _). vm_compute. exact I.
Defined.

(** ** Enum block *)

Section EnumBlock.
Variable enums : gmap string string.

(** One [#define] line, with the line end that comes before it. *)
Definition define_line (enumName : string) : string :=
  nl +:+ "#define " +:+ enumName +:+ " " +:+ (enums !!! enumName).

(** The section of a subset: its header and its [#define] lines. *)
Definition enum_section (subset : APISubset) : string :=
  "/* GL_" +:+ subset_name subset +:+ " */" +:+ nl
  +:+ join (map define_line (subset_enums subset)).

Lemma enum_step_known (enumsDecl enumName : string) :
  is_Some (enums !! enumName) →
  enum_step enums enumsDecl enumName = Ok (enumsDecl +:+ define_line enumName).
Proof.
  intros [v Hv]. unfold enum_step, getitem, define_line.
  by rewrite Hv, bind_Ok, (lookup_total_correct _ _ _ Hv).
Qed.

Lemma enum_steps (enumsDecl : string) (names : list string) :
  Forall (λ X, is_Some (enums !! X)) names →
  for_each (enum_step enums) enumsDecl names
  = Ok (enumsDecl +:+ join (map define_line names)).
Proof.
  intros Hknown. revert enumsDecl.
  induction Hknown as [|n names Hn _ IH]; intros enumsDecl.
  { simpl. by rewrite app_empty_r. }
  rewrite for_each_cons, enum_step_known, bind_Ok, IH by done.
  simpl. by rewrite !app_assoc_str.
Qed.

Lemma enum_section_not_empty (subset : APISubset) : enum_section subset ≠ "".
Proof. unfold enum_section. by change ("/* GL_" +:+ ?x) with (String "/" ("* GL_" +:+ x)). Qed.

Lemma subset_enum_step_section (enumsDecl : string) (subset : APISubset) :
  Forall (λ X, is_Some (enums !! X)) (subset_enums subset) →
  subset_enums subset ≠ [] →
  subset_enum_step enums enumsDecl subset
  = Ok ((if str_eqb enumsDecl "" then enumsDecl else enumsDecl +:+ nl +:+ nl)
        +:+ enum_section subset).
Proof.
  intros Hknown Hne. unfold subset_enum_step.
  rewrite bool_decide_eq_true_2, enum_steps by done.
  unfold enum_section. by rewrite !app_assoc_str.
Qed.

Lemma subset_enum_step_none (enumsDecl : string) (subset : APISubset) :
  ¬ subset_enums subset ≠ [] → subset_enum_step enums enumsDecl subset = Ok enumsDecl.
Proof. intros Hnil. unfold subset_enum_step. by rewrite bool_decide_eq_false_2. Qed.

(** The subsets that list an enum. *)
Definition with_enums (subsets : list APISubset) : list APISubset :=
  filter (λ subset, subset_enums subset ≠ []) subsets.

Lemma with_enums_cons (subset : APISubset) (subsets : list APISubset) :
  with_enums (subset :: subsets)
  = if decide (subset_enums subset ≠ []) then subset :: with_enums subsets
    else with_enums subsets.
Proof. unfold with_enums. by rewrite filter_cons. Qed.

Lemma concat_cons_sep (sep d : string) (l : list string) :
  String.concat sep (d :: l) = d +:+ join (map (λ d, sep +:+ d) l).
Proof.
  revert d. induction l as [|e l IH]; intros d.
  { simpl. by rewrite app_empty_r. }
  change (String.concat sep (d :: e :: l)) with (d +:+ sep +:+ String.concat sep (e :: l)).
  rewrite (IH e). simpl. by rewrite !app_assoc_str.
Qed.

Lemma generate_enums_started (enumsDecl : string) (subsets : list APISubset) :
  enums_known subsets enums → enumsDecl ≠ "" →
  for_each (subset_enum_step enums) enumsDecl subsets
  = Ok (enumsDecl
        +:+ join (map (λ d, (nl +:+ nl) +:+ d) (map enum_section (with_enums subsets)))).
Proof.
  intros Hknown. revert enumsDecl.
  induction Hknown as [|s subsets Hs _ IH]; intros enumsDecl Hdecl.
  { simpl. by rewrite app_empty_r. }
  rewrite for_each_cons, with_enums_cons. destruct (decide (subset_enums s ≠ [])) as [Hne|He].
  - rewrite subset_enum_step_section, bind_Ok by done.
    apply str_eqb_false in Hdecl as Hdecl'. rewrite Hdecl'.
    rewrite IH.
    + simpl. by rewrite !app_assoc_str.
    + intros [H _]%app_eq_empty. by apply app_eq_empty in H as [H _].
  - rewrite subset_enum_step_none, bind_Ok by done.
    by apply IH.
Qed.

Lemma generate_enums_sections (subsets : list APISubset) :
  enums_known subsets enums →
  generate_enums subsets enums
  = Ok (String.concat (nl +:+ nl) (map enum_section (with_enums subsets))).
Proof.
  unfold generate_enums. induction 1 as [|s subsets Hs Hknown IH]; [done|].
  rewrite for_each_cons, with_enums_cons. destruct (decide (subset_enums s ≠ [])) as [Hne|He].
  - rewrite subset_enum_step_section, bind_Ok by done.
    change (str_eqb "" "") with true. cbv iota. rewrite app_empty_l.
    rewrite generate_enums_started by (done || apply enum_section_not_empty).
    simpl map. by rewrite concat_cons_sep.
  - by rewrite subset_enum_step_none, bind_Ok by done.
Qed.
End EnumBlock.

(** When every listed enum has a value, [generate_enums] returns the
    sections of the subsets that list at least one enum, in the order of the
    subsets, separated by a blank line; a section is the header with the
    subset's name, and for each enum of the subset, in its order, a line
    [#define name value] after a line end.  The text is empty exactly when no
    subset lists an enum. *)
Theorem generate_enums_block (subsets : list APISubset) (enums : gmap string string) :
  enums_known subsets enums →
  generate_enums subsets enums
  = Ok (String.concat (nl +:+ nl) (map (enum_section enums) (with_enums subsets)))
  ∧ (generate_enums subsets enums = Ok ""
     ↔ Forall (λ subset, subset_enums subset = []) subsets).
Proof.
  intros Hknown. rewrite generate_enums_sections by done. split; [done|].
  split.
  - intros [= Hempty]. apply Forall_forall. intros s Hs.
    destruct (decide (subset_enums s = [])) as [|Hne]; [done|]. exfalso.
    assert (s ∈ with_enums subsets) as Hin by (by apply list_elem_of_filter).
    destruct (with_enums subsets) as [|s' rest]; [by apply elem_of_nil in Hin|].
    simpl map in Hempty. rewrite concat_cons_sep in Hempty.
    apply app_eq_empty in Hempty as [Hempty _]. by apply enum_section_not_empty in Hempty.
  - intros Hnone. replace (with_enums subsets) with (@nil APISubset); [done|].
    symmetry. unfold with_enums. clear Hknown.
    induction Hnone as [|s subsets Hs _ IH]; [done|].
    by rewrite filter_cons, decide_False by (by intros H; apply H).
Qed.

Definition sample_enums : gmap string string :=
  list_to_map [("GL_ONE", "1"); ("GL_DEPTH", "0x1801"); ("GL_ALL", "0xFFFFFFFFu")].

Definition sample_enum_subsets : list APISubset :=
  [mkAPISubset "VERSION_1_0" [] ["GL_ONE"; "GL_DEPTH"] [];
   mkAPISubset "VERSION_1_1" [] [] [];
   mkAPISubset "EXT_foo" [] ["GL_ALL"] []].

Lemma generate_enums_block_witness :
  generate_enums sample_enum_subsets sample_enums
  = Ok (String.concat (nl +:+ nl)
          (map (enum_section sample_enums) (with_enums sample_enum_subsets))).
Proof.
  apply generate_enums_block.
  unfold enums_known. apply (bool_decide_unpack _). vm_compute. exact I.
Defined.

Example generate_enums_sample :
  generate_enums sample_enum_subsets sample_enums
  = Ok ("/* GL_VERSION_1_0 */" +:+ nl +:+ nl +:+ "#define GL_ONE 1" +:+ nl
        +:+ "#define GL_DEPTH 0x1801" +:+ nl +:+ nl
        +:+ "/* GL_EXT_foo */" +:+ nl +:+ nl +:+ "#define GL_ALL 0xFFFFFFFFu").
Proof. by vm_compute. Qed.

(** ** Tables filled by assignment *)

Lemma omap_cons_eq {A B} (f : A → option B) (x : A) (l : list A) :
  omap f (x :: l) = match f x with Some y => y :: omap f l | None => omap f l end.
Proof. done. Qed.

Lemma omap_pointwise {A B} (f g : A → option B) (l : list A) :
  (∀ x, f x = g x) → omap f l = omap g l.
Proof.
  intros Hfg. induction l as [|x l IH]; [done|]. by rewrite !omap_cons_eq, Hfg, IH.
Qed.

Section Assignments.
Context {A V : Type}.
Variable read : A → res (option (string * V)).

(** One pass of a loop that reads an element and assigns what it read. *)
Definition assign_entry (d : gmap string V) (x : A) : res (gmap string V) :=
  entry ← read x;
  Ok (match entry with Some (k, v) => <[k := v]> d | None => d end).

(** What an element assigns to the key [k]. *)
Definition assigned (k : string) (x : A) : option V :=
  match read x with
  | Ok (Some (k', v)) => if bool_decide (k' = k) then Some v else None
  | _ => None
  end.

Lemma assign_entry_Ok (d : gmap string V) (x : A) (entry : option (string * V)) :
  read x = Ok entry →
  assign_entry d x = Ok (match entry with Some (k, v) => <[k := v]> d | None => d end).
Proof. intros Hx. unfold assign_entry. by rewrite Hx. Qed.

Lemma assign_entry_Raise (d : gmap string V) (x : A) (e : exn) :
  read x = Raise e → assign_entry d x = Raise e.
Proof. intros Hx. unfold assign_entry. by rewrite Hx. Qed.

Lemma assign_entries (l : list A) (d0 : gmap string V) :
  (is_ok (for_each assign_entry d0 l) ↔ Forall (λ x, is_ok (read x)) l)
  ∧ ∀ d, for_each assign_entry d0 l = Ok d →
      ∀ k, d !! k = from_option Some (d0 !! k) (last (omap (assigned k) l)).
Proof.
  revert d0. induction l as [|x l IH]; intros d0.
  { simpl. split; [split; [constructor|done]|]. by intros d [= <-] k. }
  rewrite for_each_cons, Forall_cons. destruct (read x) as [entry|e] eqn:Hx.
  - rewrite (assign_entry_Ok _ _ _ Hx), bind_Ok.
    destruct (IH (match entry with Some (k, v) => <[k := v]> d0 | None => d0 end))
      as [IHok IHd].
    split; [rewrite IHok; naive_solver|].
    intros d Hd k. rewrite (IHd d Hd k), omap_cons_eq. unfold assigned at 2. rewrite Hx.
    destruct entry as [[k' v]|]; [|done]. case_bool_decide as Hk.
    + subst k'. rewrite last_cons. destruct (last (omap (assigned k) l)); simpl; [done|].
      by rewrite lookup_insert_eq.
    + by rewrite lookup_insert_ne.
  - rewrite (assign_entry_Raise _ _ _ Hx). split; [|done].
    split; [done|]. by intros [? _].
Qed.

Lemma assign_entries_raise (l : list A) (d0 : gmap string V) (e : exn) :
  for_each assign_entry d0 l = Raise e → ∃ x, x ∈ l ∧ read x = Raise e.
Proof.
  intros (d & x & Hx & Hbody)%for_each_raise. exists x. split; [done|].
  unfold assign_entry in Hbody. destruct (read x); [done|]. simpl in Hbody. by simplify_eq.
Qed.
End Assignments.

(** ** The enum mapping *)

(** The value that an enum element gives: its [value], followed by its
    [type] suffix when it has one. *)
Definition enum_value (enum : Element) : option string :=
  value ← attrib enum !! "value";
  Some (match attrib enum !! "type" with
        | Some type => value +:+ type
        | None => value
        end).

(** The value that an enum element gives to [name] for the api. *)
Definition enum_defines (api name : string) (enum : Element) : option string :=
  if other_api enum api then None
  else if bool_decide (attrib enum !! "name" = Some name) then enum_value enum
  else None.

(** An enum element that the loop skips or can read. *)
Definition enum_readable (api : string) (enum : Element) : Prop :=
  other_api enum api = false →
  is_Some (attrib enum !! "name") ∧ is_Some (attrib enum !! "value").

(** What the loop of [parse_xml_enums] reads from one element. *)
Definition enum_entry (api : string) (enum : Element) : res (option (string * string)) :=
  if other_api enum api then Ok None
  else
    name ← attr "name" enum;
    value ← attr "value" enum;
    Ok (Some (name, match attrib enum !! "type" with
                    | Some type => value +:+ type
                    | None => value
                    end)).

Lemma parse_xml_enums_loop (root : Element) (api : string) :
  parse_xml_enums root api
  = for_each (assign_entry (enum_entry api)) ∅ (findall ["enums"; "enum"] root).
Proof.
  apply for_each_ext. intros enums enum _. unfold assign_entry, enum_entry.
  destruct (other_api enum api); [done|].
  destruct (attr "name" enum); [|done]. rewrite !bind_Ok.
  destruct (attr "value" enum); done.
Qed.

Lemma enum_entry_ok (api : string) (enum : Element) :
  is_ok (enum_entry api enum) ↔ enum_readable api enum.
Proof.
  unfold enum_entry, enum_readable, attr, getitem.
  destruct (other_api enum api); [done|].
  destruct (attrib enum !! "name"); simpl.
  - destruct (attrib enum !! "value"); simpl; [naive_solver|].
    split; [done|]. intros [_ [? ?]]; done.
  - split; [done|]. intros [[? ?] _]; done.
Qed.

Lemma enum_entry_raise (api : string) (enum : Element) (e : exn) :
  enum_entry api enum = Raise e → e = KeyError "name" ∨ e = KeyError "value".
Proof.
  unfold enum_entry, attr, getitem. destruct (other_api enum api); [done|].
  destruct (attrib enum !! "name"); simpl; [|intros [= <-]; by left].
  destruct (attrib enum !! "value"); simpl; [done|]. intros [= <-]. by right.
Qed.

Lemma enum_entry_assigned (api name : string) (enum : Element) :
  assigned (enum_entry api) name enum = enum_defines api name enum.
Proof.
  unfold assigned, enum_entry, enum_defines, enum_value, attr, getitem.
  destruct (other_api enum api); [done|].
  destruct (attrib enum !! "name") as [n|]; simpl.
  - destruct (attrib enum !! "value") as [v|]; simpl.
    + case_bool_decide; case_bool_decide; by simplify_eq.
    + by case_bool_decide.
  - done.
Qed.

(** [parse_xml_enums] returns exactly when every enum element without an
    [api] attribute, or with the requested one, has a [name] and a [value];
    otherwise it raises [KeyError] for the attribute that is missing.  In the
    mapping it returns, a name has the value of the last element, in document
    order, that defines it for the api: an element for another api defines
    nothing, and a later definition replaces an earlier one. *)
Theorem parse_xml_enums_table (root : Element) (api : string) :
  (is_ok (parse_xml_enums root api)
   ↔ Forall (enum_readable api) (findall ["enums"; "enum"] root))
  ∧ (∀ e, parse_xml_enums root api = Raise e → e = KeyError "name" ∨ e = KeyError "value")
  ∧ ∀ enums,
      parse_xml_enums root api = Ok enums →
      ∀ name,
        enums !! name
        = last (omap (enum_defines api name) (findall ["enums"; "enum"] root)).
Proof.
  rewrite parse_xml_enums_loop.
  destruct (assign_entries (enum_entry api) (findall ["enums"; "enum"] root) ∅)
    as [Hok Henums].
  split; [|split].
  - rewrite Hok. apply Forall_proper; [|done]. intros enum. apply enum_entry_ok.
  - intros e (enum & _ & He)%assign_entries_raise. by eapply enum_entry_raise.
  - intros enums Hrun name. rewrite (Henums enums Hrun name), lookup_empty.
    rewrite (omap_pointwise _ _ _ (enum_entry_assigned api name)).
    by destruct (last _).
Qed.

Definition enum_element (attrs : list (string * string)) : Element := node "enum" attrs [].

Definition enums_root : Element :=
  registry
    [node "enums" []
       [enum_element [("name", "GL_A"); ("value", "1")];
        enum_element [("name", "GL_B"); ("value", "0x10"); ("type", "u")];
        enum_element [("name", "GL_A"); ("value", "2"); ("api", "gles2")]];
     node "enums" [] [enum_element [("name", "GL_B"); ("value", "0x20")]]].

Example parse_xml_enums_sample :
  parse_xml_enums enums_root "gl" = Ok (list_to_map [("GL_A", "1"); ("GL_B", "0x20")])
  ∧ parse_xml_enums enums_root "gles2"
    = Ok (list_to_map [("GL_A", "2"); ("GL_B", "0x20")])
  ∧ parse_xml_enums (registry [node "enums" [] [enum_element [("value", "1")]]]) "gl"
    = Raise (KeyError "name")
  ∧ parse_xml_enums
      (registry [node "enums" [] [enum_element [("name", "GL_A"); ("api", "gles2")]]]) "gl"
    = Ok ∅.
Proof. repeat split; by vm_compute. Qed.

(** ** The command table *)

(** A [proto] or [param] element that [xml_parse_type_name_pair] can read:
    it has a [name] child with text, and its [ptype] child, when it has one,
    has text. *)
Definition readable_pair (node : option Element) : Prop :=
  ∃ n name,
    node = Some n ∧ find "name" n = Some name ∧ is_Some (text name)
    ∧ ∀ ptype, find "ptype" n = Some ptype → is_Some (text ptype).

Lemma xml_parse_type_name_pair_ok (node : option Element) :
  is_ok (xml_parse_type_name_pair node) ↔ readable_pair node.
Proof.
  unfold xml_parse_type_name_pair, readable_pair, deref.
  destruct node as [n|]; simpl; [|split; [done|by intros (? & ? & ? & _)]].
  destruct (find "name" n) as [name|] eqn:Hname; simpl;
    [|split; [done|]; intros (? & ? & ? & ? & _); congruence].
  destruct (text name) as [t|] eqn:Ht; simpl;
    [|split; [done|]; intros (? & ? & ? & ? & [? ?] & _); congruence].
  destruct (find "ptype" n) as [ptype|] eqn:Hptype; simpl.
  - destruct (text ptype) as [p|] eqn:Hp; simpl.
    + split; [|done]. intros _. exists n, name. rewrite Ht.
      repeat split; eauto. intros ? ?. simplify_eq. by rewrite Hp.
    + split; [done|]. intros (n' & ? & ? & ? & ? & Hall). simplify_eq.
      destruct (Hall ptype Hptype) as [? ?]. congruence.
  - split; [|done]. intros _. exists n, name. rewrite Ht. repeat split; eauto.
    intros ? ?. congruence.
Qed.

Lemma xml_parse_type_name_pair_raise (node : option Element) (e : exn) :
  xml_parse_type_name_pair node = Raise e → e = AttributeError.
Proof.
  unfold xml_parse_type_name_pair, deref.
  destruct node as [n|]; simpl; [|by intros [= <-]].
  destruct (find "name" n) as [name|]; simpl; [|by intros [= <-]].
  destruct (text name); simpl; [|by intros [= <-]].
  destruct (find "ptype" n) as [ptype|]; simpl; [|done].
  destruct (text ptype); simpl; [done|]. by intros [= <-].
Qed.

(** The body of the loop over the [param] children. *)
Definition param_step (st : list (string * string) * gset string) (item : Element)
    : res (list (string * string) * gset string) :=
  let '(params, requiredTypes) := st in
  '(pname, ptype, requiredType) ← xml_parse_type_name_pair (Some item);
  Ok (params ++ [(pname, ptype)], add_required requiredType requiredTypes).

(** What the loop of [parse_xml_commands] makes of one command element. *)
Definition read_command (cmd : Element) : res Command :=
  '(name, rettype, requiredType) ← xml_parse_type_name_pair (find "proto" cmd);
  '(params, requiredTypes) ←
    for_each param_step ([], add_required requiredType ∅) (step "param" cmd);
  Ok (mkCommand rettype name params requiredTypes).

Definition command_entry (cmd : Element) : res (option (string * Command)) :=
  command ← read_command cmd; Ok (Some (cmd_name command, command)).

(** The command that an element gives to [name]. *)
Definition command_defines (name : string) (cmd : Element) : option Command :=
  match read_command cmd with
  | Ok command => if bool_decide (cmd_name command = name) then Some command else None
  | Raise _ => None
  end.

(** The name and type of a pair that was read, and the types that a list of
    pairs needs. *)
Definition name_and_type (p : string * string * option string) : string * string :=
  (p.1.1, p.1.2).

Definition needed_types (pairs : list (string * string * option string)) : gset string :=
  list_to_set (omap snd pairs).

(** A command made of what was read from the [proto] child and, in their
    order, from the [param] children of an element. *)
Definition command_read_from (cmd : Element) (command : Command) : Prop :=
  ∃ proto pairs,
    xml_parse_type_name_pair (find "proto" cmd) = Ok proto
    ∧ Forall2 (λ item p, xml_parse_type_name_pair (Some item) = Ok p)
        (step "param" cmd) pairs
    ∧ command = mkCommand proto.1.2 proto.1.1 (map name_and_type pairs)
                  (needed_types (proto :: pairs)).

Lemma parse_xml_commands_loop (root : Element) :
  parse_xml_commands root
  = for_each (assign_entry command_entry) ∅ (findall ["commands"; "command"] root).
Proof.
  apply for_each_ext. intros commands cmd _.
  unfold assign_entry, command_entry, read_command.
  destruct (xml_parse_type_name_pair (find "proto" cmd))
    as [[[name rettype] requiredType]|]; [|done].
  rewrite !bind_Ok.
  rewrite (for_each_ext _ param_step) by (by intros [? ?] ? _).
  by destruct (for_each param_step _ _) as [[params requiredTypes]|].
Qed.

Lemma param_step_Ok (params : list (string * string)) (requiredTypes : gset string)
    (item : Element) (pname ptype : string) (requiredType : option string) :
  xml_parse_type_name_pair (Some item) = Ok (pname, ptype, requiredType) →
  param_step (params, requiredTypes) item
  = Ok (params ++ [(pname, ptype)], add_required requiredType requiredTypes).
Proof. intros Hp. unfold param_step. by rewrite Hp. Qed.

Lemma param_step_Raise (st : list (string * string) * gset string) (item : Element)
    (e : exn) :
  xml_parse_type_name_pair (Some item) = Raise e → param_step st item = Raise e.
Proof. intros Hp. unfold param_step. destruct st. by rewrite Hp. Qed.

Lemma param_steps (items : list Element) :
  ∀ params requiredTypes st',
    for_each param_step (params, requiredTypes) items = Ok st' →
    ∃ pairs,
      Forall2 (λ item p, xml_parse_type_name_pair (Some item) = Ok p) items pairs
      ∧ st' = (params ++ map name_and_type pairs, needed_types pairs ∪ requiredTypes).
Proof.
  induction items as [|item items IH]; intros params requiredTypes st'.
  { intros [= <-]. exists []. split; [constructor|]. rewrite app_nil_r.
    f_equal. unfold needed_types. set_solver. }
  rewrite for_each_cons.
  destruct (xml_parse_type_name_pair (Some item)) as [[[pname ptype] requiredType]|] eqn:Hp;
    [|by rewrite (param_step_Raise _ _ _ Hp)].
  rewrite (param_step_Ok _ _ _ _ _ _ Hp), bind_Ok. intros (pairs & Hpairs & ->)%IH.
  exists ((pname, ptype, requiredType) :: pairs). split; [by constructor|].
  rewrite <- app_assoc. f_equal. unfold needed_types.
  destruct requiredType; simpl; set_solver.
Qed.

Lemma param_steps_ok (items : list Element)
    (st : list (string * string) * gset string) :
  is_ok (for_each param_step st items) ↔ Forall (λ item, readable_pair (Some item)) items.
Proof.
  apply for_each_is_ok. intros [params requiredTypes] item.
  rewrite <- xml_parse_type_name_pair_ok. unfold param_step.
  by destruct (xml_parse_type_name_pair (Some item)) as [[[? ?] ?]|].
Qed.

Lemma read_command_ok (cmd : Element) :
  is_ok (read_command cmd)
  ↔ readable_pair (find "proto" cmd)
    ∧ Forall (λ item, readable_pair (Some item)) (step "param" cmd).
Proof.
  rewrite <- xml_parse_type_name_pair_ok. unfold read_command.
  destruct (xml_parse_type_name_pair (find "proto" cmd))
    as [[[name rettype] requiredType]|]; [|simpl; tauto].
  rewrite bind_Ok, <- (param_steps_ok _ ([], add_required requiredType ∅)).
  destruct (for_each param_step _ _) as [[params requiredTypes]|]; simpl; tauto.
Qed.

Lemma read_command_raise (cmd : Element) (e : exn) :
  read_command cmd = Raise e → e = AttributeError.
Proof.
  unfold read_command.
  destruct (xml_parse_type_name_pair (find "proto" cmd))
    as [[[name rettype] requiredType]|] eqn:Hproto;
    [|by intros [= <-]; eapply xml_parse_type_name_pair_raise].
  rewrite bind_Ok.
  destruct (for_each param_step _ _) as [[params requiredTypes]|] eqn:Hparams; [done|].
  intros [= <-]. apply for_each_raise in Hparams as ([ps rts] & item & _ & Hstep).
  unfold param_step in Hstep.
  destruct (xml_parse_type_name_pair (Some item)) as [[[? ?] ?]|] eqn:Hitem; [done|].
  simpl in Hstep. simplify_eq. by eapply xml_parse_type_name_pair_raise.
Qed.

Lemma read_command_from (cmd : Element) (command : Command) :
  read_command cmd = Ok command → command_read_from cmd command.
Proof.
  unfold read_command, command_read_from.
  destruct (xml_parse_type_name_pair (find "proto" cmd))
    as [[[name rettype] requiredType]|] eqn:Hproto; [|done].
  rewrite bind_Ok.
  destruct (for_each param_step _ _) as [[params requiredTypes]|] eqn:Hparams; [|done].
  rewrite bind_Ok. intros [= <-].
  apply param_steps in Hparams as (pairs & Hpairs & [= -> ->]).
  exists (name, rettype, requiredType), pairs. split; [done|]. split; [done|].
  simpl. f_equal. unfold needed_types. destruct requiredType; simpl; set_solver.
Qed.

Lemma command_entry_assigned (name : string) (cmd : Element) :
  assigned command_entry name cmd = command_defines name cmd.
Proof.
  unfold assigned, command_entry, command_defines. by destruct (read_command cmd).
Qed.

Lemma last_omap_Some {A B} (f : A → option B) (l : list A) (y : B) :
  last (omap f l) = Some y → ∃ x, x ∈ l ∧ f x = Some y.
Proof.
  intros Hlast. assert (y ∈ omap f l) as Hy.
  { apply list_elem_of_lookup. exists (pred (length (omap f l))).
    by rewrite <- last_lookup. }
  by apply list_elem_of_omap in Hy.
Qed.

Lemma parsed_commands (root : Element) (commands : gmap string Command) :
  parse_xml_commands root = Ok commands →
  ∀ name,
    commands !! name
    = last (omap (command_defines name) (findall ["commands"; "command"] root)).
Proof.
  rewrite parse_xml_commands_loop. intros Hrun name.
  destruct (assign_entries command_entry (findall ["commands"; "command"] root) ∅)
    as [_ Hcommands].
  rewrite (Hcommands commands Hrun name), lookup_empty.
  rewrite (omap_pointwise _ _ _ (command_entry_assigned name)).
  by destruct (last _).
Qed.

Lemma parsed_command_name (root : Element) (commands : gmap string Command)
    (name : string) (command : Command) :
  parse_xml_commands root = Ok commands →
  commands !! name = Some command →
  cmd_name command = name
  ∧ ∃ cmd, cmd ∈ findall ["commands"; "command"] root ∧ read_command cmd = Ok command.
Proof.
  intros Hrun Hname. rewrite (parsed_commands _ _ Hrun) in Hname.
  apply last_omap_Some in Hname as (cmd & Hcmd & Hdef).
  unfold command_defines in Hdef. destruct (read_command cmd) as [c|] eqn:Hc; [|done].
  case_bool_decide; [|done]. simplify_eq. split; [done|]. by exists cmd.
Qed.

(** [parse_xml_commands] returns exactly when the [proto] child and every
    [param] child of every command element can be read, and raises
    [AttributeError] otherwise.  In the table it returns, a name has the
    command of the last element, in document order, whose [proto] has that
    name; every command is filed under its own name, and is made of the
    [proto] and, in their order, the [param] children of an element: its
    parameters are their names and types, its required types are the texts of
    their [ptype] children. *)
Theorem parse_xml_commands_table (root : Element) :
  (is_ok (parse_xml_commands root)
   ↔ Forall (λ cmd, readable_pair (find "proto" cmd)
                    ∧ Forall (λ item, readable_pair (Some item)) (step "param" cmd))
       (findall ["commands"; "command"] root))
  ∧ (∀ e, parse_xml_commands root = Raise e → e = AttributeError)
  ∧ ∀ commands,
      parse_xml_commands root = Ok commands →
      ∀ name,
        commands !! name
        = last (omap (command_defines name) (findall ["commands"; "command"] root))
        ∧ ∀ command,
            commands !! name = Some command →
            cmd_name command = name
            ∧ ∃ cmd, cmd ∈ findall ["commands"; "command"] root
                     ∧ command_read_from cmd command.
Proof.
  split; [|split].
  - rewrite parse_xml_commands_loop.
    destruct (assign_entries command_entry (findall ["commands"; "command"] root) ∅)
      as [-> _].
    apply Forall_proper; [|done]. intros cmd. rewrite <- read_command_ok.
    unfold command_entry. by destruct (read_command cmd).
  - rewrite parse_xml_commands_loop. intros e (cmd & _ & He)%assign_entries_raise.
    unfold command_entry in He. destruct (read_command cmd) eqn:Hc; [done|].
    simpl in He. simplify_eq. by eapply read_command_raise.
  - intros commands Hrun name. split; [by apply parsed_commands|].
    intros command Hcommand.
    destruct (parsed_command_name _ _ _ _ Hrun Hcommand) as (Hname & cmd & Hcmd & Hread).
    split; [done|]. exists cmd. split; [done|]. by apply read_command_from.
Qed.

Definition text_node (t : string) (content : string) (after : option string) : Element :=
  mkElement t ∅ (Some content) after [].

(** [<command><proto>void <name>glClear</name></proto>
      <param><ptype>GLbitfield</ptype> <name>mask</name></param></command>] *)
Definition clear_command : Element :=
  node "command" []
    [mkElement "proto" ∅ (Some "void ") None [text_node "name" "glClear" None];
     mkElement "param" ∅ None None
       [text_node "ptype" "GLbitfield" (Some " "); text_node "name" "mask" None]].

Example parse_xml_commands_sample :
  parse_xml_commands (registry [node "commands" [] [clear_command]])
  = Ok {["glClear" := mkCommand "void" "glClear" [("mask", "GLbitfield")] {["GLbitfield"]}]}
  ∧ parse_xml_commands (registry [node "commands" [] [node "command" [] []]])
    = Raise AttributeError.
Proof. split; by vm_compute. Qed.

(** The functions made from a parsed command table are named by the command
    names that the subsets list, without their first two characters: the
    pair at place [j] has the names of the commands of subset [j] that no
    earlier subset lists, in their order. *)
Theorem generate_functions_parsed_names
    (root : Element) (subsets : list APISubset) (commands : gmap string Command)
    (groups : list (string * list Function)) :
  parse_xml_commands root = Ok commands →
  generate_functions subsets commands = Ok groups →
  ∀ (j : nat) (sj : APISubset),
    subsets !! j = Some sj →
    ∃ functions,
      groups !! j = Some (subset_name sj, functions)
      ∧ map fn_name functions = map (str_drop 2) (listed_commands (take j subsets) sj).
Proof.
  intros Hparse Hgroups j sj Hj.
  assert (commands_known subsets commands) as Hknown.
  { apply generate_functions_ok. by rewrite Hgroups. }
  rewrite generate_functions_groups in Hgroups by done. simplify_eq.
  rewrite (function_groups_lookup _ _ _ _ _ Hj). simpl.
  eexists. split; [done|]. rewrite <- list_fmap_compose.
  apply Forall_fmap_ext_1, Forall_forall. intros X [HX _]%elem_of_listed_commands.
  unfold commands_known in Hknown. rewrite Forall_forall in Hknown.
  specialize (Hknown sj (list_elem_of_lookup_2 _ _ _ Hj)).
  rewrite Forall_forall in Hknown. destruct (Hknown X HX) as [c Hc].
  simpl. unfold function_for. rewrite (lookup_total_correct _ _ _ Hc). simpl.
  by destruct (parsed_command_name _ _ _ _ Hparse Hc) as [-> _].
Qed.

Lemma generate_functions_parsed_names_witness :
  ∃ functions,
    [("VERSION_1_0", [mkFunction "void" "Clear" [("mask", "GLbitfield")]])] !! 0%nat
    = Some (subset_name (mkAPISubset "VERSION_1_0" [] [] ["glClear"; "glClear"]), functions)
    ∧ map fn_name functions
      = map (str_drop 2)
          (listed_commands
             (take 0 [mkAPISubset "VERSION_1_0" [] [] ["glClear"; "glClear"]])
             (mkAPISubset "VERSION_1_0" [] [] ["glClear"; "glClear"])).
Proof.
  apply (generate_functions_parsed_names
           (registry [node "commands" [] [clear_command]])
           [mkAPISubset "VERSION_1_0" [] [] ["glClear"; "glClear"]]
           {["glClear" := mkCommand "void" "glClear" [("mask", "GLbitfield")] {["GLbitfield"]}]});
    by vm_compute.
Defined.

(** ** The type list *)




Lemma collect_type_step_raise (api : string) (types : list Type_) (type : Element)
    (e : exn) :
  collect_type_step api types type = Raise e → e = AttributeError.
Proof.
  unfold collect_type_step. destruct (other_api type api); [done|].
  destruct (attrib type !! "name") as [name|]; simpl; [done|].
  destruct (find "name" type) as [name_node|]; simpl; [done|]. by intros [= <-].
Qed.




Example parse_xml_types_name_child :
  parse_xml_types
    (registry [node "types" []
       [mkElement "type" {["requires" := "stddef"]} (Some "typedef int ") None
          [mkElement "name" ∅ (Some "GLint") (Some ";") []];
        mkElement "type" ∅ (Some "typedef void (") None
          [mkElement "apientry" ∅ None (Some " *") [];
           mkElement "name" ∅ (Some "GLproc") (Some ")(void);") []]]]) "gl"
  = Ok [mkType None (Some "GLint") "typedef int GLint;" (Some "stddef");
        mkType None (Some "GLproc") "typedef void (APIENTRY *GLproc)(void);" None]
  ∧ parse_xml_types (registry [node "types" [] [mkElement "type" ∅ None None []]]) "gl"
    = Raise AttributeError.
Proof. split; by vm_compute. Qed.

Lemma specialized_later_cons (name : option string) (t : Type_) (rest : list Type_) :
  specialized_later name (t :: rest)
  = bool_decide (type_name t = name) && truthy (type_api t) || specialized_later name rest.
Proof. done. Qed.

Lemma specialized_later_keep (name : option string) (types : list Type_) :
  specialized_later name (keep_most_specific types) = specialized_later name types.
Proof.
  induction types as [|t rest IH]; [done|].
  rewrite specialized_later_cons. cbn [keep_most_specific].
  destruct (negb (truthy (type_api t)) && specialized_later (type_name t) rest) eqn:Hskip.
  - rewrite IH. apply andb_true_iff in Hskip as [Hapi%negb_true_iff _].
    by rewrite Hapi, andb_false_r.
  - by rewrite specialized_later_cons, IH.
Qed.

Lemma keep_most_specific_again (types : list Type_) :
  keep_most_specific (keep_most_specific types) = keep_most_specific types.
Proof.
  induction types as [|t rest IH]; [done|]. simpl.
  destruct (negb (truthy (type_api t)) && specialized_later (type_name t) rest) eqn:Hskip;
    [done|].
  simpl. by rewrite specialized_later_keep, Hskip, IH.
Qed.

Lemma keep_most_specific_settled (types l1 l2 : list Type_) (a : Type_) :
  keep_most_specific types = l1 ++ a :: l2 →
  truthy (type_api a) = false → specialized_later (type_name a) l2 = false.
Proof.
  revert l1. induction types as [|t rest IH]; intros l1; [by destruct l1|]. simpl.
  destruct (negb (truthy (type_api t)) && specialized_later (type_name t) rest) eqn:Hskip;
    [apply IH|].
  destruct l1 as [|t' l1]; simpl.
  - intros [= -> <-] Hapi. rewrite specialized_later_keep.
    rewrite Hapi in Hskip. by simpl in Hskip.
  - intros [= _ Hrest]. by eapply IH.
Qed.

Lemma keep_most_specific_unspecialized (types : list Type_) (t : Type_) :
  t ∈ types → specialized_later (type_name t) types = false →
  t ∈ keep_most_specific types.
Proof.
  induction types as [|u rest IH]; [by intros ?%elem_of_nil|].
  rewrite specialized_later_cons. intros Ht [Hu Hrest]%orb_false_iff.
  cbn [keep_most_specific]. apply elem_of_cons in Ht as [<-|Ht].
  - rewrite Hrest, andb_false_r. by left.
  - destruct (negb (truthy (type_api u)) && specialized_later (type_name u) rest);
      [by apply IH|]. right. by apply IH.
Qed.

(** The second loop of [parse_xml_types] settles the list: after it, no
    entry without [api] is followed by an entry of its name with one, and a
    second pass changes nothing.  Names are not made unique: entries that
    have an [api], and entries without one that no specialized entry follows,
    all stay. *)
Theorem unique_types_settled (types : list Type_) :
  unique_types (unique_types types) = unique_types types
  ∧ (∀ l1 a l2 s,
       unique_types types = l1 ++ a :: l2 →
       truthy (type_api a) = false →
       s ∈ l2 → type_name s = type_name a → truthy (type_api s) = false)
  ∧ (∀ t, t ∈ types →
          truthy (type_api t) = true ∨ specialized_later (type_name t) types = false →
          t ∈ unique_types types).
Proof.
  rewrite !unique_types_keep. split; [apply keep_most_specific_again|]. split.
  - intros l1 a l2 s Hsplit Hapi Hs Hname.
    pose proof (keep_most_specific_settled _ _ _ _ Hsplit Hapi) as Hlater.
    unfold specialized_later in Hlater.
    destruct (truthy (type_api s)) eqn:Hsapi; [|done].
    assert (existsb (λ s, bool_decide (type_name s = type_name a) && truthy (type_api s)) l2
            = true) as Hex; [|congruence].
    apply existsb_exists. exists s. split; [by apply list_elem_of_In|].
    by rewrite Hsapi, bool_decide_eq_true_2.
  - intros t Ht [Hapi|Hnone]; [by apply keep_most_specific_specialized|].
    by apply keep_most_specific_unspecialized.
Qed.

Example unique_types_sample :
  unique_types
    [mkType None (Some "T") "a" None; mkType None (Some "T") "b" None;
     mkType (Some "gl") (Some "U") "c" None; mkType None (Some "U") "d" None]
  = [mkType None (Some "T") "a" None; mkType None (Some "T") "b" None;
     mkType (Some "gl") (Some "U") "c" None; mkType None (Some "U") "d" None].
Proof. by vm_compute. Qed.

(** ** The whole of [parse_xml] *)

Lemma function_groups_names (earlier subsets : list APISubset)
    (commands : gmap string Command) :
  map fst (function_groups earlier subsets commands) = map subset_name subsets.
Proof.
  revert earlier. induction subsets as [|s subsets IH]; intros earlier; [done|].
  simpl. by rewrite IH.
Qed.

Lemma generate_functions_names (subsets : list APISubset) (commands : gmap string Command)
    (groups : list (string * list Function)) :
  generate_functions subsets commands = Ok groups →
  map fst groups = map subset_name subsets.
Proof.
  intros Hgroups. assert (commands_known subsets commands) as Hknown.
  { apply generate_functions_ok. by rewrite Hgroups. }
  rewrite generate_functions_groups in Hgroups by done. simplify_eq.
  apply function_groups_names.
Qed.

(** The name of the group of a feature. *)
Definition feature_group_name (feature : Element) : string :=
  str_drop 3 (default "" (attrib feature !! "name")).

Lemma parse_xml_features_names (root : Element) (int_version : Z) (api profile : string)
    (subsets : list APISubset) :
  parse_xml_features root int_version api profile = Ok subsets →
  map subset_name subsets
  = map feature_group_name (filter (λ f, selected int_version f) (features_of root api)).
Proof.
  intros Hsubsets.
  assert (Forall (λ f, is_ok (feature_level f)) (features_of root api)) as Hlevels.
  { apply (feature_steps_levels int_version api profile []).
    unfold parse_xml_features in Hsubsets. by rewrite Hsubsets. }
  rewrite parse_xml_features_subsets in Hsubsets by done. simplify_eq.
  apply feature_subsets_names.
Qed.

Lemma parse_xml_features_raise (root : Element) (int_version : Z) (api profile : string)
    (e : exn) :
  parse_xml_features root int_version api profile = Raise e → e = AttributeError.
Proof.
  intros (subsets & f & Hf & Hstep)%for_each_raise.
  eapply feature_level_raise; [done|]. eapply feature_step_raise; [|done].
  pose proof (features_of_named root api) as Hnamed. rewrite Forall_forall in Hnamed.
  by apply Hnamed.
Qed.

Lemma parse_xml_types_raise (root : Element) (api : string) (e : exn) :
  parse_xml_types root api = Raise e → e = AttributeError.
Proof.
  unfold parse_xml_types. destruct (collect_types root api) as [types|e'] eqn:Hc; [done|].
  intros [= <-]. apply for_each_raise in Hc as (types & type & _ & Hstep).
  by eapply collect_type_step_raise.
Qed.

Lemma parse_xml_enums_raise (root : Element) (api : string) (e : exn) :
  parse_xml_enums root api = Raise e → ∃ key, e = KeyError key.
Proof.
  rewrite parse_xml_enums_loop. intros (enum & _ & He)%assign_entries_raise.
  apply enum_entry_raise in He as [->| ->]; eauto.
Qed.

Lemma parse_xml_commands_raise (root : Element) (e : exn) :
  parse_xml_commands root = Raise e → e = AttributeError.
Proof.
  rewrite parse_xml_commands_loop. intros (cmd & _ & He)%assign_entries_raise.
  unfold command_entry in He. destruct (read_command cmd) eqn:Hc; [done|].
  simpl in He. simplify_eq. by eapply read_command_raise.
Qed.

Lemma resolve_type_dependencies_raise (subsets : list APISubset) (types : list Type_)
    (commands : gmap string Command) (e : exn) :
  resolve_type_dependencies subsets types commands = Raise e →
  ∃ subset key,
    subset ∈ subsets ∧ key ∈ subset_commands subset
    ∧ commands !! key = None ∧ e = KeyError key.
Proof.
  unfold resolve_type_dependencies.
  destruct (for_each (required_subset_step commands) ∅ subsets) as [R|e'] eqn:Hrun; [done|].
  intros [= <-]. apply for_each_raise in Hrun as (R & subset & Hsubset & Hstep).
  unfold required_subset_step in Hstep.
  apply for_each_raise in Hstep as (R' & key & Hkey & Hstep).
  exists subset, key. split; [done|]. split; [done|].
  unfold required_command_step, getitem in Hstep.
  destruct (commands !! key); simpl in Hstep; [done|]. by simplify_eq.
Qed.

(** The stages of [parse_xml] that read the document. *)
Definition read_document (root : Element) (version : Version)
    : res (list Type_ * gmap string string * gmap string Command * list APISubset) :=
  types ← parse_xml_types root (api version);
  enums ← parse_xml_enums root (api version);
  commands ← parse_xml_commands root;
  subsetsGL ← parse_xml_features root (int_value version) (api version) (profile version);
  Ok (types, enums, commands, subsetsGL).

Lemma read_document_raise (root : Element) (version : Version) (e : exn) :
  read_document root version = Raise e → e = AttributeError ∨ ∃ key, e = KeyError key.
Proof.
  unfold read_document.
  destruct (parse_xml_types root (api version)) as [types|] eqn:Ht;
    [|intros [= <-]; left; by eapply parse_xml_types_raise].
  rewrite bind_Ok.
  destruct (parse_xml_enums root (api version)) as [enums|] eqn:He;
    [|intros [= <-]; right; by eapply parse_xml_enums_raise].
  rewrite bind_Ok.
  destruct (parse_xml_commands root) as [commands|] eqn:Hc;
    [|intros [= <-]; left; by eapply parse_xml_commands_raise].
  rewrite bind_Ok.
  destruct (parse_xml_features root _ _ _) as [subsetsGL|] eqn:Hf;
    [done|intros [= <-]; left; by eapply parse_xml_features_raise].
Qed.

Lemma read_document_features (root : Element) (version : Version) types enums commands
    subsetsGL :
  read_document root version = Ok (types, enums, commands, subsetsGL) →
  parse_xml_features root (int_value version) (api version) (profile version)
  = Ok subsetsGL.
Proof.
  unfold read_document.
  destruct (parse_xml_types root (api version)); [|done]. rewrite bind_Ok.
  destruct (parse_xml_enums root (api version)); [|done]. rewrite bind_Ok.
  destruct (parse_xml_commands root); [|done]. rewrite bind_Ok.
  destruct (parse_xml_features root _ _ _); [|done]. rewrite bind_Ok.
  by intros [= _ _ _ ->].
Qed.

Lemma parse_xml_stages (root : Element) (version : Version)
    (extensions : list (string * bool)) :
  parse_xml root version extensions
  = match read_document root version with
    | Raise e => ([], Raise e)
    | Ok (types, enums, commands, subsetsGL) =>
        let subsets :=
          subsetsGL ++ omap (λ request, extension_subset root request.1) extensions in
        (map (λ request, request.1 +:+ " is not an extension")
           (unknown_extensions root extensions),
         requiredTypes ← resolve_type_dependencies subsets types commands;
         enums ← generate_enums subsets enums;
         functions ← generate_functions subsets commands;
         Ok (generate_passthru requiredTypes types, enums, functions))
    end.
Proof.
  unfold parse_xml. fold (read_document root version).
  destruct (read_document root version) as [[[[types enums] commands] subsetsGL]|]; [|done].
  unfold parse_xml_extensions. by rewrite extension_steps.
Qed.

(** The part of [parse_xml] that follows [root = tree.getroot()]. *)
Lemma parse_xml_after_parse (root : Element) (version : Version)
    (extensions : list (string * bool)) :
  (∀ passthru enums functions,
     (parse_xml root version extensions).2 = Ok (passthru, enums, functions) →
     map fst functions
     = map feature_group_name
         (filter (λ f, selected (int_value version) f) (features_of root (api version)))
       ++ map fst (known_extensions root extensions)
     ∧ (parse_xml root version extensions).1
       = map (λ request, request.1 +:+ " is not an extension")
           (unknown_extensions root extensions))
  ∧ (∀ e, (parse_xml root version extensions).2 = Raise e →
          e = AttributeError ∨ ∃ key, e = KeyError key)
  ∧ (∀ e, read_document root version = Raise e →
          parse_xml root version extensions = ([], Raise e)).
Proof.
  rewrite parse_xml_stages.
  destruct (read_document root version) as [[[[types enums0] commands] subsetsGL]|e0]
    eqn:Hread.
  - cbn zeta. cbn [fst snd].
    set (subsets := subsetsGL ++ omap (λ request, extension_subset root request.1) extensions).
    split; [|split; [|done]].
    + intros passthru enums functions.
      destruct (resolve_type_dependencies subsets types commands); [|done].
      rewrite bind_Ok. destruct (generate_enums subsets enums0); [|done].
      rewrite bind_Ok.
      destruct (generate_functions subsets commands) as [groups|] eqn:Hgroups; [|done].
      rewrite bind_Ok. intros [= _ _ <-]. split; [|done].
      rewrite (generate_functions_names _ _ _ Hgroups). unfold subsets.
      rewrite map_app, map_subset_name_extensions.
      by rewrite (parse_xml_features_names _ _ _ _ _
                    (read_document_features _ _ _ _ _ _ Hread)).
    + intros e.
      destruct (resolve_type_dependencies subsets types commands) as [R|e1] eqn:Hresolve.
      2: { intros [= <-]. right.
           apply resolve_type_dependencies_raise in Hresolve as (? & key & _ & _ & _ & ->).
           by exists key. }
      rewrite bind_Ok.
      destruct (generate_enums subsets enums0) as [text|e2] eqn:Henums.
      2: { intros [= <-]. right.
           apply generate_enums_raise in Henums as (? & key & _ & _ & _ & ->).
           by exists key. }
      rewrite bind_Ok.
      assert (is_ok (generate_functions subsets commands)) as Hok.
      { apply generate_functions_ok, (resolve_type_dependencies_ok subsets types).
        by rewrite Hresolve. }
      by destruct (generate_functions subsets commands).
  - split; [done|]. split; [|by intros e [= <-]].
    intros e [= <-]. by eapply read_document_raise.
Qed.

(** When [parse_xml] returns, [etree.parse] has returned the document, the
    function groups are named, in this order, by the features of the api
    whose level is not above the requested version (their names without the
    first three characters) and by the requested extensions that the document
    has, and what was printed is one line for each requested extension that
    the document has not.  When it raises, the exception is the one that
    [etree.parse] raised, or [AttributeError] or [KeyError]: it never ends
    the run itself.  Nothing was printed when [etree.parse] raises or when the
    exception comes from reading the document. *)
Theorem parse_xml_outcome (parsed : res Element) (version : Version)
    (extensions : list (string * bool)) :
  (∀ passthru enums functions,
     (parse_xml_file parsed version extensions).2 = Ok (passthru, enums, functions) →
     ∃ root,
       parsed = Ok root
       ∧ map fst functions
         = map feature_group_name
             (filter (λ f, selected (int_value version) f) (features_of root (api version)))
           ++ map fst (known_extensions root extensions)
       ∧ (parse_xml_file parsed version extensions).1
         = map (λ request, request.1 +:+ " is not an extension")
             (unknown_extensions root extensions))
  ∧ (∀ e, (parse_xml_file parsed version extensions).2 = Raise e →
          parsed = Raise e ∨ e = AttributeError ∨ ∃ key, e = KeyError key)
  ∧ (∀ e, parsed = Raise e
          ∨ (∃ root, parsed = Ok root ∧ read_document root version = Raise e) →
          parse_xml_file parsed version extensions = ([], Raise e)).
Proof.
  destruct parsed as [root|e0]; simpl.
  - destruct (parse_xml_after_parse root version extensions) as (Hok & Hraise & Hread).
    split; [|split].
    + intros passthru enums functions Hreturn. exists root. split; [done|].
      by apply (Hok passthru enums functions).
    + intros e He. right. by apply Hraise.
    + intros e [?|(root' & [= <-] & Hdoc)]; [done|]. by apply Hread.
  - split; [done|]. split; [intros e [= <-]; by left|].
    intros e [[= <-]|(root & ? & _)]; done.
Qed.

Example parse_xml_file_unreadable :
  parse_xml_file (Raise OSError) (mkVersion "gl" 3 3 "core") [("EXT_foo", true)]
  = ([], Raise OSError).
Proof. done. Qed.

Definition small_root : Element :=
  registry
    [node "commands" [] [clear_command];
     feature "GL_VERSION_1_0" "1.0" [node "require" [] [named "command" "glClear"]];
     feature "GL_VERSION_4_0" "4.0" [];
     node "extensions" []
       [node "extension" [("name", "GL_EXT_foo")]
          [node "require" [] [named "command" "glClear"]]]].

Example parse_xml_sample :
  parse_xml small_root (mkVersion "gl" 3 3 "core") [("EXT_bar", true); ("EXT_foo", false)]
  = (["EXT_bar is not an extension"],
     Ok ("", "",
         [("VERSION_1_0", [mkFunction "void" "Clear" [("mask", "GLbitfield")]]);
          ("EXT_foo", [])])).
Proof. by vm_compute. Qed.

Lemma extension_step_flag (root : Element) (st : list string * list APISubset)
    (name : string) (r1 r2 : bool) :
  extension_step root st (name, r1) = extension_step root st (name, r2).
Proof. by destruct st. Qed.

Lemma extension_steps_flags (root : Element) (e1 e2 : list (string * bool)) :
  map fst e1 = map fst e2 →
  ∀ st, foldl (extension_step root) st e1 = foldl (extension_step root) st e2.
Proof.
  revert e2. induction e1 as [|[n1 r1] e1 IH]; intros [|[n2 r2] e2]; simpl; try done.
  intros [= -> Hrest] st. rewrite (extension_step_flag root st n2 r1 r2). by apply IH.
Qed.

(** Whether a requested extension is [required] or [optional] makes no
    difference to [parse_xml]: two lists of requests with the same names in
    the same order give the same messages and the same result. *)
Theorem parse_xml_ignores_required (root : Element) (version : Version)
    (e1 e2 : list (string * bool)) :
  map fst e1 = map fst e2 →
  parse_xml_extensions root e1 = parse_xml_extensions root e2
  ∧ parse_xml root version e1 = parse_xml root version e2.
Proof.
  intros Hnames.
  assert (parse_xml_extensions root e1 = parse_xml_extensions root e2) as Hsame
    by (by apply extension_steps_flags).
  split; [done|]. unfold parse_xml. by rewrite Hsame.
Qed.

Lemma parse_xml_ignores_required_witness :
  parse_xml_extensions small_root [("EXT_bar", true); ("EXT_foo", false)]
  = parse_xml_extensions small_root [("EXT_bar", false); ("EXT_foo", true)]
  ∧ parse_xml small_root (mkVersion "gl" 3 3 "core") [("EXT_bar", true); ("EXT_foo", false)]
    = parse_xml small_root (mkVersion "gl" 3 3 "core")
        [("EXT_bar", false); ("EXT_foo", true)].
Proof. by apply parse_xml_ignores_required. Defined.

(** ** The requested version and the feature levels *)

Lemma version_of_match_components (m : captures) :
  major (version_of_match m) = int (group m 1)
  ∧ minor (version_of_match m) = int (group m 2).
Proof. unfold version_of_match. by destruct (str_eqb (group m 3) "es"). Qed.

Lemma version_request_digits (line : string) (v : Version) :
  version_request line = Some v →
  ∃ c1 c2, is_digit c1 = true ∧ is_digit c2 = true
           ∧ major v = digit_value c1 ∧ minor v = digit_value c2.
Proof.
  unfold version_request. destruct (re_match version_pattern line) as [m|] eqn:Hm; [|done].
  intros [= <-].
  apply version_match_shape in Hm
    as (c & c1 & c2 & w & w2 & w3 & kw & tail & _ & _ & _ & H1 & H2 & _ & _ & _ & _
        & Hg1 & Hg2 & _).
  exists c1, c2. destruct (version_of_match_components m) as [-> ->].
  by rewrite Hg1, Hg2, !int_single.
Qed.

Lemma feature_level_digits (feature : Element) (d1 d2 : ascii) (rest : string) :
  attrib feature !! "number" = Some (String d1 (String "." (String d2 rest))) →
  is_digit d1 = true → is_digit d2 = true →
  feature_level feature = Ok (digit_value d1 * 10 + digit_value d2).
Proof.
  intros Hnumber H1 H2. unfold feature_level, attr, getitem.
  by rewrite Hnumber, bind_Ok, parse_int_version_digits.
Qed.

(** The two ways in which the program computes a level agree, and order the
    versions as pairs: for a version read from a line of the profile, a
    feature whose number starts with the digits [d1.d2] counts (its level is
    not above [version.int_value()]) exactly when [d1] is below the major
    component, or equal to it with [d2] not above the minor component.  So the
    feature numbered like the requested version counts. *)
Theorem requested_version_orders_features
    (line : string) (v : Version) (feature : Element) (d1 d2 : ascii) (rest : string) :
  version_request line = Some v →
  attrib feature !! "number" = Some (String d1 (String "." (String d2 rest))) →
  is_digit d1 = true → is_digit d2 = true →
  (selected (int_value v) feature = true
   ↔ digit_value d1 < major v ∨ (digit_value d1 = major v ∧ digit_value d2 ≤ minor v))
  ∧ (digit_value d1 = major v → digit_value d2 = minor v →
     feature_level feature = Ok (int_value v)).
Proof.
  intros (c1 & c2 & Hc1 & Hc2 & Hmajor & Hminor)%version_request_digits Hnumber H1 H2.
  pose proof (digit_value_bounds _ Hc1). pose proof (digit_value_bounds _ Hc2).
  pose proof (digit_value_bounds _ H1). pose proof (digit_value_bounds _ H2).
  unfold selected, int_value. rewrite (feature_level_digits _ _ _ _ Hnumber H1 H2).
  split.
  - rewrite negb_true_iff, bool_decide_eq_false. lia.
  - intros ? ?. f_equal. lia.
Qed.

Lemma requested_version_orders_features_witness :
  (selected (int_value (mkVersion "gl" 3 3 "core")) (feature "GL_VERSION_3_3" "3.3" []) = true
   ↔ digit_value "3" < major (mkVersion "gl" 3 3 "core")
     ∨ (digit_value "3" = major (mkVersion "gl" 3 3 "core")
        ∧ digit_value "3" ≤ minor (mkVersion "gl" 3 3 "core")))
  ∧ (digit_value "3" = major (mkVersion "gl" 3 3 "core") →
     digit_value "3" = minor (mkVersion "gl" 3 3 "core") →
     feature_level (feature "GL_VERSION_3_3" "3.3" [])
     = Ok (int_value (mkVersion "gl" 3 3 "core"))).
Proof.
  apply (requested_version_orders_features ("version 3.3 core" +:+ nl) _ _ _ _ "");
    by vm_compute.
Defined.

Example selected_levels :
  selected 33 (feature "GL_VERSION_3_3" "3.3" []) = true
  ∧ selected 33 (feature "GL_VERSION_4_0" "4.0" []) = false
  ∧ selected 33 (feature "GL_VERSION_2_9" "2.9" []) = true.
Proof. repeat split; by vm_compute. Qed.
